(** * The Phi streaming worker (streamingWorker.js), embedded in Rocq

    The worker is a JavaScript module with three module-level variables
    ([wasmInitialized], [currentModel], [currentAgent]) and five handlers
    reached through [self.onmessage].  It talks to four outside parties:
    the host (through [self.postMessage]), the Cache Storage API, the
    network ([fetch]) and the WASM engine ([init], [PhiModel],
    [PhiAgentWrapper]).

    The embedding threads one [World] value through every handler.  The
    world holds the three variables, the contents of the cache named
    "phi-model-cache", and three logs in chronological order: the messages
    posted to the host, the calls made to the outside parties, and the
    [console.warn] / [console.error] lines.  What the outside parties answer
    is read from an [Env] value.  A handler is a function
    [Env -> World -> completion A * World]: it returns normally or throws,
    and the world it leaves behind is kept in both cases, as in JavaScript.

    Not modelled: [console.log] lines, the clock ([performance.now],
    [setTimeout]), and the interleaving of handlers at [await] points; each
    handler runs from its first line to its last, and the promises handed to
    [Promise.all] run one after the other.  The values of messages and
    rejections are those of [jsval]: none of them is a function, a getter or
    an exotic object. *)

From Stdlib Require Import List String Ascii Bool Arith ZArith QArith Qround Qabs Qpower.
From Stdlib Require Import Lia Lqa Sorted Strings.Byte DecimalString.
Import ListNotations.

#[local] Set Warnings "-register-all".
Local Open Scope string_scope.
Local Open Scope list_scope.

(** ** Number arithmetic

    Numbers are IEEE 754 binary64 values.  A Number is modelled by the
    rational it denotes; every operation returns the exact result rounded
    to the nearest binary64 value, ties to even ([RN]).  Infinities are not
    modelled: the model agrees with JavaScript on results below 2^1024. *)

Module Double.

Local Open Scope Q_scope.

Definition pow2 (e : Z) : Q := 2 ^ e.

(** The integer part of the base-2 logarithm of a positive rational. *)
Definition flog2 (x : Q) : Z :=
  let k := (Z.log2 (Qnum x) - Z.log2 (Zpos (Qden x)))%Z in
  if Qle_bool (pow2 k) x then k else (k - 1)%Z.

(** Exponent of the unit in the last place: 53 significant bits, and
    2^-1074 for the subnormal numbers. *)
Definition ulp_exp (x : Q) : Z := Z.max (flog2 (Qabs x) - 52) (-1074).

(** Nearest integer, ties to even. *)
Definition rne (x : Q) : Z :=
  let f := Qfloor x in
  match Qcompare (x - inject_Z f) (1 # 2) with
  | Lt => f
  | Gt => (f + 1)%Z
  | Eq => if Z.even f then f else (f + 1)%Z
  end.

Definition RN (x : Q) : Q :=
  if Qeq_bool x 0 then 0
  else inject_Z (rne (x / pow2 (ulp_exp x))) * pow2 (ulp_exp x).

(** An integer as a Number value. *)
Definition of_Z (z : Z) : Q := RN (inject_Z z).

Definition div (x y : Q) : Q := RN (x / y).
Definition mul (x y : Q) : Q := RN (x * y).

(** [Math.round]: the nearest integer, ties towards plus infinity. *)
Definition Math_round (x : Q) : Z := Qfloor (x + (1 # 2)).

End Double.

(** ** JavaScript values carried by messages *)

Module JS.

(** The values a structured-cloned message payload or a rejection is built
    from: undefined, null, booleans, Numbers that are integers or NaN,
    strings, and plain objects as property lists (the first binding of a
    key wins).  [JNum z] is the Number nearest to the integer [z].  A string
    is the sequence of its code units, each below 256.  A typed array or a
    buffer in a payload is only ever tested for truth and may be read as an
    object; arrays and other exotic objects are outside the model. *)
Inductive jsval : Type :=
| JUndefined
| JNull
| JBool (b : bool)
| JNum (z : Z)
| JNaN
| JStr (s : string)
| JObj (props : list (string * jsval)).

(** ToBoolean. *)
Definition truthy (v : jsval) : bool :=
  match v with
  | JUndefined | JNull | JNaN => false
  | JBool b => b
  | JNum z => negb (Z.eqb z 0)
  | JStr s => negb (String.eqb s "")
  | JObj _ => true
  end.

Definition nullish (v : jsval) : bool :=
  match v with
  | JUndefined | JNull => true
  | _ => false
  end.

Fixpoint lookup (k : string) (props : list (string * jsval)) : jsval :=
  match props with
  | [] => JUndefined
  | (k', v) :: rest => if String.eqb k k' then v else lookup k rest
  end.

(** [v.k] for a [v] that is not null or undefined.  None of the keys the
    worker reads exists on the prototype of a primitive, so a primitive
    answers [undefined]. *)
Definition prop (v : jsval) (k : string) : jsval :=
  match v with
  | JObj props => lookup k props
  | _ => JUndefined
  end.

(** [v] is an object with an own property [k]. *)
Definition has_own (k : string) (v : jsval) : bool :=
  match v with
  | JObj props => existsb (fun p => String.eqb k (fst p)) props
  | _ => false
  end.

(** [a || b] *)
Definition or_else (a b : jsval) : jsval := if truthy a then a else b.

(** The decimal digits of an integer. *)
Definition string_of_Z (z : Z) : string := NilZero.string_of_int (Z.to_int z).

(** Number::toString for a Number that is a positive integer [X]: the
    decimal with the fewest significant digits that still denotes [X] once
    rounded to binary64, the nearest to [X] if there are two.  The
    candidates with a given number of digits are the two multiples of [p]
    next to [X]; [p] starts at the power of ten of the leading digit. *)
Fixpoint shortest (fuel : nat) (p : Z) (X : Z) : Z :=
  match fuel with
  | O => X
  | S fuel' =>
      let lo := (X / p * p)%Z in
      let hi := (lo + p)%Z in
      let lo_ok := Qeq_bool (Double.RN (inject_Z lo)) (inject_Z X) in
      let hi_ok := Qeq_bool (Double.RN (inject_Z hi)) (inject_Z X) in
      match lo_ok, hi_ok with
      | true, true =>
          if (X - lo <? hi - X)%Z then lo
          else if (hi - X <? X - lo)%Z then hi
          else if Z.even (lo / p) then lo else hi
      | true, false => lo
      | false, true => hi
      | false, false => shortest fuel' (p / 10)%Z X
      end
  end.

Fixpoint strip_zeros_rev (s : list ascii) : list ascii :=
  match s with
  | "0"%char :: rest => strip_zeros_rev rest
  | _ => s
  end.

(** A decimal without its trailing zeros. *)
Definition strip_zeros (s : string) : string :=
  string_of_list_ascii (rev (strip_zeros_rev (rev (list_ascii_of_string s)))).

(** Up to 21 digits all of them are printed; beyond, the exponent form. *)
Definition Number_toString_positive (X : Z) : string :=
  let N := String.length (string_of_Z X) in
  let V := shortest N (10 ^ (Z.of_nat N - 1))%Z X in
  let all := string_of_Z V in
  let n := String.length all in
  if (n <=? 21)%nat then all
  else
    match strip_zeros all with
    | String d EmptyString => String d "" ++ "e+" ++ string_of_Z (Z.of_nat n - 1)
    | String d rest => String d "" ++ "." ++ rest ++ "e+" ++ string_of_Z (Z.of_nat n - 1)
    | EmptyString => all
    end.

(** Number::toString for a Number [x] that is an integer. *)
Definition Number_toString (x : Q) : string :=
  let X := Qfloor x in
  if (X =? 0)%Z then "0"
  else if Qle_bool (Double.pow2 1024) (Qabs x)
       then (if (X <? 0)%Z then "-Infinity" else "Infinity")
  else if (X <? 0)%Z then "-" ++ Number_toString_positive (- X)
  else Number_toString_positive X.

(** ToString, as applied by a template literal.  [None] is the TypeError
    of an object that cannot be converted to a primitive: an own property
    [toString] hides the method of the prototype and is not callable, and
    [valueOf] gives back the object or is hidden in the same way. *)
Definition to_string (v : jsval) : option string :=
  match v with
  | JUndefined => Some "undefined"
  | JNull => Some "null"
  | JBool true => Some "true"
  | JBool false => Some "false"
  | JNum z => Some (Number_toString (Double.of_Z z))
  | JNaN => Some "NaN"
  | JStr s => Some s
  | JObj _ => if has_own "toString" v then None else Some "[object Object]"
  end.

(** [x.toFixed(1)] for a Number [x] that is not negative: the tenths
    nearest to [x], the larger of two; from 10^21 on, Number::toString. *)
Definition toFixed_1 (x : Q) : string :=
  if Qle_bool (inject_Z (10 ^ 21)) x then Number_toString x
  else
    let n := Qfloor (x * inject_Z 10 + (1 # 2)) in
    string_of_Z (n / 10) ++ "." ++ string_of_Z (n mod 10).

(** [s.split(sep)] for a one-character separator. *)
Fixpoint split_acc (sep : ascii) (s : string) (cur : string) : list string :=
  match s with
  | EmptyString => [cur]
  | String c rest =>
      if Ascii.eqb c sep then cur :: split_acc sep rest ""
      else split_acc sep rest (cur ++ String c "")
  end.

Definition split (sep : ascii) (s : string) : list string := split_acc sep s "".

(** [a.pop()] on a freshly built array: its last element. *)
Definition pop (l : list string) : jsval :=
  match rev l with
  | [] => JUndefined
  | x :: _ => JStr x
  end.

(** [parseInt(s, 10)]: leading white space, an optional sign, then the
    longest run of decimal digits; [None] stands for NaN.  Below 256 the
    white space and line terminator code units are 9 to 13, 32 and 160
    (the no-break space). *)
Definition is_space (c : ascii) : bool :=
  let n := nat_of_ascii c in
  (n =? 32)%nat || ((9 <=? n)%nat && (n <=? 13)%nat) || (n =? 160)%nat.

Definition digit_of (c : ascii) : option Z :=
  let n := nat_of_ascii c in
  if ((48 <=? n)%nat && (n <=? 57)%nat)%bool then Some (Z.of_nat (n - 48)) else None.

Fixpoint skip_spaces (s : string) : string :=
  match s with
  | String c rest => if is_space c then skip_spaces rest else s
  | EmptyString => s
  end.

Fixpoint digits (s : string) (acc : option Z) : option Z :=
  match s with
  | EmptyString => acc
  | String c rest =>
      match digit_of c with
      | Some d => digits rest (Some (10 * match acc with Some a => a | None => 0 end + d)%Z)
      | None => acc
      end
  end.

Definition parseInt (s : string) : option Z :=
  match skip_spaces s with
  | String "-" rest => option_map Z.opp (digits rest None)
  | String "+" rest => digits rest None
  | t => digits t None
  end.

End JS.
Import JS.

(** [Math.round((loaded / total) * 100)] *)
Definition percent (loaded total : Z) : Z :=
  Double.Math_round
    (Double.mul (Double.div (Double.of_Z loaded) (Double.of_Z total))
                (Double.of_Z 100)).

(** [(size / 1024 / 1024).toFixed(1)] *)
Definition megabytes (size : nat) : string :=
  toFixed_1 (Double.div (Double.div (Double.of_Z (Z.of_nat size)) (Double.of_Z 1024))
                        (Double.of_Z 1024)).

(** ** Data of the worker *)

(** A [Uint8Array], and an [ArrayBuffer] seen through one. *)
Definition Uint8Array := list byte.

(** What a [throw] or a rejected promise carries: an Error object, or any
    other value (the engine rejects with whatever its Rust code returns as
    an error, which may be a string, an object or undefined). *)
Inductive js_error : Type :=
| HttpError (status : N) (statusText url : string)
    (* new Error(`HTTP ${response.status}: ${response.statusText} for ${url}`) *)
| TypeError (what : string)
| RangeError (what : string)
| Thrown (what : string)
    (* another Error object, raised by the platform or by the engine *)
| Value (v : jsval).
    (* a value that is no Error object *)

(** A [fetch] response: the status line, [headers.get('content-length')],
    and the body stream ([None] for a null body) as the chunks the reader
    delivers followed by end of stream ([None]) or a read error. *)
Record Response : Type := {
  status : N;
  statusText : string;
  content_length : option string;
  body : option (list Uint8Array * option js_error)
}.

(** [response.ok] *)
Definition ok (r : Response) : bool := ((200 <=? status r) && (status r <=? 299))%N.

(** An entry of the cache: [cachedResponse.ok] and the bytes its
    [arrayBuffer()] gives. *)
Record CachedResponse : Type := {
  cached_ok : bool;
  cached_data : Uint8Array
}.

(** The handle a [new PhiModel(...)] returns: the arguments it was built
    from, and a number that distinguishes it from every other handle. *)
Record PhiModel : Type := {
  model_id : nat;
  model_weights : Uint8Array;
  model_tokenizer : Uint8Array;
  model_config : Uint8Array;
  model_quantized : jsval
}.

Record PhiAgentWrapper : Type := {
  agent_id : nat;
  agent_model : PhiModel
}.

(** The text of a [loading_progress] message. *)
Inductive progress_text : Type :=
| starting_load                              (* 'Starting Phi model load...' *)
| loading_from_cache (description : string)  (* `Loading ${description} from cache...` *)
| downloading (description : string)         (* `Downloading ${description}...` *)
| downloading_percent (description : string) (progress : Z) (MB : string)
    (* `Downloading ${description}... ${progress}% (${(loaded / 1024 / 1024).toFixed(1)} MB)` *)
| initializing_model                         (* 'Initializing Phi model...' *)
| creating_agent.                            (* 'Creating agent wrapper...' *)

(** The text of an [error] message. *)
Inductive error_text : Type :=
| no_agent_loaded                 (* 'No agent loaded' *)
| wasm_not_initialized            (* 'WASM not initialized' *)
| error_toString (e : js_error).  (* what error.toString() returned *)

(** The text of a [cache_status] message; a cached file is listed by the
    last segment of its URL and its size in megabytes to one decimal, as
    in `${name}: ${(size / 1024 / 1024).toFixed(1)} MB`. *)
Inductive cache_text : Type :=
| cache_empty                                   (* "Cache is empty" *)
| cached_files (files : list (string * string)) (* `Cached files: ${cacheInfo.join(', ')}` *)
| cache_check_failed                            (* "Cache check failed" *)
| cache_cleared                                 (* "Cache cleared" *)
| cache_clear_failed.                           (* "Failed to clear cache" *)

(** Messages posted to the host, by their [type].  A [token] from the
    engine carries [tokensSec] and [totalTime], computed from the clock and
    from the running [tokenCount]; the count is kept, [None] marks a token
    without these two fields. *)
Inductive message : Type :=
| loading_progress (text : progress_text)
| wasm_initialized (success : bool)
| model_loaded
| token (tok : string) (tokenCount : option nat)
| stream_complete
| error (text : error_text)
| cache_status (text : cache_text).

(** Calls to the cache, the network and the engine. *)
Inductive call : Type :=
| caches_open
| cache_match (url : string)
| cache_delete (url : string)
| cache_put (url : string) (data : Uint8Array)
| cache_keys
| fetch (url : string)
| init
| new_PhiModel (weights tokenizer config : Uint8Array) (quantized : jsval)
| from_phi_model (model : PhiModel)
| get_response_stream (agent : PhiAgentWrapper) (prompt : string).

(** [console.warn] and [console.error] lines. *)
Inductive console_line : Type :=
| error_init_failed (e : js_error)          (* 'Failed to initialize WASM in worker:' *)
| warn_cached_not_ok (url : string)         (* 'Cached response not ok, removing from cache:' *)
| warn_cache_failed (description : string) (e : js_error)     (* `Failed to cache ${description}:` *)
| error_download_failed (description : string) (e : js_error) (* `Failed to download ${description}:` *)
| error_agent_wrapper (e : js_error)        (* 'Failed to create agent wrapper:' *)
| error_load_failed (e : js_error)          (* 'Failed to load model in worker:' *)
| error_generation (e : js_error)           (* 'Generation error in worker:' *)
| error_clear_cache (e : js_error)          (* "Failed to clear cache:" *)
| warn_unknown_type (type : jsval).         (* 'Unknown message type in worker:' *)

(** The three module-level variables. *)
Record Globals : Type := {
  wasmInitialized : bool;
  currentModel : option PhiModel;
  currentAgent : option PhiAgentWrapper
}.

Record World : Type := {
  globals : Globals;
  cache : list (string * CachedResponse);
    (* "phi-model-cache", oldest entry first, keyed by the URL of the request *)
  outbox : list message;
  calls : list call;
  console : list console_line;
  next_id : nat
}.

(** The worker as its module body leaves it, over a given cache. *)
Definition initial_world (c : list (string * CachedResponse)) : World :=
  {| globals := {| wasmInitialized := false; currentModel := None; currentAgent := None |};
     cache := c; outbox := []; calls := []; console := []; next_id := 0 |}.

(** The answers of the outside parties.  [None] means the call succeeds. *)
Record Env : Type := {
  env_caches_open : option js_error;
  env_cache_match : string -> option js_error;
  env_cache_delete : string -> option js_error;
  env_cache_put : string -> option js_error;
  env_cache_keys : option js_error;
  env_fetch : string -> js_error + Response;
  env_init : option js_error;
  env_new_PhiModel : Uint8Array -> Uint8Array -> Uint8Array -> jsval -> option js_error;
  env_from_phi_model : PhiModel -> option js_error;
  (* the tokens handed to the callback, then how the promise settles *)
  env_get_response_stream : PhiAgentWrapper -> string -> list string * option js_error
}.

(** ** The cache as a keyed store *)

Fixpoint cache_lookup (url : string) (c : list (string * CachedResponse)) : option CachedResponse :=
  match c with
  | [] => None
  | (k, r) :: rest => if String.eqb k url then Some r else cache_lookup url rest
  end.

Definition cache_remove (url : string) (c : list (string * CachedResponse)) :=
  filter (fun e => negb (String.eqb (fst e) url)) c.

Definition cache_store (url : string) (r : CachedResponse) (c : list (string * CachedResponse)) :=
  cache_remove url c ++ [(url, r)].

(** ** Completions and the handler monad *)

Inductive completion (A : Type) : Type :=
| Normal (a : A)
| Throw (e : js_error).
Arguments Normal {A} a.
Arguments Throw {A} e.

Definition M (A : Type) : Type := Env -> World -> completion A * World.

Definition ret {A} (a : A) : M A := fun _ w => (Normal a, w).

Definition bind {A B} (m : M A) (k : A -> M B) : M B :=
  fun env w =>
    match m env w with
    | (Normal a, w') => k a env w'
    | (Throw e, w') => (Throw e, w')
    end.

Definition throw {A} (e : js_error) : M A := fun _ w => (Throw e, w).

(** [try { m } catch (e) { h e }] *)
Definition try_catch {A} (m : M A) (h : js_error -> M A) : M A :=
  fun env w =>
    match m env w with
    | (Normal a, w') => (Normal a, w')
    | (Throw e, w') => h e env w'
    end.

Notation "x <- m ;; k" := (bind m (fun x => k))
  (at level 61, m at next level, right associativity).
Notation "m ;; k" := (bind m (fun _ => k))
  (at level 61, right associativity).

Definition set_globals (g : Globals) (w : World) : World :=
  {| globals := g; cache := cache w; outbox := outbox w; calls := calls w;
     console := console w; next_id := next_id w |}.

Definition set_cache (c : list (string * CachedResponse)) (w : World) : World :=
  {| globals := globals w; cache := c; outbox := outbox w; calls := calls w;
     console := console w; next_id := next_id w |}.

Definition get_globals : M Globals := fun _ w => (Normal (globals w), w).
Definition get_cache : M (list (string * CachedResponse)) := fun _ w => (Normal (cache w), w).
Definition put_globals (g : Globals) : M unit := fun _ w => (Normal tt, set_globals g w).
Definition put_cache (c : list (string * CachedResponse)) : M unit :=
  fun _ w => (Normal tt, set_cache c w).

(** [self.postMessage(m)] *)
Definition postMessage (m : message) : M unit :=
  fun _ w =>
    (Normal tt,
     {| globals := globals w; cache := cache w; outbox := outbox w ++ [m];
        calls := calls w; console := console w; next_id := next_id w |}).

Definition console_write (l : console_line) : M unit :=
  fun _ w =>
    (Normal tt,
     {| globals := globals w; cache := cache w; outbox := outbox w;
        calls := calls w; console := console w ++ [l]; next_id := next_id w |}).

Definition record_call (c : call) : M unit :=
  fun _ w =>
    (Normal tt,
     {| globals := globals w; cache := cache w; outbox := outbox w;
        calls := calls w ++ [c]; console := console w; next_id := next_id w |}).

(** A fresh handle number. *)
Definition fresh : M nat :=
  fun _ w =>
    (Normal (next_id w),
     {| globals := globals w; cache := cache w; outbox := outbox w;
        calls := calls w; console := console w; next_id := S (next_id w) |}).

(** A call to an outside party that succeeds or throws. *)
Definition outside (c : call) (answer : Env -> option js_error) : M unit :=
  record_call c ;;
  fun env w =>
    match answer env with
    | None => (Normal tt, w)
    | Some e => (Throw e, w)
    end.

(** [v.k], which throws when [v] is null or undefined. *)
Definition member (v : jsval) (k : string) : M jsval :=
  if nullish v
  then throw (TypeError ("Cannot read properties of "
                         ++ match v with JNull => "null" | _ => "undefined" end)%string)
  else ret (prop v k).

(** [`${v}`]: the string a template literal makes of a value. *)
Definition template (v : jsval) : M string :=
  match to_string v with
  | Some s => ret s
  | None => throw (TypeError "Cannot convert object to primitive value")
  end.

(** [error.toString] can be called: [error] is not undefined or null, and
    the method of its prototype is not hidden by an own property, which
    could not be a function. *)
Definition has_toString (e : js_error) : bool :=
  match e with
  | Value v => negb (nullish v) && negb (has_own "toString" v)
  | _ => true
  end.

(** [error.toString()] *)
Definition toString (e : js_error) : M error_text :=
  if has_toString e then ret (error_toString e)
  else throw (TypeError "error.toString is not a function").

(** [error?.toString()]: nothing is called on undefined and null. *)
Definition optional_toString (e : js_error) : M unit :=
  match e with
  | Value JUndefined | Value JNull => ret tt
  | _ => toString e ;; ret tt
  end.

(** [await Promise.all(ms)].  The promises are run one after the other,
    each to its end, and the first rejection in array order is the one
    thrown.  In the worker they run concurrently: their calls and messages
    interleave, the rejection thrown is the first in time, and the promises
    still pending go on after it.  Statements about [Promise_all] are to be
    read with this in mind: none below depends on the order in which the
    promises take their steps. *)
Definition settle {A} (m : M A) : M (completion A) :=
  fun env w => let (r, w') := m env w in (Normal r, w').

Fixpoint settle_all {A} (ms : list (M A)) : M (list (completion A)) :=
  match ms with
  | [] => ret []
  | m :: rest => r <- settle m ;; rs <- settle_all rest ;; ret (r :: rs)
  end.

Fixpoint collect {A} (rs : list (completion A)) : completion (list A) :=
  match rs with
  | [] => Normal []
  | Throw e :: _ => Throw e
  | Normal a :: rest =>
      match collect rest with
      | Normal l => Normal (a :: l)
      | Throw e => Throw e
      end
  end.

Definition Promise_all {A} (ms : list (M A)) : M (list A) :=
  rs <- settle_all ms ;;
  match collect rs with
  | Normal l => ret l
  | Throw e => throw e
  end.

(** ** initializeWASM *)

Definition initializeWASM : M bool :=
  try_catch
    (outside init env_init ;;
     g <- get_globals ;;
     put_globals {| wasmInitialized := true;
                    currentModel := currentModel g;
                    currentAgent := currentAgent g |} ;;
     ret true)
    (fun error => console_write (error_init_failed error) ;; ret false).

(** ** downloadFile *)

(** [result.set(chunk, offset)]; [None] is the RangeError of a chunk that
    does not fit. *)
Definition Uint8Array_set (result chunk : Uint8Array) (offset : nat) : option Uint8Array :=
  if (offset + List.length chunk <=? List.length result)%nat
  then Some (firstn offset result ++ chunk ++ skipn (offset + List.length chunk) result)
  else None.

(** [for (const chunk of chunks) { result.set(chunk, offset); offset += chunk.length; }] *)
Fixpoint copy_chunks (chunks : list Uint8Array) (result : Uint8Array) (offset : nat)
  : option Uint8Array :=
  match chunks with
  | [] => Some result
  | chunk :: rest =>
      match Uint8Array_set result chunk offset with
      | Some result' => copy_chunks rest result' (offset + List.length chunk)
      | None => None
      end
  end.

(** Lines 88-96: the total length by [reduce], a zero-filled array of that
    length, then the copy loop. *)
Definition concatenate (chunks : list Uint8Array) : option Uint8Array :=
  let totalLength := fold_left (fun acc chunk => acc + List.length chunk)%nat chunks 0%nat in
  copy_chunks chunks (repeat x00 totalLength) 0.

(** Lines 79-85: the progress message after a chunk, if any. *)
Definition report_progress (description : string) (total : option Z) (loaded : nat) : M unit :=
  match total with
  | Some t =>
      if negb (t =? 0)%Z && (0 <? loaded)%nat
      then postMessage
             (loading_progress
                (downloading_percent description (percent (Z.of_nat loaded) t) (megabytes loaded)))
      else ret tt
  | None => ret tt
  end.

(** Lines 71-86: the read loop over what the reader delivers. *)
Fixpoint read_chunks (description : string) (total : option Z)
         (incoming : list Uint8Array) (failure : option js_error)
         (chunks : list Uint8Array) (loaded : nat) : M (list Uint8Array) :=
  match incoming with
  | [] =>
      match failure with
      | None => ret chunks
      | Some e => throw e
      end
  | value :: rest =>
      let chunks := chunks ++ [value] in
      let loaded := (loaded + List.length value)%nat in
      report_progress description total loaded ;;
      read_chunks description total rest failure chunks loaded
  end.

Definition do_fetch (url : string) : M Response :=
  record_call (fetch url) ;;
  fun env w =>
    match env_fetch env url with
    | inr response => (Normal response, w)
    | inl e => (Throw e, w)
    end.

(** Lines 48-116: the download after a cache miss. *)
Definition download (url description : string) : M Uint8Array :=
  postMessage (loading_progress (downloading description)) ;;
  response <- do_fetch url ;;
  if negb (ok response)
  then throw (HttpError (status response) (statusText response) url)
  else
    let contentLength := content_length response in
    let total := parseInt (match contentLength with Some s => s | None => "null" end) in
    stream <- match body response with
              | Some b => ret b
              | None => throw (TypeError "Cannot read properties of null (reading 'getReader')")
              end ;;
    chunks <- read_chunks description total (fst stream) (snd stream) [] 0 ;;
    result <- match concatenate chunks with
              | Some r => ret r
              | None => throw (RangeError "offset is out of bounds")
              end ;;
    try_catch
      (outside (cache_put url result) (fun env => env_cache_put env url) ;;
       c <- get_cache ;;
       put_cache (cache_store url {| cached_ok := true; cached_data := result |} c))
      (fun cacheError => console_write (warn_cache_failed description cacheError)) ;;
    ret result.

Definition downloadFile (url description : string) : M Uint8Array :=
  try_catch
    (outside caches_open env_caches_open ;;
     outside (cache_match url) (fun env => env_cache_match env url) ;;
     c <- get_cache ;;
     hit <- match cache_lookup url c with
            | Some cachedResponse =>
                postMessage (loading_progress (loading_from_cache description)) ;;
                if cached_ok cachedResponse
                then ret (Some (cached_data cachedResponse))
                else
                  console_write (warn_cached_not_ok url) ;;
                  outside (cache_delete url) (fun env => env_cache_delete env url) ;;
                  c' <- get_cache ;;
                  put_cache (cache_remove url c') ;;
                  ret None
            | None => ret None
            end ;;
     match hit with
     | Some data => ret data
     | None => download url description
     end)
    (fun error => console_write (error_download_failed description error) ;; throw error).

(** ** loadModel *)

Definition construct_PhiModel (weights tokenizer config : Uint8Array) (quantized : jsval)
  : M PhiModel :=
  outside (new_PhiModel weights tokenizer config quantized)
          (fun env => env_new_PhiModel env weights tokenizer config quantized) ;;
  id <- fresh ;;
  ret {| model_id := id; model_weights := weights; model_tokenizer := tokenizer;
         model_config := config; model_quantized := quantized |}.

Definition PhiAgentWrapper_from_phi_model (model : PhiModel) : M PhiAgentWrapper :=
  outside (from_phi_model model) (fun env => env_from_phi_model env model) ;;
  id <- fresh ;;
  ret {| agent_id := id; agent_model := model |}.

(** [`${modelConfig.base_url}${modelConfig[key]}`] *)
Definition url_of (modelConfig : jsval) (key : string) : M string :=
  base_url <- member modelConfig "base_url" ;;
  base <- template base_url ;;
  file <- member modelConfig key ;;
  name <- template file ;;
  ret (base ++ name)%string.

Definition loadModel (modelConfig : jsval) : M bool :=
  try_catch
    (postMessage (loading_progress starting_load) ;;
     weightsUrl <- url_of modelConfig "model" ;;
     tokenizerUrl <- url_of modelConfig "tokenizer" ;;
     configUrl <- url_of modelConfig "config" ;;
     buffers <- Promise_all [downloadFile weightsUrl "Phi model weights";
                             downloadFile tokenizerUrl "Phi tokenizer";
                             downloadFile configUrl "Phi config"] ;;
     let weightsArray := nth 0 buffers [] in
     let tokenizerArray := nth 1 buffers [] in
     let configArray := nth 2 buffers [] in
     postMessage (loading_progress initializing_model) ;;
     quantized <- member modelConfig "quantized" ;;
     let isQuantized := or_else quantized (JBool false) in
     m <- construct_PhiModel weightsArray tokenizerArray configArray isQuantized ;;
     g <- get_globals ;;
     put_globals {| wasmInitialized := wasmInitialized g;
                    currentModel := Some m;
                    currentAgent := currentAgent g |} ;;
     postMessage (loading_progress creating_agent) ;;
     g <- get_globals ;;
     a <- try_catch
            (match currentModel g with
             | Some m' => PhiAgentWrapper_from_phi_model m'
             | None => throw (TypeError "currentModel is null")
             end)
            (fun error => console_write (error_agent_wrapper error) ;; throw error) ;;
     g <- get_globals ;;
     put_globals {| wasmInitialized := wasmInitialized g;
                    currentModel := currentModel g;
                    currentAgent := Some a |} ;;
     postMessage model_loaded ;;
     ret true)
    (fun err =>
       console_write (error_load_failed err) ;;
       text <- toString err ;;
       postMessage (error text) ;;
       ret false).

(** ** generateResponse *)

Definition apology : string :=
  "I'm a text generation model and can't analyze images. Please ask me text-based questions!".

(** Lines 188-191: one [token] message per word; the 50 ms pause between
    two words is not modelled. *)
Fixpoint post_words (words : list string) : M unit :=
  match words with
  | [] => ret tt
  | word :: rest => postMessage (token (word ++ " ") None) ;; post_words rest
  end.

(** Lines 201-212: the callback handed to the engine. *)
Definition tokenCallback (tok : string) (tokenCount : nat) : M nat :=
  let tokenCount := S tokenCount in
  postMessage (token tok (Some tokenCount)) ;;
  ret tokenCount.

Fixpoint deliver (tokens : list string) (tokenCount : nat) : M nat :=
  match tokens with
  | [] => ret tokenCount
  | tok :: rest => n <- tokenCallback tok tokenCount ;; deliver rest n
  end.

(** [await agent.get_response_stream(prompt, tokenCallback)]: the engine
    calls the callback once per token, then the promise settles.  A
    synchronous throw lands in the same [catch] as a rejection and is
    modelled as one. *)
Definition Agent_get_response_stream (agent : PhiAgentWrapper) (prompt : string) : M unit :=
  record_call (get_response_stream agent prompt) ;;
  fun env w =>
    let (tokens, failure) := env_get_response_stream env agent prompt in
    (deliver tokens 0 ;;
     match failure with
     | None => ret tt
     | Some e => throw e
     end) env w.

Definition generateResponse (data : jsval) : M unit :=
  g <- get_globals ;;
  match currentAgent g with
  | None => postMessage (error no_agent_loaded)
  | Some _ =>
      try_catch
        (prompt <- member data "prompt" ;;
         image <- member data "image" ;;
         (* `Starting generation for prompt: ${prompt}` *)
         template prompt ;;
         (* image && image.data *)
         image_data <- (if truthy image then member image "data" else ret image) ;;
         if truthy image_data
         then
           let words := split " " apology in
           post_words words ;;
           postMessage stream_complete
         else
           try_catch
             (* prompt.substring(0, 50) is a TypeError unless prompt is a string *)
             (text <- match prompt with
                      | JStr s => ret s
                      | _ => throw (TypeError "prompt.substring is not a function")
                      end ;;
              g' <- get_globals ;;
              match currentAgent g' with
              | Some agent => Agent_get_response_stream agent text
              | None => throw (TypeError "Cannot read properties of null (reading 'get_response_stream')")
              end)
             (* console.log('Error toString:', streamError?.toString()) *)
             (fun streamError => optional_toString streamError) ;;
           postMessage stream_complete)
        (fun err =>
           console_write (error_generation err) ;;
           text <- toString err ;;
           postMessage (error text))
  end.

(** ** checkCacheStatus and clearCache *)

(** [await cache.keys()], as the URLs of the requests. *)
Definition keys_of_cache : M (list string) :=
  outside cache_keys env_cache_keys ;;
  c <- get_cache ;;
  ret (map fst c).

(** Lines 249-253: the name and size of one cached file. *)
Definition cache_entry_info (url : string) : M (string * string) :=
  outside (cache_match url) (fun env => env_cache_match env url) ;;
  c <- get_cache ;;
  let size := match cache_lookup url c with
              | Some response => List.length (cached_data response)
              | None => 0%nat
              end in
  name <- template (pop (split "/" url)) ;;
  ret (name, megabytes size).

Definition checkCacheStatus : M unit :=
  try_catch
    (outside caches_open env_caches_open ;;
     keys <- keys_of_cache ;;
     match keys with
     | [] => postMessage (cache_status cache_empty)
     | _ =>
         cacheInfo <- Promise_all (map cache_entry_info keys) ;;
         postMessage (cache_status (cached_files cacheInfo))
     end)
    (fun _ => postMessage (cache_status cache_check_failed)).

Definition delete_entry (key : string) : M unit :=
  outside (cache_delete key) (fun env => env_cache_delete env key) ;;
  c <- get_cache ;;
  put_cache (cache_remove key c).

Definition clearCache : M unit :=
  try_catch
    (outside caches_open env_caches_open ;;
     keys <- keys_of_cache ;;
     Promise_all (map delete_entry keys) ;;
     postMessage (cache_status cache_cleared))
    (fun err =>
       postMessage (cache_status cache_clear_failed) ;;
       console_write (error_clear_cache err)).

(** ** self.onmessage *)

(** [type === tag], the comparison a [switch] makes against a string case. *)
Definition strict_equal (type : jsval) (tag : string) : bool :=
  match type with
  | JStr s => String.eqb s tag
  | _ => false
  end.

Definition onmessage (event_data : jsval) : M unit :=
  type <- member event_data "type" ;;
  data <- member event_data "data" ;;
  if strict_equal type "init_wasm" then
    success <- initializeWASM ;;
    postMessage (wasm_initialized success)
  else if strict_equal type "load_model" then
    g <- get_globals ;;
    if negb (wasmInitialized g)
    then postMessage (error wasm_not_initialized)
    else loadModel data ;; ret tt
  else if strict_equal type "stream_tokens" then generateResponse data
  else if strict_equal type "check_cache" then checkCacheStatus
  else if strict_equal type "clear_cache" then clearCache
  else console_write (warn_unknown_type type).

(** The worker after a sequence of messages, each handled to its end before
    the next.  A handler that throws leaves an unhandled rejection behind
    and the worker goes on. *)
Fixpoint run (env : Env) (events : list jsval) (w : World) : World :=
  match events with
  | [] => w
  | e :: rest => run env rest (snd (onmessage e env w))
  end.

(** ** Vocabulary of the statements *)

(** The world after some more messages, calls or console lines. *)
Definition posted (ms : list message) (w : World) : World :=
  {| globals := globals w; cache := cache w; outbox := outbox w ++ ms;
     calls := calls w; console := console w; next_id := next_id w |}.

Definition called (cs : list call) (w : World) : World :=
  {| globals := globals w; cache := cache w; outbox := outbox w;
     calls := calls w ++ cs; console := console w; next_id := next_id w |}.

Definition logged (ls : list console_line) (w : World) : World :=
  {| globals := globals w; cache := cache w; outbox := outbox w;
     calls := calls w; console := console w ++ ls; next_id := next_id w |}.

(** The test [image && image.data] of line 185, on a payload that is not
    null or undefined. *)
Definition image_supplied (data : jsval) : bool :=
  let image := prop data "image" in
  truthy (if truthy image then prop image "data" else image).

(** "The payload contains an image object whose data field is truthy." *)
Definition image_object_with_data (data : jsval) : bool :=
  match prop data "image" with
  | JObj props => truthy (lookup "data" props)
  | _ => false
  end.

(** The [token] messages the callback posts for the tokens of the engine,
    the count before being [tokenCount]. *)
Fixpoint numbered (tokens : list string) (tokenCount : nat) : list message :=
  match tokens with
  | [] => []
  | tok :: rest => token tok (Some (S tokenCount)) :: numbered rest (S tokenCount)
  end.

Definition is_stream_complete (m : message) : bool :=
  match m with
  | stream_complete => true
  | _ => false
  end.

(** The five tags of the dispatch table. *)
Definition known_tags : list string :=
  ["init_wasm"; "load_model"; "stream_tokens"; "check_cache"; "clear_cache"].

(** Sum of the lengths of some chunks. *)
Definition total_length (chunks : list Uint8Array) : nat :=
  list_sum (map (@List.length byte) chunks).

(** [loaded] after each chunk in turn. *)
Fixpoint running_totals (chunks : list Uint8Array) (loaded : nat) : list nat :=
  match chunks with
  | [] => []
  | value :: rest =>
      (loaded + List.length value)%nat :: running_totals rest (loaded + List.length value)
  end.

(** The percentages carried by the progress messages of a list, in order. *)
Definition percentage_of (m : message) : list Z :=
  match m with
  | loading_progress (downloading_percent _ progress _) => [progress]
  | _ => []
  end.

Definition percentages (ms : list message) : list Z := flat_map percentage_of ms.

(** The progress message after a chunk that brings [loaded] bytes in all. *)
Definition progress_message (description : string) (total : Z) (loaded : nat) : message :=
  loading_progress
    (downloading_percent description (percent (Z.of_nat loaded) total) (megabytes loaded)).

(** The spec's [round(bytesReceived / total * 100)] in exact arithmetic:
    the nearest integer, a half rounding up. *)
Definition exact_percent (loaded total : Z) : Z :=
  Qfloor (inject_Z loaded / inject_Z total * inject_Z 100 + (1 # 2)).

(** [p] is an integer nearest to [100 * loaded / total]: their distance is
    at most one half. *)
Definition nearest_percent (loaded total p : Z) : Prop :=
  (2 * Z.abs (p * total - 100 * loaded) <= Z.abs total)%Z.

(** The bytes received after each chunk that leaves [loaded] positive: one
    progress message is due for each. *)
Definition reported (chunks : list Uint8Array) : list nat :=
  filter (fun loaded => (0 <? loaded)%nat) (running_totals chunks 0).

(** The tenths of a megabyte (2^20 bytes) nearest to [size] bytes, the
    larger of two, and a number of tenths written with one decimal. *)
Definition tenths_of_MB (size : nat) : Z := ((10 * Z.of_nat size + 524288) / 1048576)%Z.

Definition one_decimal (tenths : Z) : string :=
  string_of_Z (tenths / 10) ++ "." ++ string_of_Z (tenths mod 10).

(** Failures on which [.toString()] cannot be called: undefined, null, and
    an object with a property of its own named toString. *)
Definition lacks_toString (e : js_error) : bool :=
  match e with
  | Value JUndefined | Value JNull => true
  | Value (JObj props) => existsb (fun p => String.eqb (fst p) "toString") props
  | _ => false
  end.

(** Failures the [catch] of lines 221-226 cannot log: [streamError?.toString()]
    leaves undefined and null alone and throws on an object with a property
    of its own named toString. *)
Definition breaks_the_log (failure : option js_error) : bool :=
  match failure with
  | Some (Value (JObj props)) => existsb (fun p => String.eqb (fst p) "toString") props
  | _ => false
  end.

(** How the [try] block of lines 216-220 ends for a given prompt: with the
    answer of [get_response_stream] when the prompt is a string, and with
    the TypeError of [prompt.substring] when it is anything else. *)
Definition stream_outcome (env : Env) (agent : PhiAgentWrapper) (prompt : jsval)
  : list string * option js_error :=
  match prompt with
  | JStr text => env_get_response_stream env agent text
  | _ => ([], Some (TypeError "prompt.substring is not a function"))
  end.

(** The agent handle wraps the model handle. *)
Definition paired (g : Globals) : bool :=
  match currentModel g, currentAgent g with
  | Some m, Some a => (model_id (agent_model a) =? model_id m)%nat
  | _, _ => false
  end.

(** What [downloadFile] sees in the cache: a stored response that is ok. *)
Definition cache_hit (url : string) (w : World) : bool :=
  match cache_lookup url (cache w) with
  | Some cachedResponse => cached_ok cachedResponse
  | None => false
  end.

(** The total that line 65 parses from the response headers. *)
Definition advertised_total (response : Response) : option Z :=
  parseInt (match content_length response with Some s => s | None => "null" end).

(** The progress messages of a download, chunk after chunk. *)
Definition progress_after (description : string) (total : option Z) (loaded : nat)
  : list message :=
  match total with
  | Some t =>
      if negb (t =? 0)%Z && (0 <? loaded)%nat then [progress_message description t loaded] else []
  | None => []
  end.

Definition progress_messages (description : string) (total : option Z)
           (incoming : list Uint8Array) (loaded : nat) : list message :=
  flat_map (progress_after description total) (running_totals incoming loaded).

(** How a download after a cache miss completes, read off the answer of
    the network alone. *)
Definition download_outcome (env : Env) (url : string) : completion Uint8Array :=
  match env_fetch env url with
  | inl e => Throw e
  | inr response =>
      if negb (ok response)
      then Throw (HttpError (status response) (statusText response) url)
      else
        match body response with
        | None => Throw (TypeError "Cannot read properties of null (reading 'getReader')")
        | Some (_, Some e) => Throw e
        | Some (chunks, None) => Normal (List.concat chunks)
        end
  end.

(** The world in which the download of lines 48-116 starts, when the cache
    holds no usable response for [url]. *)
Definition before_download (url description : string) (w : World) : World :=
  match cache_lookup url (cache w) with
  | None => called [caches_open; cache_match url] w
  | Some _ =>
      set_cache (cache_remove url (cache w))
        (called [cache_delete url]
           (logged [warn_cached_not_ok url]
              (posted [loading_progress (loading_from_cache description)]
                 (called [caches_open; cache_match url] w))))
  end.

(** The bytes of [data] from [offset] on, [len] of them. *)
Definition slice (data : Uint8Array) (offset len : nat) : Uint8Array :=
  firstn len (skipn offset data).

(** An environment whose cache writes answer [answer]. *)
Definition with_cache_put (answer : string -> option js_error) (env : Env) : Env :=
  {| env_caches_open := env_caches_open env;
     env_cache_match := env_cache_match env;
     env_cache_delete := env_cache_delete env;
     env_cache_put := answer;
     env_cache_keys := env_cache_keys env;
     env_fetch := env_fetch env;
     env_init := env_init env;
     env_new_PhiModel := env_new_PhiModel env;
     env_from_phi_model := env_from_phi_model env;
     env_get_response_stream := env_get_response_stream env |}.

(** An environment whose engine answers [answer] to [from_phi_model]. *)
Definition with_from_phi_model (answer : PhiModel -> option js_error) (env : Env) : Env :=
  {| env_caches_open := env_caches_open env;
     env_cache_match := env_cache_match env;
     env_cache_delete := env_cache_delete env;
     env_cache_put := env_cache_put env;
     env_cache_keys := env_cache_keys env;
     env_fetch := env_fetch env;
     env_init := env_init env;
     env_new_PhiModel := env_new_PhiModel env;
     env_from_phi_model := answer;
     env_get_response_stream := env_get_response_stream env |}.

(** The variables that hold handles, and the next handle number. *)
Definition handles_of (w : World) : Globals * nat := (globals w, next_id w).

(** A computation that leaves them alone. *)
Definition keeps_handles {A} (m : M A) : Prop :=
  forall env w, handles_of (snd (m env w)) = handles_of w.

(** A small environment for the examples: three one-chunk files behind
    "https://x/", every other URL answers 404; the engine echoes the words
    of the prompt. *)
Definition file_response (length_header : option string) (chunks : list Uint8Array) : Response :=
  {| status := 200; statusText := "OK"; content_length := length_header;
     body := Some (chunks, None) |}.

Definition not_found : Response :=
  {| status := 404; statusText := "Not Found"; content_length := None; body := None |}.

Definition example_env : Env :=
  {| env_caches_open := None;
     env_cache_match := fun _ => None;
     env_cache_delete := fun _ => None;
     env_cache_put := fun _ => None;
     env_cache_keys := None;
     env_fetch := fun url =>
       if String.eqb url "https://x/m.bin"
       then inr (file_response (Some "5") [[x01; x02]; [x03; x04; x05]])
       else if String.eqb url "https://x/t.bin" then inr (file_response None [[x0a]])
       else if String.eqb url "https://x/c.json" then inr (file_response (Some "1") [[x0b]])
       else inr not_found;
     env_init := None;
     env_new_PhiModel := fun _ _ _ _ => None;
     env_from_phi_model := fun _ => None;
     env_get_response_stream := fun _ prompt => (split " " prompt, None) |}.

Definition example_config : jsval :=
  JObj [("base_url", JStr "https://x/"); ("model", JStr "m.bin");
        ("tokenizer", JStr "t.bin"); ("config", JStr "c.json");
        ("quantized", JBool false)].

Definition event (type : string) (data : jsval) : jsval :=
  JObj [("type", JStr type); ("data", data)].

(** The example environment with an engine that refuses to wrap a model. *)
Definition refusing_env : Env :=
  with_from_phi_model (fun _ => Some (Thrown "agent creation failed")) example_env.

(** An environment whose engine answers [answer] to [get_response_stream]. *)
Definition with_get_response_stream
           (answer : PhiAgentWrapper -> string -> list string * option js_error) (env : Env)
  : Env :=
  {| env_caches_open := env_caches_open env;
     env_cache_match := env_cache_match env;
     env_cache_delete := env_cache_delete env;
     env_cache_put := env_cache_put env;
     env_cache_keys := env_cache_keys env;
     env_fetch := env_fetch env;
     env_init := env_init env;
     env_new_PhiModel := env_new_PhiModel env;
     env_from_phi_model := env_from_phi_model env;
     env_get_response_stream := answer |}.

(** An engine that delivers the words of the prompt and then fails with an
    Error object, and one that fails with an object whose [toString] is
    null. *)
Definition failing_env : Env :=
  with_get_response_stream
    (fun _ prompt => (split " " prompt, Some (Thrown "generation failed"))) example_env.


(** The handles that loading [example_config] creates in a new worker. *)
Definition example_model : PhiModel :=
  {| model_id := 0; model_weights := [x01; x02; x03; x04; x05];
     model_tokenizer := [x0a]; model_config := [x0b]; model_quantized := JBool false |}.

Definition example_agent : PhiAgentWrapper :=
  {| agent_id := 1; agent_model := example_model |}.

(** The worker after [init_wasm] and one [load_model]. *)
Definition loaded_world : World :=
  run example_env [event "init_wasm" JUndefined; event "load_model" example_config]
      (initial_world []).

(** ** Vocabulary of the further properties *)

Definition is_loading_progress (m : message) : bool :=
  match m with
  | loading_progress _ => true
  | _ => false
  end.

Definition is_cache_status (m : message) : bool :=
  match m with
  | cache_status _ => true
  | _ => false
  end.

Definition is_fetch (c : call) : bool :=
  match c with
  | fetch _ => true
  | _ => false
  end.

Definition is_cache_put (c : call) : bool :=
  match c with
  | cache_put _ _ => true
  | _ => false
  end.

(** Calls to the WASM engine. *)
Definition is_engine_call (c : call) : bool :=
  match c with
  | init | new_PhiModel _ _ _ _ | from_phi_model _ | get_response_stream _ _ => true
  | _ => false
  end.

(** Calls to the Cache Storage API or to the network. *)
Definition is_storage_call (c : call) : bool := negb (is_engine_call c).

(** The world went on by posting messages that all satisfy [pm], by making
    calls that all satisfy [pc] and by writing console lines; the variables
    and the handle counter are as before (the cache may have changed). *)
Definition went_on (pm : message -> bool) (pc : call -> bool) (w w' : World) : Prop :=
  globals w' = globals w /\
  next_id w' = next_id w /\
  (exists ms, outbox w' = outbox w ++ ms /\ forallb pm ms = true) /\
  (exists cs, calls w' = calls w ++ cs /\ forallb pc cs = true) /\
  (exists ls, console w' = console w ++ ls).

(** A computation all of whose runs satisfy a relation between the world
    before and the world after. *)
Definition respects (R : World -> World -> Prop) {A} (m : M A) : Prop :=
  forall env w, R w (snd (m env w)).

(** Environments that differ from a given one in one answer. *)
Definition with_cache_delete (answer : string -> option js_error) (env : Env) : Env :=
  {| env_caches_open := env_caches_open env;
     env_cache_match := env_cache_match env;
     env_cache_delete := answer;
     env_cache_put := env_cache_put env;
     env_cache_keys := env_cache_keys env;
     env_fetch := env_fetch env;
     env_init := env_init env;
     env_new_PhiModel := env_new_PhiModel env;
     env_from_phi_model := env_from_phi_model env;
     env_get_response_stream := env_get_response_stream env |}.

Definition with_fetch (answer : string -> js_error + Response) (env : Env) : Env :=
  {| env_caches_open := env_caches_open env;
     env_cache_match := env_cache_match env;
     env_cache_delete := env_cache_delete env;
     env_cache_put := env_cache_put env;
     env_cache_keys := env_cache_keys env;
     env_fetch := answer;
     env_init := env_init env;
     env_new_PhiModel := env_new_PhiModel env;
     env_from_phi_model := env_from_phi_model env;
     env_get_response_stream := env_get_response_stream env |}.

Definition with_init (answer : option js_error) (env : Env) : Env :=
  {| env_caches_open := env_caches_open env;
     env_cache_match := env_cache_match env;
     env_cache_delete := env_cache_delete env;
     env_cache_put := env_cache_put env;
     env_cache_keys := env_cache_keys env;
     env_fetch := env_fetch env;
     env_init := answer;
     env_new_PhiModel := env_new_PhiModel env;
     env_from_phi_model := env_from_phi_model env;
     env_get_response_stream := env_get_response_stream env |}.

(** A cache whose only entry is a response that is not ok. *)
Definition stale_world : World :=
  initial_world [("https://x/m.bin", {| cached_ok := false; cached_data := [x00] |})].

Definition is_token (m : message) : bool :=
  match m with
  | token _ _ => true
  | _ => false
  end.

(** The message that ends a generation session. *)
Definition is_terminal (m : message) : bool :=
  match m with
  | stream_complete | error _ => true
  | _ => false
  end.

(** The line [checkCacheStatus] reports for a cached URL: the last segment
    of the URL, and the size of what the cache answers for it in megabytes
    with one decimal. *)
Definition cache_line (c : list (string * CachedResponse)) (url : string) : string * string :=
  (last (split "/" url) "",
   one_decimal (tenths_of_MB match cache_lookup url c with
                             | Some response => List.length (cached_data response)
                             | None => 0%nat
                             end)).

(** The same line as the worker computes it. *)
Definition cache_info (c : list (string * CachedResponse)) (url : string) : string * string :=
  (last (split "/" url) "",
   megabytes match cache_lookup url c with
             | Some response => List.length (cached_data response)
             | None => 0%nat
             end).

(** Every entry of the cache is shorter than 2^53 bytes, as every
    ArrayBuffer is. *)
Definition sizes_are_safe (c : list (string * CachedResponse)) : Prop :=
  Forall (fun entry => (Z.of_nat (List.length (cached_data (snd entry))) < 2 ^ 53)%Z) c.

(** The three URLs [loadModel] builds from a configuration whose fields can
    be read and rendered by the template literals of lines 131-133. *)
Definition urls_of (modelConfig : jsval) : option (string * string * string) :=
  if nullish modelConfig then None
  else
    match to_string (prop modelConfig "base_url"), to_string (prop modelConfig "model"),
          to_string (prop modelConfig "tokenizer"), to_string (prop modelConfig "config") with
    | Some base, Some model, Some tokenizer, Some config =>
        Some (base ++ model, base ++ tokenizer, base ++ config)%string
    | _, _, _, _ => None
    end.

(** What the [catch] of lines 166-170 makes of an error caught in a world:
    it logs the error, then reports it if [error.toString()] can be called
    and is itself thrown out of otherwise. *)
Definition load_failed (e : js_error) (w : World) : completion bool * World :=
  if lacks_toString e
  then (Throw (TypeError "error.toString is not a function"), logged [error_load_failed e] w)
  else (Normal false, posted [error (error_toString e)] (logged [error_load_failed e] w)).

(** A world with other variables and another handle counter. *)
Definition with_handles (g : Globals) (n : nat) (w : World) : World :=
  {| globals := g; cache := cache w; outbox := outbox w; calls := calls w;
     console := console w; next_id := n |}.

(** The world after a session posted, called and logged. *)
Definition went (ms : list message) (cs : list call) (ls : list console_line) (w : World)
  : World :=
  {| globals := globals w; cache := cache w; outbox := outbox w ++ ms;
     calls := calls w ++ cs; console := console w ++ ls; next_id := next_id w |}.

(** A cache that holds two small files and one of 52429 bytes, just above
    a twentieth of a megabyte. *)
Definition small_cache : list (string * CachedResponse) :=
  [("https://x/t.bin", {| cached_ok := true; cached_data := [x0a; x0b; x0c] |});
   ("https://x/c.json", {| cached_ok := true; cached_data := [] |});
   ("https://x/dir/m.bin", {| cached_ok := true; cached_data := repeat x00 (N.to_nat 52429) |})].

(** Downloads that report 23 bytes out of 40, and 2 then 3 bytes out of an
    advertised total of -5. *)
Definition halfway_env : Env :=
  with_fetch (fun _ => inr (file_response (Some "40") [repeat x01 23; repeat x02 17]))
             example_env.

Definition negative_env : Env :=
  with_fetch (fun _ => inr (file_response (Some "-5") [[x01; x02]; [x03]])) example_env.

(** The entries [clearCache] cannot delete. *)
Definition undeletable (env : Env) (entry : string * CachedResponse) : bool :=
  match env_cache_delete env (fst entry) with
  | Some _ => true
  | None => false
  end.

(** The cache after [cache.delete] was called for each of [keys] in turn:
    a delete that fails removes nothing. *)
Definition remove_deletable (env : Env) (keys : list string)
           (c : list (string * CachedResponse)) : list (string * CachedResponse) :=
  fold_left (fun c key =>
               match env_cache_delete env key with
               | None => cache_remove key c
               | Some _ => c
               end) keys c.

(** The worker is in a state its own handlers can produce: an agent is
    held only together with a model, and a model only after the engine was
    initialized. *)
Definition lifecycle_ok (g : Globals) : Prop :=
  (currentAgent g <> None -> currentModel g <> None) /\
  (currentModel g <> None -> wasmInitialized g = true).

(** * Properties *)

(** ** Logs grow by concatenation *)

Lemma posted_nil w : posted [] w = w.
Proof. destruct w; unfold posted; simpl. now rewrite app_nil_r. Qed.

Lemma posted_posted ms ms' w : posted ms' (posted ms w) = posted (ms ++ ms') w.
Proof. unfold posted; simpl. now rewrite app_assoc. Qed.

Lemma postMessage_posted m env w : postMessage m env w = (Normal tt, posted [m] w).
Proof. reflexivity. Qed.

Lemma post_words_posted words env w :
  post_words words env w =
  (Normal tt, posted (map (fun word => token (word ++ " ") None) words) w).
Proof.
  revert w; induction words as [|word rest IH]; intro w; simpl.
  - now rewrite posted_nil.
  - unfold bind. rewrite postMessage_posted, IH, posted_posted. reflexivity.
Qed.

Lemma deliver_posted tokens env : forall n w,
  deliver tokens n env w = (Normal (n + List.length tokens)%nat, posted (numbered tokens n) w).
Proof.
  induction tokens as [|tok rest IH]; intros n w; simpl.
  - now rewrite posted_nil, Nat.add_0_r.
  - unfold bind, tokenCallback, bind. rewrite postMessage_posted. unfold ret.
    rewrite IH, posted_posted. simpl. do 2 f_equal. lia.
Qed.


Lemma image_supplied_nullish data : image_supplied data = true -> nullish data = false.
Proof.
  destruct data; try reflexivity; unfold image_supplied; simpl; discriminate.
Qed.

Lemma truthy_not_nullish v : truthy v = true -> nullish v = false.
Proof. destruct v; simpl; congruence. Qed.

(** *** Calling [toString] on what was thrown *)

Lemma own_toString props :
  existsb (fun p : string * jsval => String.eqb "toString" (fst p)) props
  = existsb (fun p => String.eqb (fst p) "toString") props.
Proof.
  induction props as [|p rest IH]; [reflexivity|].
  cbn [existsb]. now rewrite IH, String.eqb_sym.
Qed.

Lemma has_toString_lacks e : has_toString e = negb (lacks_toString e).
Proof.
  destruct e as [ | | | |v]; try reflexivity.
  destruct v; try reflexivity. simpl. now rewrite own_toString.
Qed.

Lemma toString_run e env w :
  toString e env w
  = if lacks_toString e
    then (Throw (TypeError "error.toString is not a function"), w)
    else (Normal (error_toString e), w).
Proof.
  unfold toString. rewrite has_toString_lacks. destruct (lacks_toString e); reflexivity.
Qed.

Lemma optional_toString_run e env w :
  optional_toString e env w
  = if breaks_the_log (Some e)
    then (Throw (TypeError "error.toString is not a function"), w)
    else (Normal tt, w).
Proof.
  destruct e as [ | | | |v]; try reflexivity.
  destruct v; try reflexivity.
  unfold optional_toString, bind. rewrite toString_run. simpl.
  destruct (existsb _ props); reflexivity.
Qed.

(** The Error objects the worker itself raises can be turned into text. *)
Lemma TypeError_toString what env w :
  toString (TypeError what) env w = (Normal (error_toString (TypeError what)), w).
Proof. reflexivity. Qed.

(** *** The ways through [generateResponse] *)

Lemma try_catch_ext {A} (m m' : M A) h env w :
  m env w = m' env w -> try_catch m h env w = try_catch m' h env w.
Proof. unfold try_catch. now intros ->. Qed.

Lemma went_posted ms w : went ms [] [] w = posted ms w.
Proof. unfold went, posted. now rewrite !app_nil_r. Qed.

Lemma generateResponse_no_agent env w data :
  currentAgent (globals w) = None ->
  generateResponse data env w = (Normal tt, posted [error no_agent_loaded] w).
Proof.
  intro Hagent. unfold generateResponse, bind, get_globals. rewrite Hagent. reflexivity.
Qed.

(** A payload that cannot be destructured, or a prompt that the log line
    of line 182 cannot render: the outer [catch] reports the TypeError. *)
Lemma generateResponse_nullish env w agent data :
  currentAgent (globals w) = Some agent ->
  nullish data = true ->
  exists what,
    generateResponse data env w
    = (Normal tt,
       went [error (error_toString (TypeError what))] [] [error_generation (TypeError what)] w).
Proof.
  intros Hagent Hdata. eexists.
  unfold generateResponse.
  cbv [bind get_globals try_catch member template ret throw console_write toString
       postMessage has_toString].
  rewrite Hagent, Hdata. unfold went. rewrite app_nil_r. reflexivity.
Qed.

Lemma generateResponse_unprintable env w agent data :
  currentAgent (globals w) = Some agent ->
  nullish data = false ->
  to_string (prop data "prompt") = None ->
  exists what,
    generateResponse data env w
    = (Normal tt,
       went [error (error_toString (TypeError what))] [] [error_generation (TypeError what)] w).
Proof.
  intros Hagent Hdata Hline. eexists.
  unfold generateResponse.
  cbv [bind get_globals try_catch member template ret throw console_write toString
       postMessage has_toString].
  rewrite Hagent, Hdata, Hline. unfold went. rewrite app_nil_r. reflexivity.
Qed.

(** The first lines of [generateResponse], up to the test of line 185. *)
Lemma generateResponse_unfold env w agent data :
  currentAgent (globals w) = Some agent ->
  nullish data = false ->
  to_string (prop data "prompt") <> None ->
  generateResponse data env w =
  try_catch
    (if image_supplied data
     then post_words (split " " apology) ;; postMessage stream_complete
     else
       try_catch
         (text <- match prop data "prompt" with
                  | JStr s => ret s
                  | _ => throw (TypeError "prompt.substring is not a function")
                  end ;;
          g' <- get_globals ;;
          match currentAgent g' with
          | Some agent => Agent_get_response_stream agent text
          | None => throw (TypeError "Cannot read properties of null (reading 'get_response_stream')")
          end)
         (fun streamError => optional_toString streamError) ;;
       postMessage stream_complete)
    (fun err =>
       console_write (error_generation err) ;;
       text <- toString err ;;
       postMessage (error text)) env w.
Proof.
  intros Hagent Hdata Hline.
  destruct (to_string (prop data "prompt")) as [line|] eqn:Hprompt; [clear Hline|congruence].
  unfold generateResponse at 1. unfold bind at 1, get_globals at 1. rewrite Hagent.
  apply try_catch_ext.
  unfold bind at 1, member at 1. rewrite Hdata. unfold ret at 1.
  unfold bind at 1, member at 1. rewrite Hdata. unfold ret at 1.
  unfold bind at 1, template at 1. rewrite Hprompt. unfold ret at 1.
  unfold bind at 1. unfold image_supplied.
  destruct (truthy (prop data "image")) eqn:Himg.
  - unfold member at 1. rewrite (truthy_not_nullish _ Himg). unfold ret at 1. reflexivity.
  - unfold ret at 1. reflexivity.
Qed.

(** The text path of [generateResponse], whatever the engine answers: the
    tokens, then [stream_complete], or [error] when the failure cannot be
    logged by the inner [catch]. *)
Lemma generateResponse_text env w agent data :
  currentAgent (globals w) = Some agent ->
  nullish data = false ->
  to_string (prop data "prompt") <> None ->
  image_supplied data = false ->
  generateResponse data env w =
  (Normal tt,
   let tokens := numbered (fst (stream_outcome env agent (prop data "prompt"))) 0 in
   let cs := match prop data "prompt" with
             | JStr text => [get_response_stream agent text]
             | _ => []
             end in
   if breaks_the_log (snd (stream_outcome env agent (prop data "prompt")))
   then went (tokens ++ [error (error_toString (TypeError "error.toString is not a function"))])
             cs [error_generation (TypeError "error.toString is not a function")] w
   else went (tokens ++ [stream_complete]) cs [] w).
Proof.
  intros Hagent Hdata Hline Himage.
  rewrite (generateResponse_unfold env w agent data Hagent Hdata Hline), Himage.
  unfold stream_outcome.
  destruct (prop data "prompt") as [| |b|z| |text|props];
    try (unfold try_catch, bind, throw, optional_toString, toString, ret, postMessage, went;
         simpl; rewrite !app_nil_r; reflexivity).
  unfold try_catch at 1 2. unfold bind at 1 2 3. unfold ret at 1, get_globals. rewrite Hagent.
  unfold Agent_get_response_stream, bind, record_call.
  destruct (env_get_response_stream env agent text) as [tokens failure].
  rewrite deliver_posted. cbn [fst snd].
  destruct failure as [e|].
  - unfold throw. rewrite optional_toString_run.
    destruct (breaks_the_log (Some e)).
    + unfold console_write, toString, postMessage, posted, went. simpl.
      rewrite <- app_assoc. reflexivity.
    + unfold postMessage, posted, went. simpl. rewrite <- app_assoc, app_nil_r. reflexivity.
  - unfold ret, postMessage, posted, went. simpl. rewrite <- app_assoc, app_nil_r. reflexivity.
Qed.

(** The image path of [generateResponse]. *)
Lemma generateResponse_image env w agent data :
  currentAgent (globals w) = Some agent ->
  to_string (prop data "prompt") <> None ->
  image_supplied data = true ->
  generateResponse data env w =
  (Normal tt,
   posted (map (fun word => token (word ++ " ") None) (split " " apology) ++ [stream_complete]) w).
Proof.
  intros Hagent Hline Himage.
  rewrite (generateResponse_unfold env w agent data Hagent (image_supplied_nullish _ Himage) Hline),
    Himage.
  unfold try_catch, bind. rewrite post_words_posted, postMessage_posted, posted_posted.
  reflexivity.
Qed.

Lemma image_supplied_iff_object data : image_supplied data = image_object_with_data data.
Proof.
  unfold image_supplied, image_object_with_data.
  destruct (prop data "image") as [| |[|]|z| |s|props]; try reflexivity.
  - simpl. destruct (negb (z =? 0)%Z) eqn:E; simpl; rewrite ?E; reflexivity.
  - simpl. destruct (negb (s =? "")%string) eqn:E; simpl; rewrite ?E; reflexivity.
Qed.

Lemma strict_equal_false type tag : type <> JStr tag -> strict_equal type tag = false.
Proof.
  destruct type; simpl; try reflexivity.
  intro H. apply String.eqb_neq. congruence.
Qed.




(** The engine of the witness fails, and its failure is swallowed. *)
Example failure_is_swallowed :
  env_get_response_stream failing_env example_agent "hello world"
    = (["hello"; "world"], Some (Thrown "generation failed")) /\
  outbox (snd (generateResponse (JObj [("prompt", JStr "hello world")]) failing_env loaded_world))
    = outbox loaded_world
        ++ [token "hello" (Some 1%nat); token "world" (Some 2%nat); stream_complete].
Proof. split; [reflexivity|vm_compute; reflexivity]. Qed.

(** C2, as stated, fails: the worker posts each word followed by a space.
    For a request with an image on a loaded worker, the [token] messages are
    not the bare words of the apology sentence. *)
Lemma image_tokens_are_not_the_bare_words :
  currentAgent (globals loaded_world) = Some example_agent /\
  image_supplied (JObj [("prompt", JStr "what is this?");
                        ("image", JObj [("data", JStr "iVBORw0KGgo=")])]) = true /\
  outbox (snd (generateResponse
                 (JObj [("prompt", JStr "what is this?");
                        ("image", JObj [("data", JStr "iVBORw0KGgo=")])])
                 example_env loaded_world))
  <> outbox loaded_world
       ++ map (fun word => token word None) (split " " apology) ++ [stream_complete].
Proof.
  split; [reflexivity|split; [reflexivity|]].
  intro H. vm_compute in H. discriminate H.
Qed.

(** C2, amended: for every generation request with an agent loaded, a
    prompt that the log line of line 182 can render (every string is one)
    and an image supplied, the handler returns normally and posts one
    [token] message per word of the apology sentence split on spaces, in
    sentence order, each carrying the word followed by one space, then one
    [stream_complete]; it posts nothing else and calls neither the engine
    nor any other outside party. *)
Theorem image_fallback_tokens (env : Env) (w : World) (agent : PhiAgentWrapper) (data : jsval) :
  currentAgent (globals w) = Some agent ->
  to_string (prop data "prompt") <> None ->
  image_supplied data = true ->
  fst (generateResponse data env w) = Normal tt /\
  outbox (snd (generateResponse data env w))
    = outbox w
        ++ map (fun word => token (word ++ " ") None) (split " " apology)
        ++ [stream_complete] /\
  List.length (filter is_stream_complete
                 (map (fun word => token (word ++ " ") None) (split " " apology)
                  ++ [stream_complete])) = 1%nat /\
  calls (snd (generateResponse data env w)) = calls w.
Proof.
  intros Hagent Hline Himage.
  rewrite (generateResponse_image env w agent data Hagent Hline Himage).
  repeat split; reflexivity.
Qed.

Lemma image_fallback_tokens_witness :
  fst (generateResponse
         (JObj [("prompt", JStr "what is this?");
                ("image", JObj [("data", JStr "iVBORw0KGgo=")])])
         example_env loaded_world) = Normal tt /\
  outbox (snd (generateResponse
                 (JObj [("prompt", JStr "what is this?");
                        ("image", JObj [("data", JStr "iVBORw0KGgo=")])])
                 example_env loaded_world))
    = outbox loaded_world
        ++ map (fun word => token (word ++ " ") None) (split " " apology)
        ++ [stream_complete] /\
  List.length (filter is_stream_complete
                 (map (fun word => token (word ++ " ") None) (split " " apology)
                  ++ [stream_complete])) = 1%nat /\
  calls (snd (generateResponse
                (JObj [("prompt", JStr "what is this?");
                       ("image", JObj [("data", JStr "iVBORw0KGgo=")])])
                example_env loaded_world)) = calls loaded_world.
Proof.
  apply (image_fallback_tokens example_env loaded_world example_agent
           (JObj [("prompt", JStr "what is this?");
                  ("image", JObj [("data", JStr "iVBORw0KGgo=")])]));
    try reflexivity; simpl; discriminate.
Defined.

(** C3: a [load_model] command received while [wasmInitialized] is false is
    answered by the single message [error 'WASM not initialized']; the three
    variables, the cache and the log of calls to the cache, the network and
    the engine are unchanged, and [loadModel] is not entered (it would post
    'Starting Phi model load...' first). *)
Theorem load_model_before_init (env : Env) (w : World) (event_data : jsval) :
  prop event_data "type" = JStr "load_model" ->
  wasmInitialized (globals w) = false ->
  fst (onmessage event_data env w) = Normal tt /\
  outbox (snd (onmessage event_data env w)) = outbox w ++ [error wasm_not_initialized] /\
  globals (snd (onmessage event_data env w)) = globals w /\
  cache (snd (onmessage event_data env w)) = cache w /\
  calls (snd (onmessage event_data env w)) = calls w.
Proof.
  intros Htype Hinit.
  destruct event_data as [| |b|z| |s|props]; try discriminate Htype.
  unfold onmessage, bind, member. cbn [nullish ret].
  rewrite Htype. cbn [strict_equal String.eqb Ascii.eqb Bool.eqb].
  unfold get_globals. rewrite Hinit. repeat split; reflexivity.
Qed.

Lemma load_model_before_init_witness :
  fst (onmessage (event "load_model" example_config) example_env (initial_world []))
    = Normal tt /\
  outbox (snd (onmessage (event "load_model" example_config) example_env (initial_world [])))
    = outbox (initial_world []) ++ [error wasm_not_initialized] /\
  globals (snd (onmessage (event "load_model" example_config) example_env (initial_world [])))
    = globals (initial_world []) /\
  cache (snd (onmessage (event "load_model" example_config) example_env (initial_world [])))
    = cache (initial_world []) /\
  calls (snd (onmessage (event "load_model" example_config) example_env (initial_world [])))
    = calls (initial_world []).
Proof.
  exact (load_model_before_init example_env (initial_world [])
           (event "load_model" example_config) eq_refl eq_refl).
Defined.

(** C9: an inbound message whose [type] is none of the five tags makes the
    router post nothing; the variables, the cache and the log of outside
    calls are unchanged as well, and the only trace is one [console.warn]
    line naming the type (a message that is null or undefined has no [type]
    to read: the handler throws before it can log). *)
Theorem unknown_tag_posts_nothing (env : Env) (w : World) (event_data : jsval) :
  (forall tag, In tag known_tags -> prop event_data "type" <> JStr tag) ->
  outbox (snd (onmessage event_data env w)) = outbox w /\
  globals (snd (onmessage event_data env w)) = globals w /\
  cache (snd (onmessage event_data env w)) = cache w /\
  calls (snd (onmessage event_data env w)) = calls w /\
  (nullish event_data = false ->
   fst (onmessage event_data env w) = Normal tt /\
   console (snd (onmessage event_data env w))
     = console w ++ [warn_unknown_type (prop event_data "type")]).
Proof.
  intro Hunknown.
  unfold onmessage, bind, member.
  destruct (nullish event_data) eqn:Hnull.
  - repeat split; try reflexivity; congruence.
  - cbn [ret].
    rewrite !strict_equal_false by (apply Hunknown; simpl; tauto).
    repeat split; reflexivity.
Qed.

Lemma unknown_tag_posts_nothing_witness :
  outbox (snd (onmessage (event "reset" JNull) example_env loaded_world))
    = outbox loaded_world /\
  globals (snd (onmessage (event "reset" JNull) example_env loaded_world))
    = globals loaded_world /\
  cache (snd (onmessage (event "reset" JNull) example_env loaded_world))
    = cache loaded_world /\
  calls (snd (onmessage (event "reset" JNull) example_env loaded_world))
    = calls loaded_world /\
  (nullish (event "reset" JNull) = false ->
   fst (onmessage (event "reset" JNull) example_env loaded_world) = Normal tt /\
   console (snd (onmessage (event "reset" JNull) example_env loaded_world))
     = console loaded_world ++ [warn_unknown_type (prop (event "reset" JNull) "type")]).
Proof.
  apply (unknown_tag_posts_nothing example_env loaded_world (event "reset" JNull)).
  intros tag Hin. simpl in Hin.
  destruct Hin as [<-|[<-|[<-|[<-|[<-|[]]]]]]; discriminate.
Defined.

(** C10: with an agent loaded and a payload whose [prompt] is a string, the
    image path is taken exactly when the payload holds an image object whose
    [data] is truthy; then the engine is not called.  In every other case
    (image absent, null, not an object, or without a truthy [data]) the
    prompt is handed to [get_response_stream] of the current agent, once;
    the tokens of the engine are followed by [stream_complete], or by
    [error] when the engine failed with a value that line 225 cannot log. *)
Theorem image_path_only_with_image_data (env : Env) (w : World) (agent : PhiAgentWrapper)
        (data : jsval) (text : string) :
  currentAgent (globals w) = Some agent ->
  prop data "prompt" = JStr text ->
  (image_object_with_data data = true ->
   calls (snd (generateResponse data env w)) = calls w /\
   outbox (snd (generateResponse data env w))
     = outbox w
         ++ map (fun word => token (word ++ " ") None) (split " " apology)
         ++ [stream_complete]) /\
  (image_object_with_data data = false ->
   calls (snd (generateResponse data env w)) = calls w ++ [get_response_stream agent text] /\
   exists what,
     outbox (snd (generateResponse data env w))
     = outbox w
         ++ numbered (fst (env_get_response_stream env agent text)) 0
         ++ [if breaks_the_log (snd (env_get_response_stream env agent text))
             then error (error_toString (TypeError what))
             else stream_complete]).
Proof.
  intros Hagent Hprompt.
  assert (Hdata : nullish data = false)
    by (destruct data; try discriminate Hprompt; reflexivity).
  assert (Hline : to_string (prop data "prompt") <> None)
    by (intro H; rewrite Hprompt in H; discriminate H).
  rewrite <- image_supplied_iff_object.
  split; intro Himage.
  - rewrite (generateResponse_image env w agent data Hagent Hline Himage).
    split; reflexivity.
  - rewrite (generateResponse_text env w agent data Hagent Hdata Hline Himage), Hprompt.
    cbv zeta. unfold stream_outcome.
    destruct (breaks_the_log (snd (env_get_response_stream env agent text)));
      (split; [reflexivity|]); [eexists; reflexivity|exists ""; reflexivity].
Qed.

Lemma image_path_only_with_image_data_witness :
  (image_object_with_data (JObj [("prompt", JStr "hello world"); ("image", JObj [])]) = true ->
   calls (snd (generateResponse (JObj [("prompt", JStr "hello world"); ("image", JObj [])])
                 example_env loaded_world)) = calls loaded_world /\
   outbox (snd (generateResponse (JObj [("prompt", JStr "hello world"); ("image", JObj [])])
                  example_env loaded_world))
     = outbox loaded_world
         ++ map (fun word => token (word ++ " ") None) (split " " apology)
         ++ [stream_complete]) /\
  (image_object_with_data (JObj [("prompt", JStr "hello world"); ("image", JObj [])]) = false ->
   calls (snd (generateResponse (JObj [("prompt", JStr "hello world"); ("image", JObj [])])
                 example_env loaded_world))
     = calls loaded_world ++ [get_response_stream example_agent "hello world"] /\
   exists what,
     outbox (snd (generateResponse (JObj [("prompt", JStr "hello world"); ("image", JObj [])])
                    example_env loaded_world))
     = outbox loaded_world
         ++ numbered (fst (env_get_response_stream example_env example_agent "hello world")) 0
         ++ [if breaks_the_log (snd (env_get_response_stream example_env example_agent
                                       "hello world"))
             then error (error_toString (TypeError what))
             else stream_complete]).
Proof.
  exact (image_path_only_with_image_data example_env loaded_world example_agent
           (JObj [("prompt", JStr "hello world"); ("image", JObj [])]) "hello world"
           eq_refl eq_refl).
Defined.

(** ** Rounding to binary64 is monotone *)

Section DoubleFacts.
Import Double.
Local Open Scope Q_scope.

Lemma pow2_pos e : 0 < pow2 e.
Proof. apply Qpower_0_lt. reflexivity. Qed.

Lemma pow2_add a b : pow2 (a + b) == pow2 a * pow2 b.
Proof. apply Qpower_plus. discriminate. Qed.

Lemma pow2_le a b : (a <= b)%Z -> pow2 a <= pow2 b.
Proof. intro H. apply Qpower_le_compat_l; [exact H|discriminate]. Qed.

Lemma pow2_lt a b : (a < b)%Z -> pow2 a < pow2 b.
Proof. intro H. apply Qpower_lt_compat_l; [exact H|reflexivity]. Qed.

Lemma pow2_Z a : (0 <= a)%Z -> pow2 a == inject_Z (2 ^ a).
Proof. intro H. symmetry. apply (Zpower_Qpower 2 a H). Qed.

(** Dividing by a power of two is multiplying by the opposite power. *)
Lemma div_pow2 x e : x / pow2 e == x * pow2 (- e).
Proof. unfold Qdiv, pow2. now rewrite Qpower_opp. Qed.

Lemma pow2_cancel a b : pow2 a * pow2 (b - a) == pow2 b.
Proof. rewrite <- pow2_add. now replace (a + (b - a))%Z with b by ring. Qed.

(** *** The binade of a positive rational *)

Lemma flog2_spec x : 0 < x -> pow2 (flog2 x) <= x /\ x < pow2 (flog2 x + 1).
Proof.
  intro Hx. destruct x as [n d]. unfold flog2. cbn [Qnum Qden].
  assert (Hn : (0 < n)%Z) by (unfold Qlt in Hx; simpl in Hx; lia).
  set (a := Z.log2 n). set (b := Z.log2 (Z.pos d)).
  assert (Ha : (0 <= a)%Z) by apply Z.log2_nonneg.
  assert (Hb : (0 <= b)%Z) by apply Z.log2_nonneg.
  destruct (Z.log2_spec n Hn) as [Ha1 Ha2]. fold a in Ha1, Ha2.
  destruct (Z.log2_spec (Z.pos d) eq_refl) as [Hb1 Hb2]. fold b in Hb1, Hb2.
  assert (Hnd : n # d == inject_Z n / inject_Z (Z.pos d)) by apply Qmake_Qdiv.
  assert (Hdpos : 0 < inject_Z (Z.pos d)) by reflexivity.
  (* bounds on n and d, as rationals *)
  assert (Hn1 : pow2 a <= inject_Z n)
    by (rewrite pow2_Z by exact Ha; rewrite <- Zle_Qle; exact Ha1).
  assert (Hn2 : inject_Z n < pow2 (a + 1))
    by (rewrite pow2_Z by lia; rewrite <- Zlt_Qlt; replace (a + 1)%Z with (Z.succ a) by lia; exact Ha2).
  assert (Hd1 : pow2 b <= inject_Z (Z.pos d))
    by (rewrite pow2_Z by exact Hb; rewrite <- Zle_Qle; exact Hb1).
  assert (Hd2 : inject_Z (Z.pos d) < pow2 (b + 1))
    by (rewrite pow2_Z by lia; rewrite <- Zlt_Qlt; replace (b + 1)%Z with (Z.succ b) by lia; exact Hb2).
  (* n/d lies strictly between 2^(a-b-1) and 2^(a-b+1) *)
  assert (Hlow : pow2 (a - b - 1) < n # d).
  { rewrite Hnd. apply Qlt_shift_div_l; [exact Hdpos|].
    apply Qlt_le_trans with (pow2 (a - b - 1) * pow2 (b + 1)).
    - apply Qmult_lt_l; [apply pow2_pos|exact Hd2].
    - rewrite <- pow2_add. replace (a - b - 1 + (b + 1))%Z with a by ring. exact Hn1. }
  assert (Hhigh : n # d < pow2 (a - b + 1)).
  { rewrite Hnd. apply Qlt_shift_div_r; [exact Hdpos|].
    apply Qlt_le_trans with (pow2 (a + 1)); [exact Hn2|].
    rewrite <- (pow2_cancel (a - b + 1) (a + 1)).
    replace (a + 1 - (a - b + 1))%Z with b by ring.
    apply Qmult_le_l; [apply pow2_pos|exact Hd1]. }
  destruct (Qle_bool (pow2 (a - b)) (n # d)) eqn:Hcmp.
  - apply Qle_bool_iff in Hcmp. split; assumption.
  - assert (Hlt : n # d < pow2 (a - b)).
    { apply Qnot_le_lt. intro Hle. apply Qle_bool_iff in Hle. congruence. }
    replace (a - b - 1 + 1)%Z with (a - b)%Z by ring.
    split; [apply Qlt_le_weak; exact Hlow|exact Hlt].
Qed.

Lemma flog2_mono x y : 0 < x -> x <= y -> (flog2 x <= flog2 y)%Z.
Proof.
  intros Hx Hxy.
  assert (Hy : 0 < y) by (eapply Qlt_le_trans; eassumption).
  destruct (flog2_spec x Hx) as [Hx1 _].
  destruct (flog2_spec y Hy) as [_ Hy2].
  destruct (Z_lt_le_dec (flog2 y) (flog2 x)) as [Hlt|Hle]; [exfalso|exact Hle].
  assert (H : pow2 (flog2 y + 1) <= pow2 (flog2 x)) by (apply pow2_le; lia).
  lra.
Qed.

Lemma Qabs_positive x : 0 < x -> Qabs x = x.
Proof.
  destruct x as [n d]. unfold Qlt, Qabs. simpl. intro H. f_equal. lia.
Qed.

(** *** Rounding to the nearest integer *)

Lemma rne_bounds x : (Qfloor x <= rne x <= Qfloor x + 1)%Z.
Proof.
  unfold rne. destruct (Qcompare _ _); [destruct (Z.even _)| |]; lia.
Qed.

Lemma rne_Z z : rne (inject_Z z) = z.
Proof.
  unfold rne. rewrite Qfloor_Z.
  destruct (Qcompare_spec (inject_Z z - inject_Z z) (1 # 2)) as [H|H|H];
    [exfalso; lra|reflexivity|exfalso; lra].
Qed.

Lemma rne_mono x y : x <= y -> (rne x <= rne y)%Z.
Proof.
  intro Hxy.
  pose proof (Qfloor_resp_le x y Hxy) as Hfloor.
  destruct (Z.eq_dec (Qfloor x) (Qfloor y)) as [Heq|Hne].
  - unfold rne. rewrite Heq.
    assert (Hfrac : x - inject_Z (Qfloor y) <= y - inject_Z (Qfloor y)) by lra.
    destruct (Qcompare_spec (x - inject_Z (Qfloor y)) (1 # 2)) as [Hx|Hx|Hx];
      destruct (Qcompare_spec (y - inject_Z (Qfloor y)) (1 # 2)) as [Hy|Hy|Hy];
      try destruct (Z.even (Qfloor y)); try lia; exfalso; lra.
  - pose proof (rne_bounds x). pose proof (rne_bounds y). lia.
Qed.

Lemma rne_nonneg x : 0 <= x -> (0 <= rne x)%Z.
Proof.
  intro H. exact (rne_mono 0 x H).
Qed.

(** *** Rounding to binary64 *)

Lemma RN_positive x :
  0 < x -> RN x = inject_Z (rne (x / pow2 (ulp_exp x))) * pow2 (ulp_exp x).
Proof.
  intro Hx. unfold RN.
  destruct (Qeq_bool x 0) eqn:H; [|reflexivity].
  apply Qeq_bool_eq in H. lra.
Qed.

Lemma ulp_exp_positive x : 0 < x -> ulp_exp x = Z.max (flog2 x - 52) (-1074).
Proof. intro Hx. unfold ulp_exp. now rewrite Qabs_positive. Qed.

Lemma RN_nonneg x : 0 <= x -> 0 <= RN x.
Proof.
  intro Hx. unfold RN. destruct (Qeq_bool x 0); [lra|].
  apply Qmult_le_0_compat; [|apply Qlt_le_weak, pow2_pos].
  change 0 with (inject_Z 0). rewrite <- Zle_Qle. apply rne_nonneg.
  apply Qle_shift_div_l; [apply pow2_pos|lra].
Qed.

Lemma RN_mono_positive x y : 0 < x -> x <= y -> RN x <= RN y.
Proof.
  intros Hx Hxy.
  assert (Hy : 0 < y) by lra.
  rewrite (RN_positive x Hx), (RN_positive y Hy).
  pose proof (flog2_mono x y Hx Hxy) as Hlog.
  pose proof (flog2_spec x Hx) as [_ Hx2].
  pose proof (flog2_spec y Hy) as [Hy1 _].
  rewrite (ulp_exp_positive x Hx), (ulp_exp_positive y Hy).
  set (ex := Z.max (flog2 x - 52) (-1074)). set (ey := Z.max (flog2 y - 52) (-1074)).
  assert (Hexy : (ex <= ey)%Z) by (unfold ex, ey; lia).
  pose proof (pow2_pos ex) as Hpx. pose proof (pow2_pos ey) as Hpy.
  destruct (Z.eq_dec ex ey) as [Heq|Hne].
  - rewrite Heq. apply Qmult_le_compat_r; [|lra].
    rewrite <- Zle_Qle. apply rne_mono.
    apply Qle_shift_div_l; [exact Hpy|].
    unfold Qdiv. rewrite <- Qmult_assoc, (Qmult_comm (/ _)), Qmult_inv_r, Qmult_1_r by lra.
    exact Hxy.
  - (* the boundary 2^(ey+52) separates the two *)
    assert (Hey : ey = (flog2 y - 52)%Z) by (unfold ex, ey in *; lia).
    assert (Hexlog : (flog2 x + 1 <= ey + 52)%Z) by (unfold ex, ey in *; lia).
    apply Qle_trans with (pow2 (ey + 52)).
    + (* RN x is at most the boundary *)
      assert (Hk : (0 <= ey + 52 - ex)%Z) by lia.
      assert (Hq : x / pow2 ex <= inject_Z (2 ^ (ey + 52 - ex))).
      { rewrite <- pow2_Z by exact Hk.
        apply Qle_shift_div_r; [exact Hpx|].
        rewrite Qmult_comm, pow2_cancel.
        apply Qle_trans with (pow2 (flog2 x + 1)); [lra|apply pow2_le; exact Hexlog]. }
      apply rne_mono in Hq. rewrite rne_Z in Hq.
      rewrite <- (pow2_cancel ex (ey + 52)), (Qmult_comm (pow2 ex)).
      apply Qmult_le_compat_r; [|lra].
      rewrite (pow2_Z (ey + 52 - ex)) by exact Hk. rewrite <- Zle_Qle. exact Hq.
    + (* RN y is at least the boundary *)
      assert (Hq : inject_Z (2 ^ 52) <= y / pow2 ey).
      { rewrite <- pow2_Z by lia.
        apply Qle_shift_div_l; [exact Hpy|].
        rewrite <- pow2_add. replace (52 + ey)%Z with (flog2 y) by lia. exact Hy1. }
      apply rne_mono in Hq. rewrite rne_Z in Hq.
      rewrite pow2_add, Qmult_comm.
      apply Qmult_le_compat_r; [|lra].
      rewrite (pow2_Z 52) by lia. rewrite <- Zle_Qle. exact Hq.
Qed.

Lemma RN_mono x y : 0 <= x -> x <= y -> RN x <= RN y.
Proof.
  intros Hx Hxy.
  destruct (Qlt_le_dec 0 x) as [Hpos|Hzero].
  - apply RN_mono_positive; assumption.
  - assert (H0 : x == 0) by lra.
    unfold RN at 1. apply Qeq_bool_iff in H0. rewrite H0.
    apply RN_nonneg. lra.
Qed.

Lemma RN_comp x y : 0 <= x -> x == y -> RN x == RN y.
Proof.
  intros Hx Hxy. apply Qle_antisym; apply RN_mono; lra.
Qed.

Lemma Math_round_mono x y : x <= y -> (Math_round x <= Math_round y)%Z.
Proof. intro H. unfold Math_round. apply Qfloor_resp_le. lra. Qed.

Lemma RN_1 : RN 1 == 1.
Proof. reflexivity. Qed.

Lemma of_Z_100 : of_Z 100 == 100.
Proof. reflexivity. Qed.

Lemma of_Z_nonneg z : (0 <= z)%Z -> 0 <= of_Z z.
Proof.
  intro H. apply RN_nonneg. change 0 with (inject_Z 0). now rewrite <- Zle_Qle.
Qed.

Lemma of_Z_mono a b : (0 <= a <= b)%Z -> of_Z a <= of_Z b.
Proof.
  intros [Ha Hab]. apply RN_mono.
  - change 0 with (inject_Z 0). now rewrite <- Zle_Qle.
  - now rewrite <- Zle_Qle.
Qed.

Lemma of_Z_positive z : (0 < z)%Z -> 1 <= of_Z z.
Proof.
  intro H. rewrite <- RN_1. apply RN_mono; [discriminate|].
  change 1 with (inject_Z 1). rewrite <- Zle_Qle. lia.
Qed.

End DoubleFacts.

(** ** The percentage of a download *)

Lemma percent_mono (loaded loaded' total : Z) :
  (0 <= loaded <= loaded')%Z -> (0 < total)%Z ->
  (percent loaded total <= percent loaded' total)%Z.
Proof.
  intros Hloaded Htotal. unfold percent.
  pose proof (of_Z_positive total Htotal) as HT.
  pose proof (of_Z_nonneg loaded (proj1 Hloaded)) as Ha.
  pose proof (of_Z_mono loaded loaded' Hloaded) as Hab.
  pose proof (of_Z_nonneg 100 ltac:(lia)) as Hc.
  assert (Hinv : (0 <= / Double.of_Z total)%Q) by (apply Qinv_le_0_compat; lra).
  assert (Hq : (0 <= Double.of_Z loaded / Double.of_Z total)%Q)
    by (apply Qmult_le_0_compat; assumption).
  assert (Hdiv : (Double.div (Double.of_Z loaded) (Double.of_Z total)
                  <= Double.div (Double.of_Z loaded') (Double.of_Z total))%Q).
  { apply RN_mono; [exact Hq|]. apply Qmult_le_compat_r; assumption. }
  apply Math_round_mono, RN_mono.
  - apply Qmult_le_0_compat; [apply RN_nonneg; exact Hq|exact Hc].
  - apply Qmult_le_compat_r; assumption.
Qed.

Lemma percent_complete (total : Z) : (0 < total)%Z -> percent total total = 100%Z.
Proof.
  intro Htotal. unfold percent.
  pose proof (of_Z_positive total Htotal) as HT.
  assert (Hone : (Double.div (Double.of_Z total) (Double.of_Z total) == 1)%Q).
  { unfold Double.div. rewrite <- RN_1. apply RN_comp.
    - apply Qmult_le_0_compat; [lra|apply Qinv_le_0_compat; lra].
    - apply Qmult_inv_r. lra. }
  assert (Hmul : (Double.mul (Double.div (Double.of_Z total) (Double.of_Z total))
                             (Double.of_Z 100) == 100)%Q).
  { apply Qeq_trans with (Double.RN (inject_Z 100)); [|exact of_Z_100].
    unfold Double.mul. apply RN_comp.
    - rewrite Hone, of_Z_100. discriminate.
    - rewrite Hone, of_Z_100. reflexivity. }
  unfold Double.Math_round. rewrite Hmul. reflexivity.
Qed.

(** ** The error of a rounding *)

Section RoundingError.
Import Double.
Local Open Scope Q_scope.

Lemma rne_error x : Qabs (inject_Z (rne x) - x) <= 1 # 2.
Proof.
  pose proof (Qfloor_le x) as Hlo. pose proof (Qlt_floor x) as Hhi.
  rewrite inject_Z_plus in Hhi. change (inject_Z 1) with 1 in Hhi.
  apply Qabs_case; intros _; unfold rne;
    destruct (Qcompare_spec (x - inject_Z (Qfloor x)) (1 # 2)) as [H|H|H];
    try destruct (Z.even (Qfloor x));
    rewrite ?inject_Z_plus; change (inject_Z 1) with 1; lra.
Qed.

Lemma rne_proper x y : x == y -> rne x = rne y.
Proof.
  intro Hxy. unfold rne. rewrite (Qfloor_comp x y Hxy).
  destruct (Qcompare_spec (x - inject_Z (Qfloor y)) (1 # 2)) as [H|H|H];
    destruct (Qcompare_spec (y - inject_Z (Qfloor y)) (1 # 2)) as [H'|H'|H'];
    try reflexivity; exfalso; lra.
Qed.

Lemma flog2_lower x k : 0 < x -> pow2 k <= x -> (k <= flog2 x)%Z.
Proof.
  intros Hx Hk. destruct (flog2_spec x Hx) as [_ Hhi].
  destruct (Z_lt_le_dec (flog2 x) k) as [Hlt|Hle]; [exfalso|exact Hle].
  assert (H : pow2 (flog2 x + 1) <= pow2 k) by (apply pow2_le; lia). lra.
Qed.

Lemma flog2_upper x k : 0 < x -> x < pow2 (k + 1) -> (flog2 x <= k)%Z.
Proof.
  intros Hx Hk. destruct (flog2_spec x Hx) as [Hlo _].
  destruct (Z_lt_le_dec k (flog2 x)) as [Hlt|Hle]; [exfalso|exact Hle].
  assert (H : pow2 (k + 1) <= pow2 (flog2 x)) by (apply pow2_le; lia). lra.
Qed.

Lemma flog2_proper x y : 0 < x -> x == y -> flog2 x = flog2 y.
Proof.
  intros Hx Hxy. assert (Hy : 0 < y) by lra.
  destruct (flog2_spec x Hx) as [Hx1 Hx2]. destruct (flog2_spec y Hy) as [Hy1 Hy2].
  apply Z.le_antisymm.
  - apply flog2_lower; [exact Hy|lra].
  - apply flog2_lower; [exact Hx|lra].
Qed.

Lemma Qabs_pos_nonzero x : ~ x == 0 -> 0 < Qabs x.
Proof.
  intro Hx.
  destruct (Qlt_le_dec 0 x) as [Hpos|Hle].
  - rewrite Qabs_pos; lra.
  - destruct (Qlt_le_dec x 0) as [Hneg|Hge].
    + rewrite Qabs_neg; lra.
    + exfalso. apply Hx. lra.
Qed.

Lemma ulp_exp_proper x y : ~ x == 0 -> x == y -> ulp_exp x = ulp_exp y.
Proof.
  intros Hx Hxy. unfold ulp_exp.
  rewrite (flog2_proper (Qabs x) (Qabs y)); [reflexivity|apply Qabs_pos_nonzero, Hx|].
  apply Qabs_wd, Hxy.
Qed.

Lemma RN_proper x y : x == y -> RN x == RN y.
Proof.
  intro Hxy. unfold RN.
  destruct (Qeq_bool x 0) eqn:Hx0.
  - apply Qeq_bool_iff in Hx0.
    assert (Hy0 : Qeq_bool y 0 = true) by (apply Qeq_bool_iff; lra).
    rewrite Hy0. reflexivity.
  - assert (Hx : ~ x == 0) by (apply Qeq_bool_neq; exact Hx0).
    destruct (Qeq_bool y 0) eqn:Hy0.
    { exfalso. apply Hx. apply Qeq_bool_iff in Hy0. lra. }
    rewrite <- (ulp_exp_proper x y Hx Hxy).
    rewrite (rne_proper (x / pow2 (ulp_exp x)) (y / pow2 (ulp_exp x))); [reflexivity|].
    unfold Qdiv. apply Qmult_comp; [exact Hxy|reflexivity].
Qed.

(** The error of a rounding is at most half a unit in the last place, that
    is 2^-53 of the value, for a value in the range of the normal numbers. *)
Lemma RN_error x :
  ~ x == 0 -> (-1022 <= flog2 (Qabs x))%Z -> Qabs (RN x - x) <= Qabs x * pow2 (-53).
Proof.
  intros Hx Hnormal.
  pose proof (Qabs_pos_nonzero x Hx) as Hpos.
  destruct (flog2_spec (Qabs x) Hpos) as [Hlo _].
  unfold RN. destruct (Qeq_bool x 0) eqn:Hx0.
  { exfalso. apply Hx. apply Qeq_bool_iff. exact Hx0. }
  unfold ulp_exp. rewrite Z.max_l by lia.
  set (e := (flog2 (Qabs x) - 52)%Z).
  pose proof (pow2_pos e) as He.
  assert (Hsplit : inject_Z (rne (x / pow2 e)) * pow2 e - x
                   == (inject_Z (rne (x / pow2 e)) - x / pow2 e) * pow2 e)
    by (field; lra).
  rewrite Hsplit, Qabs_Qmult, (Qabs_pos (pow2 e)) by lra.
  apply Qle_trans with ((1 # 2) * pow2 e).
  - apply Qmult_le_compat_r; [apply rne_error|lra].
  - assert (Hhalf : (1 # 2) * pow2 e == pow2 (flog2 (Qabs x)) * pow2 (-53)).
    { unfold e. rewrite <- pow2_add.
      replace (flog2 (Qabs x) + -53)%Z with (flog2 (Qabs x) - 52 + -1)%Z by ring.
      rewrite pow2_add. change (pow2 (-1)) with (1 # 2). ring. }
    rewrite Hhalf. apply Qmult_le_compat_r; [exact Hlo|apply Qlt_le_weak, pow2_pos].
Qed.

Lemma RN_zero x : (x == 0)%Q -> Double.RN x = 0%Q.
Proof. intro H. unfold Double.RN. apply Qeq_bool_iff in H. now rewrite H. Qed.

(** A multiple of a power of two with less than 53 bits is a Number. *)
Lemma RN_representable x m j :
  x == inject_Z m * pow2 j -> (Z.abs m < 2 ^ 53)%Z -> (-1074 <= j)%Z -> RN x == x.
Proof.
  intros Hxm Hm Hj.
  destruct (Z.eq_dec m 0) as [->|Hm0].
  { assert (Hx0 : x == 0) by (rewrite Hxm; ring).
    rewrite (RN_zero x Hx0). lra. }
  assert (Hx : ~ x == 0).
  { rewrite Hxm. intro H. apply Qmult_integral in H. destruct H as [H|H].
    - apply Hm0. apply (proj1 (inject_Z_injective m 0)). exact H.
    - pose proof (pow2_pos j). lra. }
  pose proof (Qabs_pos_nonzero x Hx) as Hpos.
  unfold RN. destruct (Qeq_bool x 0) eqn:Hx0.
  { exfalso. apply Hx. apply Qeq_bool_iff. exact Hx0. }
  assert (Hlog : (flog2 (Qabs x) <= 52 + j)%Z).
  { apply flog2_upper; [exact Hpos|].
    rewrite (Qabs_wd _ _ Hxm), Qabs_Qmult, (Qabs_pos (pow2 j)) by (apply Qlt_le_weak, pow2_pos).
    replace (52 + j + 1)%Z with (53 + j)%Z by ring. rewrite pow2_add.
    apply Qmult_lt_compat_r; [apply pow2_pos|].
    rewrite pow2_Z by lia. change (Qabs (inject_Z m)) with (inject_Z (Z.abs m)).
    rewrite <- Zlt_Qlt. exact Hm. }
  set (e := ulp_exp x).
  assert (He : (e <= j)%Z) by (unfold e, ulp_exp; lia).
  assert (Hq : x / pow2 e == inject_Z (m * 2 ^ (j - e))).
  { rewrite inject_Z_mult, <- pow2_Z by lia.
    rewrite div_pow2, Hxm, <- Qmult_assoc, <- pow2_add.
    now replace (j + - e)%Z with (j - e)%Z by ring. }
  rewrite (rne_proper _ _ Hq), rne_Z.
  rewrite inject_Z_mult, <- pow2_Z by lia.
  rewrite <- Qmult_assoc, <- pow2_add.
  replace (j - e + e)%Z with j by ring. symmetry. exact Hxm.
Qed.

Lemma of_Z_exact z : (Z.abs z < 2 ^ 53)%Z -> of_Z z == inject_Z z.
Proof.
  intro Hz. unfold of_Z. apply (RN_representable _ z 0); [|exact Hz|lia].
  change (pow2 0) with 1. ring.
Qed.

(** Two roundings in a row, as in [(loaded / total) * 100]: the quotient
    is rounded, then its product by 100. *)
Lemma two_roundings r :
  pow2 (-53) <= Qabs r ->
  Qabs (RN (RN r * 100) - r * 100) <= Qabs r * (201 # 9007199254740992).
Proof.
  intro Hr.
  change (pow2 (-53)) with (1 # 9007199254740992) in Hr.
  assert (Hr0 : ~ r == 0).
  { intro H0. rewrite (Qabs_wd _ _ H0) in Hr. change (Qabs 0) with 0 in Hr. lra. }
  pose proof (Qabs_pos_nonzero r Hr0) as Hpos.
  assert (Hlog : (-1022 <= flog2 (Qabs r))%Z).
  { apply Z.le_trans with (-53)%Z; [lia|]. apply flog2_lower; [exact Hpos|exact Hr]. }
  pose proof (RN_error r Hr0 Hlog) as E1.
  change (pow2 (-53)) with (1 # 9007199254740992) in E1.
  apply Qabs_Qle_condition in E1. destruct E1 as [E1lo E1hi].
  set (q := RN r) in *.
  assert (Hq : (1 # 9007199254740992) <= Qabs (q * 100)).
  { rewrite Qabs_Qmult. change (Qabs 100) with 100.
    revert Hr E1lo E1hi. apply (Qabs_case r); intros Hsign Hr E1lo E1hi;
      apply (Qabs_case q); intros Hq; lra. }
  assert (Hq0 : ~ q * 100 == 0).
  { intro H0. rewrite (Qabs_wd _ _ H0) in Hq. change (Qabs 0) with 0 in Hq. lra. }
  assert (Hlogq : (-1022 <= flog2 (Qabs (q * 100)))%Z).
  { apply Z.le_trans with (-53)%Z; [lia|].
    apply flog2_lower; [apply Qabs_pos_nonzero, Hq0|exact Hq]. }
  pose proof (RN_error (q * 100) Hq0 Hlogq) as E2.
  change (pow2 (-53)) with (1 # 9007199254740992) in E2.
  rewrite Qabs_Qmult in E2. change (Qabs 100) with 100 in E2.
  apply Qabs_Qle_condition in E2. destruct E2 as [E2lo E2hi].
  apply Qabs_Qle_condition.
  revert Hr E1lo E1hi E2lo E2hi. apply (Qabs_case r); intros Hsign Hr E1lo E1hi;
    apply (Qabs_case q); intros Hqs E2lo E2hi; split; lra.
Qed.

End RoundingError.

(** ** The percentage is a nearest integer *)

Lemma percent_two_roundings (l t : Z) :
  (Z.abs l < 2 ^ 53)%Z -> (Z.abs t < 2 ^ 53)%Z ->
  percent l t
  = Qfloor (Double.RN (Double.RN (inject_Z l / inject_Z t) * 100) + (1 # 2)).
Proof.
  intros Hl Ht. unfold percent, Double.Math_round, Double.mul, Double.div.
  apply Qfloor_comp. apply Qplus_comp; [|reflexivity].
  apply RN_proper. apply Qmult_comp; [|apply (of_Z_exact 100); reflexivity].
  apply RN_proper. unfold Qdiv. apply Qmult_comp; [apply of_Z_exact, Hl|].
  apply Qinv_comp, of_Z_exact, Ht.
Qed.

Lemma percent_nearest (l t : Z) :
  (0 < l < 2 ^ 44)%Z -> t <> 0%Z -> (Z.abs t < 2 ^ 53)%Z ->
  nearest_percent l t (percent l t).
Proof.
  intros Hl Ht0 Ht.
  rewrite percent_two_roundings by lia.
  set (r := (inject_Z l / inject_Z t)%Q).
  set (y := Double.RN (Double.RN r * 100)).
  set (p := Qfloor (y + (1 # 2))).
  pose proof (Qfloor_le (y + (1 # 2))) as Hlo. pose proof (Qlt_floor (y + (1 # 2))) as Hhi.
  fold p in Hlo, Hhi. rewrite inject_Z_plus in Hhi. change (inject_Z 1) with 1%Q in Hhi.
  assert (HL : (1 <= inject_Z l)%Q) by (change 1%Q with (inject_Z 1); rewrite <- Zle_Qle; lia).
  assert (HL' : (inject_Z l <= 17592186044416)%Q)
    by (change 17592186044416%Q with (inject_Z (2 ^ 44)); rewrite <- Zle_Qle; lia).
  assert (HT : (Qabs (inject_Z t) < 9007199254740992)%Q).
  { change (Qabs (inject_Z t)) with (inject_Z (Z.abs t)).
    change 9007199254740992%Q with (inject_Z (2 ^ 53)). rewrite <- Zlt_Qlt. exact Ht. }
  assert (HT0 : ~ (inject_Z t == 0)%Q).
  { intro H. apply Ht0. apply (proj1 (inject_Z_injective t 0)). exact H. }
  assert (Hrt : (r * inject_Z t == inject_Z l)%Q) by (unfold r; field; exact HT0).
  unfold nearest_percent.
  destruct (Z_lt_le_dec 0 t) as [Hpos|Hneg].
  - (* a positive total *)
    assert (HTp : (0 < inject_Z t)%Q) by (change 0%Q with (inject_Z 0); rewrite <- Zlt_Qlt; lia).
    rewrite (Qabs_pos (inject_Z t)) in HT by lra.
    assert (Hr : (0 < r)%Q) by (unfold r; apply Qlt_shift_div_l; lra).
    assert (Hsmall : (Double.pow2 (-53) <= Qabs r)%Q).
    { rewrite Qabs_pos by lra. change (Double.pow2 (-53)) with (1 # 9007199254740992)%Q.
      unfold r. apply Qle_shift_div_l; [exact HTp|]. lra. }
    pose proof (two_roundings r Hsmall) as HD. fold y in HD.
    rewrite (Qabs_pos r) in HD by lra.
    apply Qabs_Qle_condition in HD. destruct HD as [HDlo HDhi].
    assert (Hup : (inject_Z (2 * (p * t)) < inject_Z (200 * l + t + 1))%Q).
    { rewrite !inject_Z_plus, !inject_Z_mult. change (inject_Z 2) with 2%Q.
      change (inject_Z 200) with 200%Q. change (inject_Z 1) with 1%Q. nra. }
    assert (Hdown : (inject_Z (200 * l - t - 1) < inject_Z (2 * (p * t)))%Q).
    { unfold Z.sub. rewrite !inject_Z_plus, !inject_Z_opp, !inject_Z_mult.
      change (inject_Z 2) with 2%Q.
      change (inject_Z 200) with 200%Q. change (inject_Z 1) with 1%Q. nra. }
    rewrite <- Zlt_Qlt in Hup, Hdown. lia.
  - assert (Htneg : (t < 0)%Z) by lia.
    assert (HTn : (inject_Z t < 0)%Q) by (change 0%Q with (inject_Z 0); rewrite <- Zlt_Qlt; lia).
    rewrite (Qabs_neg (inject_Z t)) in HT by lra.
    assert (Hr : (r < 0)%Q) by nra.
    assert (Hsmall : (Double.pow2 (-53) <= Qabs r)%Q).
    { rewrite Qabs_neg by lra. change (Double.pow2 (-53)) with (1 # 9007199254740992)%Q. nra. }
    pose proof (two_roundings r Hsmall) as HD. fold y in HD.
    rewrite (Qabs_neg r) in HD by lra.
    apply Qabs_Qle_condition in HD. destruct HD as [HDlo HDhi].
    assert (Hup : (inject_Z (2 * (p * t)) < inject_Z (200 * l - t + 1))%Q).
    { unfold Z.sub. rewrite !inject_Z_plus, !inject_Z_opp, !inject_Z_mult.
      change (inject_Z 2) with 2%Q.
      change (inject_Z 200) with 200%Q. change (inject_Z 1) with 1%Q. nra. }
    assert (Hdown : (inject_Z (200 * l + t - 1) < inject_Z (2 * (p * t)))%Q).
    { unfold Z.sub. rewrite !inject_Z_plus, !inject_Z_opp, !inject_Z_mult.
      change (inject_Z 2) with 2%Q.
      change (inject_Z 200) with 200%Q. change (inject_Z 1) with 1%Q. nra. }
    rewrite <- Zlt_Qlt in Hup, Hdown. lia.
Qed.

(** ** Megabytes with one decimal *)

Lemma megabytes_exact (size : nat) :
  (Z.of_nat size < 2 ^ 53)%Z ->
  (Double.div (Double.div (Double.of_Z (Z.of_nat size)) (Double.of_Z 1024)) (Double.of_Z 1024)
   == inject_Z (Z.of_nat size) * Double.pow2 (-20))%Q.
Proof.
  intro Hsize. unfold Double.div.
  assert (Hk : (Double.of_Z 1024 == 1024)%Q) by (apply (of_Z_exact 1024); reflexivity).
  assert (Hq1 : (Double.of_Z (Z.of_nat size) / Double.of_Z 1024
                 == inject_Z (Z.of_nat size) * Double.pow2 (-10))%Q).
  { rewrite Hk, of_Z_exact by lia. change (Double.pow2 (-10)) with (1 # 1024)%Q. field. }
  assert (H1 : (Double.RN (Double.of_Z (Z.of_nat size) / Double.of_Z 1024)
                == inject_Z (Z.of_nat size) * Double.pow2 (-10))%Q).
  { rewrite (RN_representable _ (Z.of_nat size) (-10) Hq1) by lia. exact Hq1. }
  assert (Hq2 : (Double.RN (Double.of_Z (Z.of_nat size) / Double.of_Z 1024) / Double.of_Z 1024
                 == inject_Z (Z.of_nat size) * Double.pow2 (-20))%Q).
  { rewrite H1, Hk. change (Double.pow2 (-10)) with (1 # 1024)%Q.
    change (Double.pow2 (-20)) with (1 # 1048576)%Q. field. }
  rewrite (RN_representable _ (Z.of_nat size) (-20) Hq2) by lia. exact Hq2.
Qed.

Lemma megabytes_tenths (size : nat) :
  (Z.of_nat size < 2 ^ 53)%Z -> megabytes size = one_decimal (tenths_of_MB size).
Proof.
  intro Hsize. unfold megabytes, toFixed_1.
  pose proof (megabytes_exact size Hsize) as Hx.
  set (x := Double.div _ _) in *.
  change (Double.pow2 (-20)) with (1 # 1048576)%Q in Hx.
  assert (Hz : (0 <= inject_Z (Z.of_nat size) < 9007199254740992)%Q).
  { split.
    - change 0%Q with (inject_Z 0). rewrite <- Zle_Qle. lia.
    - change 9007199254740992%Q with (inject_Z (2 ^ 53)). rewrite <- Zlt_Qlt. exact Hsize. }
  destruct (Qle_bool (inject_Z (10 ^ 21)) x) eqn:Hbig.
  { exfalso. apply Qle_bool_iff in Hbig.
    change (inject_Z (10 ^ 21)) with 1000000000000000000000%Q in Hbig. lra. }
  assert (Hn : Qfloor (x * inject_Z 10 + (1 # 2)) = tenths_of_MB size).
  { unfold tenths_of_MB.
    rewrite (Qfloor_comp _ ((10 * Z.of_nat size + 524288) # 1048576)); [reflexivity|].
    rewrite Hx, (Qmake_Qdiv (10 * Z.of_nat size + 524288) 1048576).
    rewrite inject_Z_plus, inject_Z_mult. change (inject_Z 10) with 10%Q.
    change (inject_Z 524288) with 524288%Q. change (inject_Z (Z.pos 1048576)) with 1048576%Q.
    field. }
  rewrite Hn. reflexivity.
Qed.

Example megabytes_examples :
  megabytes 3 = "0.0" /\ megabytes (N.to_nat 52429) = "0.1" /\
  megabytes (N.to_nat 262144) = "0.3".
Proof. repeat split; vm_compute; reflexivity. Qed.

(** ** Concatenation of the chunks *)

Lemma reduce_total_length chunks : forall n,
  fold_left (fun acc chunk => acc + List.length chunk)%nat chunks n = (n + total_length chunks)%nat.
Proof.
  induction chunks as [|chunk rest IH]; intro n; simpl.
  - unfold total_length; simpl; lia.
  - rewrite IH. unfold total_length; simpl; lia.
Qed.

Lemma length_concat_total (chunks : list Uint8Array) :
  List.length (List.concat chunks) = total_length chunks.
Proof.
  induction chunks as [|chunk rest IH]; simpl; [reflexivity|].
  rewrite length_app, IH. reflexivity.
Qed.

(** The copy loop, started with [copied] already in place and zeros for the
    chunks still to come, ends with all the chunks in place. *)
Lemma copy_chunks_fills chunks : forall copied : Uint8Array,
  copy_chunks chunks (copied ++ repeat x00 (total_length chunks)) (List.length copied)
  = Some (copied ++ List.concat chunks).
Proof.
  induction chunks as [|chunk rest IH]; intro copied; simpl.
  - reflexivity.
  - unfold Uint8Array_set.
    change (total_length (chunk :: rest)) with (List.length chunk + total_length rest)%nat.
    rewrite length_app, repeat_length, repeat_app.
    destruct (Nat.leb_spec (List.length copied + List.length chunk)
                           (List.length copied + (List.length chunk + total_length rest)));
      [|lia].
    rewrite firstn_app, firstn_all, Nat.sub_diag, firstn_O, app_nil_r.
    rewrite skipn_app, skipn_all2 by lia.
    replace (List.length copied + List.length chunk - List.length copied)%nat
      with (List.length chunk) by lia.
    rewrite skipn_app, repeat_length, Nat.sub_diag, skipn_all2 by (rewrite repeat_length; lia).
    simpl.
    specialize (IH (copied ++ chunk)).
    rewrite length_app, <- app_assoc in IH. rewrite IH, <- app_assoc. reflexivity.
Qed.

Lemma concatenate_concat chunks : concatenate chunks = Some (List.concat chunks).
Proof.
  unfold concatenate. rewrite reduce_total_length. simpl.
  exact (copy_chunks_fills chunks []).
Qed.

Lemma slice_concat (chunks : list Uint8Array) : forall i chunk,
  nth_error chunks i = Some chunk ->
  slice (List.concat chunks) (total_length (firstn i chunks)) (List.length chunk) = chunk.
Proof.
  unfold slice.
  induction chunks as [|c rest IH]; intros [|i] chunk H; simpl in H; try discriminate.
  - injection H as ->. simpl. rewrite firstn_app, firstn_all, Nat.sub_diag, firstn_O.
    apply app_nil_r.
  - simpl firstn. change (total_length (c :: firstn i rest))
      with (List.length c + total_length (firstn i rest))%nat.
    simpl List.concat. rewrite skipn_app, skipn_all2 by lia. simpl.
    replace (List.length c + total_length (firstn i rest) - List.length c)%nat
      with (total_length (firstn i rest)) by lia.
    apply IH, H.
Qed.

(** ** The read loop and the download *)

Lemma report_progress_posted description total loaded env w :
  report_progress description total loaded env w
  = (Normal tt, posted (progress_after description total loaded) w).
Proof.
  unfold report_progress, progress_after, progress_message.
  destruct total as [t|]; [destruct (negb (t =? 0)%Z && (0 <? loaded)%nat)|];
    unfold ret; rewrite ?posted_nil; reflexivity.
Qed.

Lemma read_chunks_run description total incoming failure env : forall chunks loaded w,
  read_chunks description total incoming failure chunks loaded env w
  = (match failure with
     | None => Normal (chunks ++ incoming)
     | Some e => Throw e
     end,
     posted (progress_messages description total incoming loaded) w).
Proof.
  unfold progress_messages.
  induction incoming as [|value rest IH]; intros chunks loaded w; simpl.
  - rewrite posted_nil, app_nil_r. destruct failure; reflexivity.
  - unfold bind. rewrite report_progress_posted, IH, posted_posted, <- app_assoc.
    reflexivity.
Qed.

Ltac enter_download :=
  unfold download, do_fetch; unfold bind at 1 2 3; unfold record_call, postMessage.

Lemma download_completion env w url description :
  fst (download url description env w) = download_outcome env url.
Proof.
  enter_download. unfold download_outcome.
  destruct (env_fetch env url) as [e|response]; [reflexivity|].
  destruct (negb (ok response)); [reflexivity|].
  destruct (body response) as [[chunks failure]|]; [|reflexivity].
  unfold bind at 1, ret at 1. cbn [fst snd]. unfold bind at 1. rewrite read_chunks_run.
  destruct failure as [e|]; [reflexivity|].
  cbn [app]. rewrite concatenate_concat.
  unfold bind, ret, try_catch, outside, bind, record_call.
  destruct (env_cache_put env url); reflexivity.
Qed.

Lemma download_outbox env w url description response chunks failure :
  env_fetch env url = inr response ->
  ok response = true ->
  body response = Some (chunks, failure) ->
  outbox (snd (download url description env w))
  = outbox w ++ loading_progress (downloading description)
             :: progress_messages description (advertised_total response) chunks 0.
Proof.
  intros Hfetch Hok Hbody.
  enter_download. rewrite Hfetch, Hok, Hbody. cbn [negb].
  unfold bind at 1, ret at 1. cbn [fst snd]. unfold bind at 1. rewrite read_chunks_run.
  fold (advertised_total response).
  destruct failure as [e|]; [simpl; now rewrite <- app_assoc|].
  cbn [app]. rewrite concatenate_concat.
  unfold bind, ret, try_catch, outside, bind, record_call.
  destruct (env_cache_put env url); simpl; now rewrite <- app_assoc.
Qed.

Lemma download_run env w url description response chunks :
  env_fetch env url = inr response ->
  ok response = true ->
  body response = Some (chunks, None) ->
  download url description env w
  = (Normal (List.concat chunks),
     let w1 :=
       called [fetch url; cache_put url (List.concat chunks)]
         (posted (loading_progress (downloading description)
                    :: progress_messages description (advertised_total response) chunks 0) w) in
     match env_cache_put env url with
     | None =>
         set_cache
           (cache_store url {| cached_ok := true; cached_data := List.concat chunks |} (cache w))
           w1
     | Some e => logged [warn_cache_failed description e] w1
     end).
Proof.
  intros Hfetch Hok Hbody.
  enter_download. rewrite Hfetch, Hok, Hbody. cbn [negb].
  unfold bind at 1, ret at 1. cbn [fst snd]. unfold bind at 1. rewrite read_chunks_run.
  fold (advertised_total response).
  cbn [app]. rewrite concatenate_concat.
  unfold bind, ret, try_catch, outside, bind, record_call, get_cache, put_cache, console_write.
  destruct (env_cache_put env url);
    unfold called, posted, logged, set_cache; simpl; rewrite <- !app_assoc; reflexivity.
Qed.

Lemma download_refused env w url description response :
  env_fetch env url = inr response ->
  ok response = false ->
  download url description env w
  = (Throw (HttpError (status response) (statusText response) url),
     called [fetch url] (posted [loading_progress (downloading description)] w)).
Proof.
  intros Hfetch Hok.
  enter_download. rewrite Hfetch, Hok. reflexivity.
Qed.

(** [downloadFile] when the cache has no usable response: the download of
    lines 48-116 runs, and an error passes through the outer [catch]. *)
Lemma downloadFile_downloads env w url description :
  env_caches_open env = None ->
  env_cache_match env url = None ->
  cache_hit url w = false ->
  (cache_lookup url (cache w) <> None -> env_cache_delete env url = None) ->
  downloadFile url description env w
  = match download url description env (before_download url description w) with
    | (Normal data, w') => (Normal data, w')
    | (Throw e, w') => (Throw e, logged [error_download_failed description e] w')
    end.
Proof.
  intros Hopen Hmatch Hhit Hdelete.
  unfold downloadFile, try_catch at 1. unfold bind at 1 2 3 4, outside, bind, record_call.
  rewrite Hopen, Hmatch. unfold get_cache at 1. cbn [cache].
  unfold cache_hit in Hhit. unfold before_download.
  destruct (cache_lookup url (cache w)) as [cachedResponse|] eqn:Hlookup.
  - rewrite Hhit, Hdelete by discriminate.
    unfold bind, postMessage, console_write, record_call, get_cache, put_cache, ret.
    unfold set_cache, called, logged, posted. cbn [globals cache outbox calls console next_id].
    rewrite <- !app_assoc. cbn [app].
    destruct (download url description env _) as [[data|e] w']; reflexivity.
  - unfold ret at 1. unfold called. cbn [globals cache outbox calls console next_id].
    rewrite <- ?app_assoc. cbn [app].
    destruct (download url description env _) as [[data|e] w']; reflexivity.
Qed.

(** ** Progress messages of a download *)

Lemma percentages_app ms ms' : percentages (ms ++ ms') = percentages ms ++ percentages ms'.
Proof. apply flat_map_app. Qed.

(** With a total that is not zero, a chunk is reported as soon as [loaded]
    is positive. *)
Lemma progress_messages_nonzero description total chunks : forall loaded,
  total <> 0%Z ->
  progress_messages description (Some total) chunks loaded
  = map (progress_message description total)
        (filter (fun l => (0 <? l)%nat) (running_totals chunks loaded)).
Proof.
  unfold progress_messages.
  induction chunks as [|value rest IH]; intros loaded Htotal; simpl; [reflexivity|].
  rewrite IH by exact Htotal. unfold progress_after.
  replace (total =? 0)%Z with false by (symmetry; apply Z.eqb_neq; exact Htotal).
  destruct (0 <? loaded + List.length value)%nat; reflexivity.
Qed.

Lemma percentages_of_reports description total loadeds :
  percentages (map (progress_message description total) loadeds)
  = map (fun loaded => percent (Z.of_nat loaded) total) loadeds.
Proof. induction loadeds as [|l rest IH]; simpl; [reflexivity|now rewrite <- IH]. Qed.

(** What is reported never exceeds what was received in all. *)
Lemma running_totals_bound chunks : forall loaded,
  Forall (fun l => (l <= loaded + total_length chunks)%nat) (running_totals chunks loaded).
Proof.
  induction chunks as [|value rest IH]; intro loaded; simpl; constructor.
  - unfold total_length. simpl. lia.
  - specialize (IH (loaded + List.length value)%nat).
    revert IH. apply Forall_impl. intros l Hl.
    change (total_length (value :: rest)) with (List.length value + total_length rest)%nat. lia.
Qed.

Lemma reported_bounds chunks :
  Forall (fun l => (0 < l <= total_length chunks)%nat) (reported chunks).
Proof.
  unfold reported. apply Forall_forall. intros l Hin.
  apply filter_In in Hin. destruct Hin as [Hin Hpos].
  apply Nat.ltb_lt in Hpos. split; [exact Hpos|].
  pose proof (running_totals_bound chunks 0) as Hall.
  rewrite Forall_forall in Hall. exact (Hall l Hin).
Qed.

Lemma percentages_sorted description total chunks : forall loaded,
  (0 < total)%Z ->
  StronglySorted Z.le (percentages (progress_messages description (Some total) chunks loaded)) /\
  Forall (Z.le (percent (Z.of_nat loaded) total))
         (percentages (progress_messages description (Some total) chunks loaded)).
Proof.
  unfold progress_messages.
  induction chunks as [|value rest IH]; intros loaded Htotal; simpl.
  - split; constructor.
  - destruct (IH (loaded + List.length value)%nat Htotal) as [Hsorted Hlower].
    assert (Hstep : (percent (Z.of_nat loaded) total
                     <= percent (Z.of_nat (loaded + List.length value)) total)%Z)
      by (apply percent_mono; lia).
    assert (Hlower' : Forall (Z.le (percent (Z.of_nat loaded) total))
                        (percentages (flat_map (progress_after description (Some total))
                           (running_totals rest (loaded + List.length value)))))
      by (revert Hlower; apply Forall_impl; intros p Hp; lia).
    rewrite percentages_app.
    destruct (negb (total =? 0)%Z && (0 <? loaded + List.length value)%nat); simpl.
    + split; constructor; assumption.
    + split; assumption.
Qed.

(** Unless nothing was received, the last message reports all of it. *)
Lemma percentages_end description total chunks : forall loaded,
  (0 < total)%Z ->
  chunks <> [] ->
  (0 < loaded + total_length chunks)%nat ->
  exists earlier,
    percentages (progress_messages description (Some total) chunks loaded)
    = earlier ++ [percent (Z.of_nat (loaded + total_length chunks)) total].
Proof.
  unfold progress_messages.
  induction chunks as [|value rest IH]; intros loaded Htotal Hne Hpos; [congruence|].
  change (total_length (value :: rest)) with (List.length value + total_length rest)%nat in *.
  simpl. rewrite percentages_app.
  destruct rest as [|value' rest'].
  - unfold total_length in *; simpl in *. rewrite Nat.add_0_r in *.
    unfold progress_after.
    replace (total =? 0)%Z with false by (symmetry; apply Z.eqb_neq; lia).
    replace (0 <? loaded + List.length value)%nat with true
      by (symmetry; apply Nat.ltb_lt; lia).
    exists []. reflexivity.
  - destruct (IH (loaded + List.length value)%nat Htotal ltac:(discriminate) ltac:(lia))
      as [earlier Hearlier].
    rewrite Hearlier, Nat.add_assoc, app_assoc. eexists. reflexivity.
Qed.

(** ** Claims about downloadFile *)

(** C4: when the download succeeds (the cache holds no usable response,
    the cache calls before the download succeed, the response is ok and its
    body ends without a read error), the bytes returned are the received
    chunks one after the other in arrival order: their number is the sum of
    the chunk lengths, and each chunk stands, whole, at the offset that is
    the sum of the lengths of the chunks before it. *)
Theorem downloaded_bytes_are_the_chunks_in_order
        (env : Env) (w : World) (url description : string)
        (response : Response) (chunks : list Uint8Array) :
  env_caches_open env = None ->
  env_cache_match env url = None ->
  cache_hit url w = false ->
  (cache_lookup url (cache w) <> None -> env_cache_delete env url = None) ->
  env_fetch env url = inr response ->
  ok response = true ->
  body response = Some (chunks, None) ->
  exists data,
    fst (downloadFile url description env w) = Normal data /\
    data = List.concat chunks /\
    List.length data = total_length chunks /\
    forall i chunk,
      nth_error chunks i = Some chunk ->
      slice data (total_length (firstn i chunks)) (List.length chunk) = chunk.
Proof.
  intros Hopen Hmatch Hhit Hdelete Hfetch Hok Hbody.
  exists (List.concat chunks).
  rewrite (downloadFile_downloads env w url description Hopen Hmatch Hhit Hdelete).
  rewrite (download_run env _ url description response chunks Hfetch Hok Hbody).
  repeat split.
  - apply length_concat_total.
  - apply slice_concat.
Qed.

Lemma downloaded_bytes_are_the_chunks_in_order_witness :
  exists data,
    fst (downloadFile "https://x/m.bin" "Phi model weights" example_env (initial_world []))
      = Normal data /\
    data = List.concat [[x01; x02]; [x03; x04; x05]] /\
    List.length data = total_length [[x01; x02]; [x03; x04; x05]] /\
    forall i chunk,
      nth_error [[x01; x02]; [x03; x04; x05]] i = Some chunk ->
      slice data (total_length (firstn i [[x01; x02]; [x03; x04; x05]])) (List.length chunk)
      = chunk.
Proof.
  apply (downloaded_bytes_are_the_chunks_in_order example_env (initial_world [])
           "https://x/m.bin" "Phi model weights"
           (file_response (Some "5") [[x01; x02]; [x03; x04; x05]])
           [[x01; x02]; [x03; x04; x05]]);
    reflexivity.
Defined.

(** C5: when the URL is not in the cache and the network answers with a
    status outside 200-299, [downloadFile] throws the error built from the
    status code, the status text and the URL; it returns no bytes, the cache
    is left as it was, and the calls made are [caches.open], [cache.match]
    and [fetch]: no [cache.put]. *)
Theorem http_error_writes_no_cache
        (env : Env) (w : World) (url description : string) (response : Response) :
  env_caches_open env = None ->
  env_cache_match env url = None ->
  cache_lookup url (cache w) = None ->
  env_fetch env url = inr response ->
  ok response = false ->
  fst (downloadFile url description env w)
    = Throw (HttpError (status response) (statusText response) url) /\
  cache (snd (downloadFile url description env w)) = cache w /\
  calls (snd (downloadFile url description env w))
    = calls w ++ [caches_open; cache_match url; fetch url].
Proof.
  intros Hopen Hmatch Hmiss Hfetch Hok.
  assert (Hhit : cache_hit url w = false) by (unfold cache_hit; now rewrite Hmiss).
  rewrite (downloadFile_downloads env w url description Hopen Hmatch Hhit)
    by (intro H; congruence).
  rewrite (download_refused env _ url description response Hfetch Hok).
  unfold before_download. rewrite Hmiss.
  repeat split. simpl. now rewrite <- app_assoc.
Qed.

Lemma http_error_writes_no_cache_witness :
  fst (downloadFile "https://y/m.bin" "Phi model weights" example_env (initial_world []))
    = Throw (HttpError 404 "Not Found" "https://y/m.bin") /\
  cache (snd (downloadFile "https://y/m.bin" "Phi model weights" example_env (initial_world [])))
    = cache (initial_world []) /\
  calls (snd (downloadFile "https://y/m.bin" "Phi model weights" example_env (initial_world [])))
    = calls (initial_world [])
        ++ [caches_open; cache_match "https://y/m.bin"; fetch "https://y/m.bin"].
Proof.
  exact (http_error_writes_no_cache example_env (initial_world [])
           "https://y/m.bin" "Phi model weights" not_found
           eq_refl eq_refl eq_refl eq_refl eq_refl).
Defined.

(** C6: when the network download succeeds and [cache.put] then fails, the
    failure stops at the inner [catch]: [downloadFile] still returns all the
    downloaded bytes, which is also what it returns whatever the cache write
    answers, so the return value does not tell a failed write from a
    successful one; the failure leaves one [console.warn] line and no record
    in the cache. *)
Theorem cache_write_failure_is_absorbed
        (env : Env) (w : World) (url description : string)
        (response : Response) (chunks : list Uint8Array) (cacheError : js_error) :
  env_caches_open env = None ->
  env_cache_match env url = None ->
  cache_hit url w = false ->
  (cache_lookup url (cache w) <> None -> env_cache_delete env url = None) ->
  env_fetch env url = inr response ->
  ok response = true ->
  body response = Some (chunks, None) ->
  env_cache_put env url = Some cacheError ->
  fst (downloadFile url description env w) = Normal (List.concat chunks) /\
  (forall answer,
     fst (downloadFile url description (with_cache_put answer env) w)
     = Normal (List.concat chunks)) /\
  console (snd (downloadFile url description env w))
    = console (before_download url description w) ++ [warn_cache_failed description cacheError] /\
  cache (snd (downloadFile url description env w)) = cache (before_download url description w).
Proof.
  intros Hopen Hmatch Hhit Hdelete Hfetch Hok Hbody Hput.
  split; [|split].
  - rewrite (downloadFile_downloads env w url description Hopen Hmatch Hhit Hdelete).
    rewrite (download_run env _ url description response chunks Hfetch Hok Hbody).
    reflexivity.
  - intro answer.
    rewrite (downloadFile_downloads (with_cache_put answer env) w url description
               Hopen Hmatch Hhit Hdelete).
    rewrite (download_run (with_cache_put answer env) _ url description response chunks
               Hfetch Hok Hbody).
    reflexivity.
  - rewrite (downloadFile_downloads env w url description Hopen Hmatch Hhit Hdelete).
    rewrite (download_run env _ url description response chunks Hfetch Hok Hbody).
    rewrite Hput. split; reflexivity.
Qed.

Lemma cache_write_failure_is_absorbed_witness :
  fst (downloadFile "https://x/m.bin" "Phi model weights"
         (with_cache_put (fun _ => Some (Thrown "QuotaExceededError")) example_env)
         (initial_world []))
    = Normal [x01; x02; x03; x04; x05] /\
  (forall answer,
     fst (downloadFile "https://x/m.bin" "Phi model weights"
            (with_cache_put answer
               (with_cache_put (fun _ => Some (Thrown "QuotaExceededError")) example_env))
            (initial_world []))
     = Normal [x01; x02; x03; x04; x05]) /\
  console (snd (downloadFile "https://x/m.bin" "Phi model weights"
                  (with_cache_put (fun _ => Some (Thrown "QuotaExceededError")) example_env)
                  (initial_world [])))
    = [warn_cache_failed "Phi model weights" (Thrown "QuotaExceededError")] /\
  cache (snd (downloadFile "https://x/m.bin" "Phi model weights"
                (with_cache_put (fun _ => Some (Thrown "QuotaExceededError")) example_env)
                (initial_world [])))
    = [].
Proof.
  exact (cache_write_failure_is_absorbed
           (with_cache_put (fun _ => Some (Thrown "QuotaExceededError")) example_env)
           (initial_world []) "https://x/m.bin" "Phi model weights"
           (file_response (Some "5") [[x01; x02]; [x03; x04; x05]])
           [[x01; x02]; [x03; x04; x05]] (Thrown "QuotaExceededError")
           eq_refl eq_refl eq_refl (fun _ => eq_refl) eq_refl eq_refl eq_refl eq_refl).
Defined.

(** C7, as stated, fails, in two ways.  The percentage is computed in
    binary64 arithmetic: after 23 bytes out of 40 the worker reports 57,
    where [round(23 / 40 * 100)], the rounding of 57.5, is 58.  And an
    advertised total need not be positive: with a Content-Length of -5 the
    worker reports -40 and then -60, which decreases. *)
Lemma percentage_is_not_the_exact_rounding :
  percentages (outbox (snd (downloadFile "https://x/m.bin" "Phi model weights" halfway_env
                              (initial_world []))))
    = [57; 100]%Z /\
  exact_percent 23 40 = 58%Z /\
  advertised_total (file_response (Some "-5") [[x01; x02]; [x03]]) = Some (-5)%Z /\
  percentages (outbox (snd (downloadFile "https://x/m.bin" "Phi model weights" negative_env
                              (initial_world []))))
    = [-40; -60]%Z.
Proof. repeat split; vm_compute; reflexivity. Qed.

(** C7, amended: in a download whose response advertises a total that
    [parseInt] reads and that is not zero, a progress message follows every
    chunk that leaves [loaded] positive and carries
    [Math.round((loaded / total) * 100)] as binary64 arithmetic computes it.
    For downloads below 2^44 bytes (and a total below 2^53) this is an
    integer nearest to 100 * loaded / total, so it differs from the exact
    rounding only when that quantity lies halfway between two integers.
    When the total is positive the percentages of successive messages never
    decrease, and when it is the number of bytes received the last
    percentage is 100. *)
Theorem progress_percentages
        (env : Env) (w : World) (url description : string)
        (response : Response) (chunks : list Uint8Array) (failure : option js_error)
        (total : Z) :
  env_caches_open env = None ->
  env_cache_match env url = None ->
  cache_hit url w = false ->
  (cache_lookup url (cache w) <> None -> env_cache_delete env url = None) ->
  env_fetch env url = inr response ->
  ok response = true ->
  body response = Some (chunks, failure) ->
  advertised_total response = Some total ->
  total <> 0%Z ->
  let reports := map (progress_message description total) (reported chunks) in
  outbox (snd (downloadFile url description env w))
    = outbox (before_download url description w)
        ++ loading_progress (downloading description) :: reports /\
  ((Z.of_nat (total_length chunks) < 2 ^ 44)%Z -> (Z.abs total < 2 ^ 53)%Z ->
   Forall2 (fun loaded p => nearest_percent (Z.of_nat loaded) total p)
           (reported chunks) (percentages reports)) /\
  ((0 < total)%Z -> StronglySorted Z.le (percentages reports)) /\
  ((0 < total)%Z -> Z.of_nat (total_length chunks) = total ->
   last (percentages reports) 0%Z = 100%Z).
Proof.
  intros Hopen Hmatch Hhit Hdelete Hfetch Hok Hbody Hadvertised Htotal reports.
  assert (Hreports : reports = progress_messages description (Some total) chunks 0)
    by (symmetry; apply progress_messages_nonzero; exact Htotal).
  split; [|split; [|split]].
  - rewrite Hreports, <- Hadvertised,
      <- (download_outbox env (before_download url description w) url description
            response chunks failure Hfetch Hok Hbody).
    rewrite (downloadFile_downloads env w url description Hopen Hmatch Hhit Hdelete).
    destruct (download url description env (before_download url description w))
      as [[data|e] w']; reflexivity.
  - intros Hsize Hbound. unfold reports. rewrite percentages_of_reports.
    clear Hreports reports.
    pose proof (reported_bounds chunks) as Hall.
    induction (reported chunks) as [|l rest IH]; simpl; constructor.
    + apply percent_nearest; [|exact Htotal|exact Hbound].
      apply Forall_inv in Hall. lia.
    + apply IH. apply Forall_inv_tail in Hall. exact Hall.
  - intro Hpos. rewrite Hreports. apply percentages_sorted, Hpos.
  - intros Hpos Hall. rewrite Hreports.
    assert (Hne : chunks <> [])
      by (intro Hnil; rewrite Hnil in Hall; unfold total_length in Hall; simpl in Hall; lia).
    destruct (percentages_end description total chunks 0%nat Hpos Hne ltac:(lia))
      as [earlier Hearlier].
    rewrite Hearlier, last_last. simpl Nat.add. rewrite Hall.
    apply percent_complete, Hpos.
Qed.

Lemma progress_percentages_witness :
  outbox (snd (downloadFile "https://x/m.bin" "Phi model weights" example_env (initial_world [])))
    = [loading_progress (downloading "Phi model weights");
       loading_progress (downloading_percent "Phi model weights" 40 "0.0");
       loading_progress (downloading_percent "Phi model weights" 100 "0.0")] /\
  ((Z.of_nat (total_length [[x01; x02]; [x03; x04; x05]]) < 2 ^ 44)%Z ->
   (Z.abs 5 < 2 ^ 53)%Z ->
   Forall2 (fun loaded p => nearest_percent (Z.of_nat loaded) 5 p) [2; 5]%nat [40; 100]%Z) /\
  ((0 < 5)%Z -> StronglySorted Z.le [40; 100]%Z) /\
  ((0 < 5)%Z -> Z.of_nat (total_length [[x01; x02]; [x03; x04; x05]]) = 5%Z ->
   last [40; 100]%Z 0%Z = 100%Z).
Proof.
  apply (progress_percentages example_env (initial_world [])
           "https://x/m.bin" "Phi model weights"
           (file_response (Some "5") [[x01; x02]; [x03; x04; x05]])
           [[x01; x02]; [x03; x04; x05]] None 5%Z);
    try reflexivity; discriminate.
Defined.

(** At a value halfway between two integers the two roundings of binary64
    decide: 5 / 8 * 100 is 62.5 exactly and is reported as 63, while
    23 / 40 * 100 is computed as 57.49999999999999 and reported as 57.
    Both are integers nearest to the exact value. *)
Example percent_is_binary64 :
  percent 5 8 = 63%Z /\ exact_percent 5 8 = 63%Z /\
  percent 23 40 = 57%Z /\ exact_percent 23 40 = 58%Z /\
  nearest_percent 23 40 57 /\ nearest_percent 23 40 58.
Proof. repeat split; try reflexivity; unfold nearest_percent; simpl; lia. Qed.

(** ** What leaves the handles alone *)

Create HintDb keeps.

Lemma keeps_ret {A} (a : A) : keeps_handles (ret a).
Proof. intros env w. reflexivity. Qed.

Lemma keeps_throw {A} e : keeps_handles (@throw A e).
Proof. intros env w. reflexivity. Qed.

Lemma keeps_bind {A B} (m : M A) (k : A -> M B) :
  keeps_handles m -> (forall a, keeps_handles (k a)) -> keeps_handles (bind m k).
Proof.
  intros Hm Hk env w. unfold bind. specialize (Hm env w).
  destruct (m env w) as [[a|e] w']; simpl in Hm; [|exact Hm].
  rewrite <- Hm. apply Hk.
Qed.

Lemma keeps_try_catch {A} (m : M A) (h : js_error -> M A) :
  keeps_handles m -> (forall e, keeps_handles (h e)) -> keeps_handles (try_catch m h).
Proof.
  intros Hm Hh env w. unfold try_catch. specialize (Hm env w).
  destruct (m env w) as [[a|e] w']; simpl in Hm; [exact Hm|].
  rewrite <- Hm. apply Hh.
Qed.

Lemma keeps_postMessage m : keeps_handles (postMessage m).
Proof. intros env w. reflexivity. Qed.

Lemma keeps_console_write l : keeps_handles (console_write l).
Proof. intros env w. reflexivity. Qed.

Lemma keeps_record_call c : keeps_handles (record_call c).
Proof. intros env w. reflexivity. Qed.

Lemma keeps_get_cache : keeps_handles get_cache.
Proof. intros env w. reflexivity. Qed.

Lemma keeps_put_cache c : keeps_handles (put_cache c).
Proof. intros env w. reflexivity. Qed.

Lemma keeps_outside c answer : keeps_handles (outside c answer).
Proof. intros env w. unfold outside, bind, record_call. destruct (answer env); reflexivity. Qed.

Lemma keeps_member v k : keeps_handles (member v k).
Proof. intros env w. unfold member. destruct (nullish v); reflexivity. Qed.

#[local] Hint Resolve keeps_ret keeps_throw keeps_postMessage keeps_console_write
  keeps_record_call keeps_get_cache keeps_put_cache keeps_outside keeps_member : keeps.

Ltac keeps :=
  repeat (first [ solve [auto with keeps]
                | apply keeps_bind
                | apply keeps_try_catch
                | match goal with |- forall _, _ => intro end ]).

Lemma keeps_report_progress description total loaded :
  keeps_handles (report_progress description total loaded).
Proof.
  unfold report_progress. destruct total as [t|]; [|auto with keeps].
  destruct (negb (t =? 0)%Z && (0 <? loaded)%nat); auto with keeps.
Qed.

Lemma keeps_read_chunks description total incoming failure : forall chunks loaded,
  keeps_handles (read_chunks description total incoming failure chunks loaded).
Proof.
  induction incoming as [|value rest IH]; intros chunks loaded; simpl.
  - destruct failure; auto with keeps.
  - apply keeps_bind; [apply keeps_report_progress|intro; apply IH].
Qed.

Lemma keeps_do_fetch url : keeps_handles (do_fetch url).
Proof.
  intros env w. unfold do_fetch, bind, record_call. destruct (env_fetch env url); reflexivity.
Qed.

Lemma keeps_download url description : keeps_handles (download url description).
Proof.
  unfold download.
  apply keeps_bind; [auto with keeps|intros _].
  apply keeps_bind; [apply keeps_do_fetch|intro response].
  destruct (negb (ok response)); [auto with keeps|].
  apply keeps_bind; [destruct (body response); auto with keeps|intro stream].
  apply keeps_bind; [apply keeps_read_chunks|intro chunks].
  apply keeps_bind; [destruct (concatenate chunks); auto with keeps|intro result].
  keeps.
Qed.

Lemma keeps_downloadFile url description : keeps_handles (downloadFile url description).
Proof.
  unfold downloadFile.
  apply keeps_try_catch; [|keeps].
  do 3 (apply keeps_bind; [auto with keeps|intro]).
  apply keeps_bind.
  - destruct (cache_lookup url _) as [cachedResponse|]; [|auto with keeps].
    apply keeps_bind; [auto with keeps|intro].
    destruct (cached_ok cachedResponse); keeps.
  - intros [data|]; [auto with keeps|apply keeps_download].
Qed.

Lemma keeps_settle {A} (m : M A) : keeps_handles m -> keeps_handles (settle m).
Proof.
  intros Hm env w. unfold settle. specialize (Hm env w).
  destruct (m env w) as [r w']. exact Hm.
Qed.

Lemma keeps_settle_all {A} (ms : list (M A)) :
  Forall keeps_handles ms -> keeps_handles (settle_all ms).
Proof.
  induction 1 as [|m rest Hm _ IH]; simpl; [auto with keeps|].
  apply keeps_bind; [apply keeps_settle, Hm|intro].
  apply keeps_bind; [exact IH|intro]. auto with keeps.
Qed.

Lemma keeps_Promise_all {A} (ms : list (M A)) :
  Forall keeps_handles ms -> keeps_handles (Promise_all ms).
Proof.
  intro H. unfold Promise_all.
  apply keeps_bind; [apply keeps_settle_all, H|intro rs].
  destruct (collect rs); auto with keeps.
Qed.

Lemma keeps_downloads urls :
  Forall keeps_handles (map (fun p => downloadFile (fst p) (snd p)) urls).
Proof.
  induction urls; simpl; constructor; [apply keeps_downloadFile|assumption].
Qed.

Lemma construct_PhiModel_run weights tokenizer config quantized env w :
  construct_PhiModel weights tokenizer config quantized env w
  = match env_new_PhiModel env weights tokenizer config quantized with
    | Some e => (Throw e, called [new_PhiModel weights tokenizer config quantized] w)
    | None =>
        (Normal {| model_id := next_id w; model_weights := weights;
                   model_tokenizer := tokenizer; model_config := config;
                   model_quantized := quantized |},
         {| globals := globals w; cache := cache w; outbox := outbox w;
            calls := calls w ++ [new_PhiModel weights tokenizer config quantized];
            console := console w; next_id := S (next_id w) |})
    end.
Proof.
  unfold construct_PhiModel, outside, bind, record_call, fresh, ret.
  destruct (env_new_PhiModel env weights tokenizer config quantized); reflexivity.
Qed.

Lemma from_phi_model_run model env w :
  PhiAgentWrapper_from_phi_model model env w
  = match env_from_phi_model env model with
    | Some e => (Throw e, called [from_phi_model model] w)
    | None =>
        (Normal {| agent_id := next_id w; agent_model := model |},
         {| globals := globals w; cache := cache w; outbox := outbox w;
            calls := calls w ++ [from_phi_model model];
            console := console w; next_id := S (next_id w) |})
    end.
Proof.
  unfold PhiAgentWrapper_from_phi_model, outside, bind, record_call, fresh, ret.
  destruct (env_from_phi_model env model); reflexivity.
Qed.

(** ** loadModel, step by step *)

Lemma load_failed_run e env w :
  (console_write (error_load_failed e) ;;
   text <- toString e ;;
   postMessage (error text) ;;
   ret false) env w
  = load_failed e w.
Proof.
  unfold load_failed, bind, console_write. rewrite toString_run.
  destruct (lacks_toString e); reflexivity.
Qed.

Lemma url_of_run modelConfig key env w :
  url_of modelConfig key env w
  = if nullish modelConfig
    then (Throw (TypeError ("Cannot read properties of "
                            ++ match modelConfig with JNull => "null" | _ => "undefined" end)%string),
          w)
    else
      match to_string (prop modelConfig "base_url"), to_string (prop modelConfig key) with
      | Some base, Some name => (Normal (base ++ name)%string, w)
      | _, _ => (Throw (TypeError "Cannot convert object to primitive value"), w)
      end.
Proof.
  unfold url_of, bind, member, template.
  destruct (nullish modelConfig); [reflexivity|]. cbn [ret].
  destruct (to_string (prop modelConfig "base_url")); [|reflexivity]. cbn [ret].
  destruct (to_string (prop modelConfig key)); reflexivity.
Qed.

(** A configuration that cannot be read ends in the [catch] before any
    call is made. *)
Lemma loadModel_unreadable env w modelConfig :
  urls_of modelConfig = None ->
  exists what,
    loadModel modelConfig env w
    = load_failed (TypeError what) (posted [loading_progress starting_load] w).
Proof.
  intro Hurls. unfold urls_of in Hurls.
  unfold loadModel, try_catch. unfold bind at 1. rewrite postMessage_posted.
  unfold bind at 1. rewrite url_of_run.
  destruct (nullish modelConfig); [eexists; apply load_failed_run|].
  destruct (to_string (prop modelConfig "base_url")) as [base|];
    [|eexists; apply load_failed_run].
  destruct (to_string (prop modelConfig "model")) as [model|];
    [|eexists; apply load_failed_run].
  unfold bind at 1. rewrite url_of_run. cbn [nullish].
  destruct (nullish modelConfig) eqn:Hnull. { eexists; apply load_failed_run. }
  destruct (to_string (prop modelConfig "base_url")) as [base'|];
    [|eexists; apply load_failed_run].
  destruct (to_string (prop modelConfig "tokenizer")) as [tokenizer|];
    [|eexists; apply load_failed_run].
  unfold bind at 1. rewrite url_of_run, Hnull.
  destruct (to_string (prop modelConfig "base_url")) as [base''|];
    [|eexists; apply load_failed_run].
  destruct (to_string (prop modelConfig "config")) as [config|];
    [discriminate Hurls|eexists; apply load_failed_run].
Qed.

(** A configuration that can be read: the downloads, the constructor, the
    wrapper, and the [catch] for whichever of them fails. *)
Lemma loadModel_run env w modelConfig weightsUrl tokenizerUrl configUrl :
  urls_of modelConfig = Some (weightsUrl, tokenizerUrl, configUrl) ->
  loadModel modelConfig env w
  = match Promise_all [downloadFile weightsUrl "Phi model weights";
                       downloadFile tokenizerUrl "Phi tokenizer";
                       downloadFile configUrl "Phi config"] env
            (posted [loading_progress starting_load] w) with
    | (Throw e, w1) => load_failed e w1
    | (Normal buffers, w1) =>
        let weights := nth 0 buffers [] in
        let tokenizer := nth 1 buffers [] in
        let config := nth 2 buffers [] in
        let quantized := or_else (prop modelConfig "quantized") (JBool false) in
        let w2 := called [new_PhiModel weights tokenizer config quantized]
                    (posted [loading_progress initializing_model] w1) in
        match env_new_PhiModel env weights tokenizer config quantized with
        | Some e => load_failed e w2
        | None =>
            let m := {| model_id := next_id w1; model_weights := weights;
                        model_tokenizer := tokenizer; model_config := config;
                        model_quantized := quantized |} in
            let w3 := called [from_phi_model m]
                        (posted [loading_progress creating_agent]
                           (with_handles
                              {| wasmInitialized := wasmInitialized (globals w1);
                                 currentModel := Some m;
                                 currentAgent := currentAgent (globals w1) |}
                              (S (next_id w1)) w2)) in
            match env_from_phi_model env m with
            | Some e => load_failed e (logged [error_agent_wrapper e] w3)
            | None =>
                (Normal true,
                 posted [model_loaded]
                   (with_handles
                      {| wasmInitialized := wasmInitialized (globals w1);
                         currentModel := Some m;
                         currentAgent := Some {| agent_id := S (next_id w1); agent_model := m |} |}
                      (S (S (next_id w1))) w3))
            end
        end
    end.
Proof.
  intro Hurls. unfold urls_of in Hurls.
  destruct (nullish modelConfig) eqn:Hnull; [discriminate Hurls|].
  destruct (to_string (prop modelConfig "base_url")) as [base|] eqn:Hbase; [|discriminate Hurls].
  destruct (to_string (prop modelConfig "model")) as [model|] eqn:Hmodel; [|discriminate Hurls].
  destruct (to_string (prop modelConfig "tokenizer")) as [tokenizer|] eqn:Htokenizer;
    [|discriminate Hurls].
  destruct (to_string (prop modelConfig "config")) as [config|] eqn:Hconfig;
    [|discriminate Hurls].
  injection Hurls as <- <- <-.
  unfold loadModel, try_catch. unfold bind at 1. rewrite postMessage_posted.
  unfold bind at 1. rewrite url_of_run, Hnull, Hbase, Hmodel.
  unfold bind at 1. rewrite url_of_run, Hnull, Hbase, Htokenizer.
  unfold bind at 1. rewrite url_of_run, Hnull, Hbase, Hconfig.
  unfold bind at 1.
  destruct (Promise_all _ env _) as [[buffers|e] w1]; [|apply load_failed_run].
  cbv [bind postMessage member ret throw get_globals put_globals try_catch console_write
       set_globals].
  rewrite Hnull, construct_PhiModel_run.
  destruct (env_new_PhiModel env _ _ _ _) as [e|].
  { rewrite toString_run. unfold load_failed. destruct (lacks_toString e); reflexivity. }
  cbn [globals currentModel next_id]. rewrite from_phi_model_run.
  cbn [globals currentModel next_id].
  match goal with |- context [env_from_phi_model env ?m] =>
    destruct (env_from_phi_model env m) as [e|]
  end.
  - rewrite toString_run. unfold load_failed. destruct (lacks_toString e); reflexivity.
  - reflexivity.
Qed.

(** ** loadModel and the two handles *)

Lemma load_failed_handles e w :
  fst (load_failed e w) <> Normal true /\
  handles_of (snd (load_failed e w)) = handles_of w.
Proof.
  unfold load_failed. destruct (lacks_toString e); split; simpl; try reflexivity; discriminate.
Qed.

(** What a call of [loadModel] does to the handles. *)
Lemma loadModel_handles env w modelConfig :
  wasmInitialized (globals (snd (loadModel modelConfig env w))) = wasmInitialized (globals w) /\
  (fst (loadModel modelConfig env w) = Normal true /\
   (exists m a,
      currentModel (globals (snd (loadModel modelConfig env w))) = Some m /\
      currentAgent (globals (snd (loadModel modelConfig env w))) = Some a /\
      agent_model a = m /\
      model_id m = next_id w /\
      agent_id a = S (next_id w)) \/
   fst (loadModel modelConfig env w) <> Normal true /\
   currentAgent (globals (snd (loadModel modelConfig env w))) = currentAgent (globals w) /\
   (currentModel (globals (snd (loadModel modelConfig env w))) = currentModel (globals w) \/
    exists m e,
      currentModel (globals (snd (loadModel modelConfig env w))) = Some m /\
      model_id m = next_id w /\
      env_from_phi_model env m = Some e)).
Proof.
  destruct (urls_of modelConfig) as [[[u1 u2] u3]|] eqn:Hurls.
  2: { destruct (loadModel_unreadable env w modelConfig Hurls) as [what ->].
       split; [reflexivity|]. right. split; [discriminate|]. split; [reflexivity|].
       left. reflexivity. }
  rewrite (loadModel_run env w modelConfig u1 u2 u3 Hurls).
  match goal with
  | |- context [Promise_all ?ms env ?w0] =>
      pose proof (keeps_Promise_all ms
                    (keeps_downloads [(_, _); (_, _); (_, _)]) env w0) as Hkeep;
      destruct (Promise_all ms env w0) as [[buffers|e] w1]
  end; unfold handles_of in Hkeep; simpl in Hkeep; injection Hkeep as Hg Hn;
    rewrite <- Hg, <- Hn; clear Hg Hn.
  2: { destruct (load_failed_handles e w1) as [Hfst Hh]. unfold handles_of in Hh.
       injection Hh as Hg' _. rewrite Hg'.
       split; [reflexivity|]. right. split; [exact Hfst|]. split; [reflexivity|].
       left. reflexivity. }
  cbv zeta.
  destruct (env_new_PhiModel env _ _ _ _) as [e|].
  { match goal with |- context [load_failed e ?w2] =>
      destruct (load_failed_handles e w2) as [Hfst Hh] end.
    unfold handles_of in Hh. injection Hh as Hg' _. rewrite Hg'.
    split; [reflexivity|]. right. split; [exact Hfst|]. split; [reflexivity|].
    left. reflexivity. }
  match goal with
  | |- context [env_from_phi_model env ?m] =>
      destruct (env_from_phi_model env m) as [e|] eqn:Hwrap
  end.
  - match goal with |- context [load_failed e ?w3] =>
      destruct (load_failed_handles e w3) as [Hfst Hh] end.
    unfold handles_of in Hh. injection Hh as Hg' _. rewrite Hg'.
    split; [reflexivity|]. right. split; [exact Hfst|]. split; [reflexivity|].
    right. eexists. eexists. split; [reflexivity|]. split; [reflexivity|exact Hwrap].
  - split; [reflexivity|]. left. split; [reflexivity|].
    eexists. eexists. repeat split.
Qed.

(** A session reads only the agent: in two worlds with the same agent it
    returns normally after posting the same messages, making the same calls
    and logging the same lines, and it changes nothing else. *)
Lemma generateResponse_reads_the_agent env w1 w2 data :
  currentAgent (globals w1) = currentAgent (globals w2) ->
  exists ms cs ls,
    generateResponse data env w1 = (Normal tt, went ms cs ls w1) /\
    generateResponse data env w2 = (Normal tt, went ms cs ls w2).
Proof.
  intro Hsame.
  destruct (currentAgent (globals w1)) as [agent|] eqn:Hagent1.
  2: { exists [error no_agent_loaded], [], [].
       rewrite !went_posted.
       split; apply generateResponse_no_agent; congruence. }
  symmetry in Hsame.
  destruct (nullish data) eqn:Hdata.
  { exists [error (error_toString (TypeError ("Cannot read properties of "
              ++ match data with JNull => "null" | _ => "undefined" end)%string))], [],
           [error_generation (TypeError ("Cannot read properties of "
              ++ match data with JNull => "null" | _ => "undefined" end)%string)].
    split; unfold generateResponse;
      cbv [bind get_globals try_catch member template ret throw console_write toString
           postMessage has_toString];
      rewrite ?Hagent1, ?Hsame, Hdata; unfold went; rewrite app_nil_r; reflexivity. }
  destruct (to_string (prop data "prompt")) as [line|] eqn:Hline.
  2: { exists [error (error_toString (TypeError "Cannot convert object to primitive value"))], [],
              [error_generation (TypeError "Cannot convert object to primitive value")].
       split; unfold generateResponse;
         cbv [bind get_globals try_catch member template ret throw console_write toString
              postMessage has_toString];
         rewrite ?Hagent1, ?Hsame, Hdata, Hline; unfold went; rewrite app_nil_r; reflexivity. }
  assert (Hline' : to_string (prop data "prompt") <> None) by congruence.
  destruct (image_supplied data) eqn:Himage.
  { exists (map (fun word => token (word ++ " ") None) (split " " apology) ++ [stream_complete]),
           [], [].
    rewrite !went_posted.
    split; apply (generateResponse_image env _ agent); assumption. }
  rewrite (generateResponse_text env w1 agent data Hagent1 Hdata Hline' Himage).
  rewrite (generateResponse_text env w2 agent data Hsame Hdata Hline' Himage).
  cbv zeta.
  destruct (breaks_the_log _); eexists; eexists; eexists; split; reflexivity.
Qed.

(** C8: a successful [loadModel] replaces both handles, and no generation
    session can observe a partially replaced pair.  When [loadModel] returns
    true, [currentModel] is a model with a new handle number and
    [currentAgent] is an agent wrapping that very model.  When it does not
    (a download, the constructor or the wrapper failed, also between the two
    assignments), [currentAgent] is the agent from before the call.  And a
    session reads no other variable than [currentAgent]: in any two states
    of the worker with the same agent it returns normally after posting the
    same messages, making the same calls and logging the same lines, and it
    changes nothing; so after a call that did not succeed a session does
    exactly what it would have done before the call, whatever
    [currentModel] holds.  The same holds for a session that starts while
    [loadModel] waits at line 156: that state differs from the one before
    the call in [currentModel] only. *)
Theorem loadModel_replaces_both_handles_for_sessions
        (env : Env) (w : World) (modelConfig : jsval) :
  (fst (loadModel modelConfig env w) = Normal true ->
   exists m a,
     currentModel (globals (snd (loadModel modelConfig env w))) = Some m /\
     currentAgent (globals (snd (loadModel modelConfig env w))) = Some a /\
     agent_model a = m /\
     model_id m = next_id w /\
     agent_id a = S (next_id w)) /\
  (fst (loadModel modelConfig env w) <> Normal true ->
   currentAgent (globals (snd (loadModel modelConfig env w))) = currentAgent (globals w)) /\
  (forall (w1 w2 : World) (data : jsval),
     currentAgent (globals w1) = currentAgent (globals w2) ->
     exists ms cs ls,
       generateResponse data env w1 = (Normal tt, went ms cs ls w1) /\
       generateResponse data env w2 = (Normal tt, went ms cs ls w2)) /\
  (fst (loadModel modelConfig env w) <> Normal true ->
   forall data : jsval,
     exists ms cs ls,
       generateResponse data env w = (Normal tt, went ms cs ls w) /\
       generateResponse data env (snd (loadModel modelConfig env w))
       = (Normal tt, went ms cs ls (snd (loadModel modelConfig env w)))).
Proof.
  destruct (loadModel_handles env w modelConfig) as [_ Hhandles].
  assert (Hkept : fst (loadModel modelConfig env w) <> Normal true ->
                  currentAgent (globals (snd (loadModel modelConfig env w)))
                  = currentAgent (globals w)).
  { intro Hnot. destruct Hhandles as [[Htrue _]|[_ [Hagent _]]]; [contradiction|exact Hagent]. }
  split; [|split; [exact Hkept|split]].
  - intro Htrue. destruct Hhandles as [[_ Hboth]|[Hnot _]]; [exact Hboth|contradiction].
  - intros w1 w2 data. apply generateResponse_reads_the_agent.
  - intros Hnot data. apply generateResponse_reads_the_agent. symmetry. exact (Hkept Hnot).
Qed.

(** After a reload whose agent creation failed, [currentModel] is the model
    just built and [currentAgent] the agent of the first model; the session
    that follows goes through that agent, as it did before the reload. *)
Lemma loadModel_replaces_both_handles_for_sessions_witness :
  paired (globals loaded_world) = true /\
  fst (loadModel example_config refusing_env loaded_world) = Normal false /\
  currentAgent (globals (snd (loadModel example_config refusing_env loaded_world)))
    = Some example_agent /\
  paired (globals (snd (loadModel example_config refusing_env loaded_world))) = false /\
  exists ms cs ls,
    generateResponse (JObj [("prompt", JStr "hello")]) refusing_env loaded_world
      = (Normal tt, went ms cs ls loaded_world) /\
    generateResponse (JObj [("prompt", JStr "hello")]) refusing_env
                     (snd (loadModel example_config refusing_env loaded_world))
      = (Normal tt, went ms cs ls (snd (loadModel example_config refusing_env loaded_world))).
Proof.
  split; [vm_compute; reflexivity|]. split; [vm_compute; reflexivity|].
  split; [vm_compute; reflexivity|]. split; [vm_compute; reflexivity|].
  apply (proj2 (proj2 (proj2 (loadModel_replaces_both_handles_for_sessions
                                refusing_env loaded_world example_config)))).
  intro H. vm_compute in H. discriminate H.
Defined.

(** * Further properties *)

(** ** downloadFile: every way through the cache *)

Ltac enter_downloadFile :=
  unfold downloadFile, try_catch at 1; unfold bind at 1 2 3 4, outside, bind, record_call.

Lemma downloadFile_hit env w url description cachedResponse :
  env_caches_open env = None ->
  env_cache_match env url = None ->
  cache_lookup url (cache w) = Some cachedResponse ->
  cached_ok cachedResponse = true ->
  downloadFile url description env w
  = (Normal (cached_data cachedResponse),
     posted [loading_progress (loading_from_cache description)]
       (called [caches_open; cache_match url] w)).
Proof.
  intros Hopen Hmatch Hlookup Hok.
  enter_downloadFile. rewrite Hopen, Hmatch. unfold get_cache at 1. cbn [cache].
  rewrite Hlookup, Hok.
  unfold postMessage, ret, posted, called. simpl. rewrite <- app_assoc. reflexivity.
Qed.

Lemma downloadFile_open_fails env w url description e :
  env_caches_open env = Some e ->
  downloadFile url description env w
  = (Throw e, logged [error_download_failed description e] (called [caches_open] w)).
Proof.
  intro Hopen. enter_downloadFile. rewrite Hopen. reflexivity.
Qed.

Lemma downloadFile_match_fails env w url description e :
  env_caches_open env = None ->
  env_cache_match env url = Some e ->
  downloadFile url description env w
  = (Throw e,
     logged [error_download_failed description e] (called [caches_open; cache_match url] w)).
Proof.
  intros Hopen Hmatch. enter_downloadFile. rewrite Hopen, Hmatch.
  unfold logged, called, console_write, throw. simpl. rewrite <- app_assoc. reflexivity.
Qed.

Lemma downloadFile_delete_fails env w url description cachedResponse e :
  env_caches_open env = None ->
  env_cache_match env url = None ->
  cache_lookup url (cache w) = Some cachedResponse ->
  cached_ok cachedResponse = false ->
  env_cache_delete env url = Some e ->
  downloadFile url description env w
  = (Throw e,
     logged [warn_cached_not_ok url; error_download_failed description e]
       (called [caches_open; cache_match url; cache_delete url]
          (posted [loading_progress (loading_from_cache description)] w))).
Proof.
  intros Hopen Hmatch Hlookup Hok Hdelete.
  enter_downloadFile. rewrite Hopen, Hmatch. unfold get_cache at 1. cbn [cache].
  rewrite Hlookup, Hok, Hdelete.
  unfold postMessage, console_write, throw, ret, bind, posted, called, logged. simpl.
  rewrite <- !app_assoc. reflexivity.
Qed.

(** A download that throws has made its [fetch] and nothing more. *)
Lemma download_throws env w url description e :
  fst (download url description env w) = Throw e ->
  exists ms,
    snd (download url description env w) = called [fetch url] (posted ms w).
Proof.
  remember (download url description env w) as r eqn:Hr.
  unfold download, do_fetch in Hr. unfold bind at 1 2 3 in Hr.
  unfold record_call, postMessage in Hr.
  destruct (env_fetch env url) as [e'|response].
  { subst r. intros _. eexists. reflexivity. }
  destruct (negb (ok response)).
  { subst r. intros _. eexists. reflexivity. }
  destruct (body response) as [[chunks failure]|].
  2: { subst r. intros _. eexists. reflexivity. }
  unfold bind at 1, ret at 1 in Hr. cbn [fst snd] in Hr.
  unfold bind at 1 in Hr. rewrite read_chunks_run in Hr.
  destruct failure as [e'|].
  { subst r. intros _. eexists. unfold called, posted. simpl.
    rewrite <- app_assoc. reflexivity. }
  cbn [app] in Hr. rewrite concatenate_concat in Hr.
  unfold bind, ret, try_catch, outside, bind, record_call in Hr.
  subst r. destruct (env_cache_put env url); simpl; discriminate.
Qed.

(** X1: a usable cached response is returned as it is, after one "loading
    from cache" message and with no other call than [caches.open] and
    [cache.match]: no network request is made and the cache is unchanged. *)
Theorem cached_file_needs_no_network
        (env : Env) (w : World) (url description : string) (cachedResponse : CachedResponse) :
  env_caches_open env = None ->
  env_cache_match env url = None ->
  cache_lookup url (cache w) = Some cachedResponse ->
  cached_ok cachedResponse = true ->
  fst (downloadFile url description env w) = Normal (cached_data cachedResponse) /\
  outbox (snd (downloadFile url description env w))
    = outbox w ++ [loading_progress (loading_from_cache description)] /\
  calls (snd (downloadFile url description env w))
    = calls w ++ [caches_open; cache_match url] /\
  cache (snd (downloadFile url description env w)) = cache w.
Proof.
  intros Hopen Hmatch Hlookup Hok.
  rewrite (downloadFile_hit env w url description cachedResponse Hopen Hmatch Hlookup Hok).
  repeat split.
Qed.

Lemma cached_file_needs_no_network_witness :
  fst (downloadFile "https://x/m.bin" "Phi model weights" example_env loaded_world)
    = Normal [x01; x02; x03; x04; x05] /\
  outbox (snd (downloadFile "https://x/m.bin" "Phi model weights" example_env loaded_world))
    = outbox loaded_world ++ [loading_progress (loading_from_cache "Phi model weights")] /\
  calls (snd (downloadFile "https://x/m.bin" "Phi model weights" example_env loaded_world))
    = calls loaded_world ++ [caches_open; cache_match "https://x/m.bin"] /\
  cache (snd (downloadFile "https://x/m.bin" "Phi model weights" example_env loaded_world))
    = cache loaded_world.
Proof.
  exact (cached_file_needs_no_network example_env loaded_world
           "https://x/m.bin" "Phi model weights"
           {| cached_ok := true; cached_data := [x01; x02; x03; x04; x05] |}
           eq_refl eq_refl
           (@eq_refl _ (Some {| cached_ok := true; cached_data := [x01; x02; x03; x04; x05] |})
            <: cache_lookup "https://x/m.bin" (cache loaded_world)
               = Some {| cached_ok := true; cached_data := [x01; x02; x03; x04; x05] |})
           eq_refl).
Defined.

(** ** The cache as a store: what was put is what is found *)

Lemma cache_lookup_app url c c' :
  cache_lookup url (c ++ c')
  = match cache_lookup url c with
    | Some r => Some r
    | None => cache_lookup url c'
    end.
Proof.
  induction c as [|[k r] rest IH]; simpl; [reflexivity|].
  destruct (String.eqb k url); [reflexivity|exact IH].
Qed.

Lemma cache_lookup_remove url c : cache_lookup url (cache_remove url c) = None.
Proof.
  unfold cache_remove.
  induction c as [|[k r] rest IH]; simpl; [reflexivity|].
  destruct (String.eqb k url) eqn:Hk; simpl; [exact IH|].
  rewrite Hk. exact IH.
Qed.

Lemma cache_lookup_remove_other url url' c :
  String.eqb url' url = false ->
  cache_lookup url (cache_remove url' c) = cache_lookup url c.
Proof.
  intro Hne. unfold cache_remove.
  induction c as [|[k r] rest IH]; simpl; [reflexivity|].
  destruct (String.eqb k url') eqn:Hk; simpl.
  - apply String.eqb_eq in Hk. subst k. rewrite Hne. exact IH.
  - destruct (String.eqb k url); [reflexivity|exact IH].
Qed.

Lemma cache_lookup_store url r c : cache_lookup url (cache_store url r c) = Some r.
Proof.
  unfold cache_store. rewrite cache_lookup_app, cache_lookup_remove. simpl.
  now rewrite String.eqb_refl.
Qed.

Lemma cache_lookup_store_other url url' r c :
  String.eqb url' url = false ->
  cache_lookup url (cache_store url' r c) = cache_lookup url c.
Proof.
  intro Hne. unfold cache_store.
  rewrite cache_lookup_app, cache_lookup_remove_other by exact Hne.
  simpl. rewrite Hne. destruct (cache_lookup url c); reflexivity.
Qed.

Lemma cache_remove_miss url c : cache_lookup url c = None -> cache_remove url c = c.
Proof.
  unfold cache_remove.
  induction c as [|[k r] rest IH]; simpl; [reflexivity|].
  destruct (String.eqb k url); [discriminate|].
  intro H. simpl. now rewrite IH.
Qed.

(** The cache when a download of [url] starts holds nothing for [url]. *)
Lemma before_download_miss url description w :
  cache_lookup url (cache (before_download url description w)) = None.
Proof.
  unfold before_download.
  destruct (cache_lookup url (cache w)) eqn:H; simpl; [apply cache_lookup_remove|exact H].
Qed.

(** X2: a file that was downloaded and written to the cache is served from
    the cache the next time: the second [downloadFile] for the same URL
    returns the same bytes, makes no network request, and leaves the cache
    as the first call left it. *)
Theorem second_download_is_a_cache_hit
        (env : Env) (w : World) (url description description' : string)
        (response : Response) (chunks : list Uint8Array) :
  env_caches_open env = None ->
  env_cache_match env url = None ->
  cache_hit url w = false ->
  (cache_lookup url (cache w) <> None -> env_cache_delete env url = None) ->
  env_fetch env url = inr response ->
  ok response = true ->
  body response = Some (chunks, None) ->
  env_cache_put env url = None ->
  fst (downloadFile url description env w) = Normal (List.concat chunks) /\
  fst (downloadFile url description' env (snd (downloadFile url description env w)))
    = Normal (List.concat chunks) /\
  calls (snd (downloadFile url description' env (snd (downloadFile url description env w))))
    = calls (snd (downloadFile url description env w)) ++ [caches_open; cache_match url] /\
  cache (snd (downloadFile url description' env (snd (downloadFile url description env w))))
    = cache (snd (downloadFile url description env w)).
Proof.
  intros Hopen Hmatch Hhit Hdelete Hfetch Hok Hbody Hput.
  rewrite (downloadFile_downloads env w url description Hopen Hmatch Hhit Hdelete).
  rewrite (download_run env _ url description response chunks Hfetch Hok Hbody).
  rewrite Hput. cbv zeta.
  match goal with
  | |- context [downloadFile url description' env ?w1] =>
      assert (Hstored : cache_lookup url (cache w1)
                        = Some {| cached_ok := true; cached_data := List.concat chunks |})
        by (simpl; apply cache_lookup_store);
      rewrite (downloadFile_hit env w1 url description' _ Hopen Hmatch Hstored eq_refl)
  end.
  repeat split.
Qed.

Lemma second_download_is_a_cache_hit_witness :
  fst (downloadFile "https://x/m.bin" "weights" example_env (initial_world []))
    = Normal [x01; x02; x03; x04; x05] /\
  fst (downloadFile "https://x/m.bin" "weights again" example_env
         (snd (downloadFile "https://x/m.bin" "weights" example_env (initial_world []))))
    = Normal [x01; x02; x03; x04; x05] /\
  calls (snd (downloadFile "https://x/m.bin" "weights again" example_env
                (snd (downloadFile "https://x/m.bin" "weights" example_env (initial_world [])))))
    = calls (snd (downloadFile "https://x/m.bin" "weights" example_env (initial_world [])))
        ++ [caches_open; cache_match "https://x/m.bin"] /\
  cache (snd (downloadFile "https://x/m.bin" "weights again" example_env
                (snd (downloadFile "https://x/m.bin" "weights" example_env (initial_world [])))))
    = cache (snd (downloadFile "https://x/m.bin" "weights" example_env (initial_world []))).
Proof.
  exact (second_download_is_a_cache_hit example_env (initial_world [])
           "https://x/m.bin" "weights" "weights again"
           (file_response (Some "5") [[x01; x02]; [x03; x04; x05]])
           [[x01; x02]; [x03; x04; x05]]
           eq_refl eq_refl eq_refl (fun _ => eq_refl) eq_refl eq_refl eq_refl eq_refl).
Defined.

(** X3: a cached response that is not ok is deleted and downloaded anew:
    the calls are [caches.open], [cache.match], [cache.delete], [fetch] and
    [cache.put] in this order, one [console.warn] line names the URL, and
    afterwards the cache answers for the URL with the downloaded bytes. *)
Theorem stale_entry_is_replaced
        (env : Env) (w : World) (url description : string)
        (cachedResponse : CachedResponse) (response : Response) (chunks : list Uint8Array) :
  env_caches_open env = None ->
  env_cache_match env url = None ->
  cache_lookup url (cache w) = Some cachedResponse ->
  cached_ok cachedResponse = false ->
  env_cache_delete env url = None ->
  env_fetch env url = inr response ->
  ok response = true ->
  body response = Some (chunks, None) ->
  env_cache_put env url = None ->
  fst (downloadFile url description env w) = Normal (List.concat chunks) /\
  calls (snd (downloadFile url description env w))
    = calls w ++ [caches_open; cache_match url; cache_delete url; fetch url;
                  cache_put url (List.concat chunks)] /\
  console (snd (downloadFile url description env w)) = console w ++ [warn_cached_not_ok url] /\
  cache (snd (downloadFile url description env w))
    = cache_remove url (cache w)
        ++ [(url, {| cached_ok := true; cached_data := List.concat chunks |})] /\
  cache_lookup url (cache (snd (downloadFile url description env w)))
    = Some {| cached_ok := true; cached_data := List.concat chunks |}.
Proof.
  intros Hopen Hmatch Hlookup Hstale Hdelete Hfetch Hok Hbody Hput.
  assert (Hhit : cache_hit url w = false) by (unfold cache_hit; now rewrite Hlookup).
  rewrite (downloadFile_downloads env w url description Hopen Hmatch Hhit (fun _ => Hdelete)).
  rewrite (download_run env _ url description response chunks Hfetch Hok Hbody).
  rewrite Hput. unfold before_download. rewrite Hlookup. cbv zeta.
  split; [reflexivity|]. split; [simpl; now rewrite <- !app_assoc|].
  split; [reflexivity|]. split.
  - simpl. unfold cache_store. now rewrite cache_remove_miss by apply cache_lookup_remove.
  - simpl. apply cache_lookup_store.
Qed.

Lemma stale_entry_is_replaced_witness :
  fst (downloadFile "https://x/m.bin" "weights" example_env stale_world)
    = Normal [x01; x02; x03; x04; x05] /\
  calls (snd (downloadFile "https://x/m.bin" "weights" example_env stale_world))
    = [caches_open; cache_match "https://x/m.bin"; cache_delete "https://x/m.bin";
       fetch "https://x/m.bin"; cache_put "https://x/m.bin" [x01; x02; x03; x04; x05]] /\
  console (snd (downloadFile "https://x/m.bin" "weights" example_env stale_world))
    = [warn_cached_not_ok "https://x/m.bin"] /\
  cache (snd (downloadFile "https://x/m.bin" "weights" example_env stale_world))
    = [("https://x/m.bin", {| cached_ok := true; cached_data := [x01; x02; x03; x04; x05] |})] /\
  cache_lookup "https://x/m.bin"
               (cache (snd (downloadFile "https://x/m.bin" "weights" example_env stale_world)))
    = Some {| cached_ok := true; cached_data := [x01; x02; x03; x04; x05] |}.
Proof.
  exact (stale_entry_is_replaced example_env stale_world "https://x/m.bin" "weights"
           {| cached_ok := false; cached_data := [x00] |}
           (file_response (Some "5") [[x01; x02]; [x03; x04; x05]])
           [[x01; x02]; [x03; x04; x05]]
           eq_refl eq_refl eq_refl eq_refl eq_refl eq_refl eq_refl eq_refl eq_refl).
Defined.

(** X4: when the cached response is not ok and [cache.delete] fails,
    [downloadFile] throws the error of the delete: no network request is
    made and the stale entry stays in the cache. *)
Theorem stale_entry_that_cannot_be_deleted
        (env : Env) (w : World) (url description : string)
        (cachedResponse : CachedResponse) (e : js_error) :
  env_caches_open env = None ->
  env_cache_match env url = None ->
  cache_lookup url (cache w) = Some cachedResponse ->
  cached_ok cachedResponse = false ->
  env_cache_delete env url = Some e ->
  fst (downloadFile url description env w) = Throw e /\
  calls (snd (downloadFile url description env w))
    = calls w ++ [caches_open; cache_match url; cache_delete url] /\
  cache (snd (downloadFile url description env w)) = cache w /\
  console (snd (downloadFile url description env w))
    = console w ++ [warn_cached_not_ok url; error_download_failed description e].
Proof.
  intros Hopen Hmatch Hlookup Hstale Hdelete.
  rewrite (downloadFile_delete_fails env w url description cachedResponse e
             Hopen Hmatch Hlookup Hstale Hdelete).
  repeat split.
Qed.

Lemma stale_entry_that_cannot_be_deleted_witness :
  fst (downloadFile "https://x/m.bin" "weights"
         (with_cache_delete (fun _ => Some (Thrown "InvalidStateError")) example_env)
         stale_world)
    = Throw (Thrown "InvalidStateError") /\
  calls (snd (downloadFile "https://x/m.bin" "weights"
                (with_cache_delete (fun _ => Some (Thrown "InvalidStateError")) example_env)
                stale_world))
    = [caches_open; cache_match "https://x/m.bin"; cache_delete "https://x/m.bin"] /\
  cache (snd (downloadFile "https://x/m.bin" "weights"
                (with_cache_delete (fun _ => Some (Thrown "InvalidStateError")) example_env)
                stale_world))
    = cache stale_world /\
  console (snd (downloadFile "https://x/m.bin" "weights"
                  (with_cache_delete (fun _ => Some (Thrown "InvalidStateError")) example_env)
                  stale_world))
    = [warn_cached_not_ok "https://x/m.bin";
       error_download_failed "weights" (Thrown "InvalidStateError")].
Proof.
  exact (stale_entry_that_cannot_be_deleted
           (with_cache_delete (fun _ => Some (Thrown "InvalidStateError")) example_env)
           stale_world "https://x/m.bin" "weights"
           {| cached_ok := false; cached_data := [x00] |} (Thrown "InvalidStateError")
           eq_refl eq_refl eq_refl eq_refl eq_refl).
Defined.

(** X5: whenever [downloadFile] throws, the error is the last line of the
    console ([console.error] of line 119, then the rethrow), no [cache.put]
    was called, and the cache holds what it held before, less a stale entry
    for the URL if one was deleted: a failed download writes nothing. *)
Theorem failed_download_writes_nothing
        (env : Env) (w : World) (url description : string) (e : js_error) :
  fst (downloadFile url description env w) = Throw e ->
  (exists earlier,
     console (snd (downloadFile url description env w))
     = console w ++ earlier ++ [error_download_failed description e]) /\
  (exists cs,
     calls (snd (downloadFile url description env w)) = calls w ++ cs /\
     forallb (fun c => negb (is_cache_put c)) cs = true) /\
  (cache (snd (downloadFile url description env w)) = cache w \/
   cache (snd (downloadFile url description env w)) = cache_remove url (cache w)).
Proof.
  destruct (env_caches_open env) as [e0|] eqn:Hopen.
  { rewrite (downloadFile_open_fails env w url description e0 Hopen).
    intro H; injection H as <-.
    split; [exists []; reflexivity|]. split; [eexists; split; reflexivity|].
    left; reflexivity. }
  destruct (env_cache_match env url) as [e0|] eqn:Hmatch.
  { rewrite (downloadFile_match_fails env w url description e0 Hopen Hmatch).
    intro H; injection H as <-.
    split; [exists []; reflexivity|]. split; [eexists; split; reflexivity|].
    left; reflexivity. }
  destruct (cache_lookup url (cache w)) as [cachedResponse|] eqn:Hlookup.
  - destruct (cached_ok cachedResponse) eqn:Hok.
    { rewrite (downloadFile_hit env w url description cachedResponse
                 Hopen Hmatch Hlookup Hok).
      discriminate. }
    destruct (env_cache_delete env url) as [e0|] eqn:Hdelete.
    { rewrite (downloadFile_delete_fails env w url description cachedResponse e0
                 Hopen Hmatch Hlookup Hok Hdelete).
      intro H; injection H as <-.
      split; [exists [warn_cached_not_ok url]; reflexivity|].
      split; [eexists; split; reflexivity|]. left; reflexivity. }
    assert (Hhit : cache_hit url w = false) by (unfold cache_hit; now rewrite Hlookup).
    rewrite (downloadFile_downloads env w url description Hopen Hmatch Hhit (fun _ => Hdelete)).
    pose proof (download_throws env (before_download url description w) url description)
      as Hthrows.
    destruct (download url description env (before_download url description w))
      as [[data|e0] w'] eqn:Hdownload; [discriminate|].
    intro H; injection H as <-.
    destruct (Hthrows e0 eq_refl) as [ms Hw']. simpl in Hw'. subst w'.
    unfold before_download. rewrite Hlookup.
    split; [exists [warn_cached_not_ok url]; simpl; now rewrite <- app_assoc|].
    split; [|right; reflexivity].
    exists [caches_open; cache_match url; cache_delete url; fetch url].
    split; [simpl; now rewrite <- !app_assoc|reflexivity].
  - assert (Hhit : cache_hit url w = false) by (unfold cache_hit; now rewrite Hlookup).
    rewrite (downloadFile_downloads env w url description Hopen Hmatch Hhit)
      by congruence.
    pose proof (download_throws env (before_download url description w) url description)
      as Hthrows.
    destruct (download url description env (before_download url description w))
      as [[data|e0] w'] eqn:Hdownload; [discriminate|].
    intro H; injection H as <-.
    destruct (Hthrows e0 eq_refl) as [ms Hw']. simpl in Hw'. subst w'.
    unfold before_download. rewrite Hlookup.
    split; [exists []; reflexivity|].
    split; [|left; reflexivity].
    exists [caches_open; cache_match url; fetch url].
    split; [simpl; now rewrite <- !app_assoc|reflexivity].
Qed.

Lemma failed_download_writes_nothing_witness :
  (exists earlier,
     console (snd (downloadFile "https://y/m.bin" "weights" example_env (initial_world [])))
     = console (initial_world []) ++ earlier
         ++ [error_download_failed "weights" (HttpError 404 "Not Found" "https://y/m.bin")]) /\
  (exists cs,
     calls (snd (downloadFile "https://y/m.bin" "weights" example_env (initial_world [])))
     = calls (initial_world []) ++ cs /\
     forallb (fun c => negb (is_cache_put c)) cs = true) /\
  (cache (snd (downloadFile "https://y/m.bin" "weights" example_env (initial_world [])))
   = cache (initial_world []) \/
   cache (snd (downloadFile "https://y/m.bin" "weights" example_env (initial_world [])))
   = cache_remove "https://y/m.bin" (cache (initial_world []))).
Proof.
  exact (failed_download_writes_nothing example_env (initial_world [])
           "https://y/m.bin" "weights" (HttpError 404 "Not Found" "https://y/m.bin") eq_refl).
Defined.

(** ** Progress without a total, and the range of the percentage *)

Lemma progress_messages_without_total description total chunks : forall loaded,
  total = None \/ total = Some 0%Z ->
  progress_messages description total chunks loaded = [].
Proof.
  unfold progress_messages.
  induction chunks as [|value rest IH]; intros loaded Htotal; simpl; [reflexivity|].
  rewrite IH by exact Htotal.
  destruct Htotal as [-> | ->]; reflexivity.
Qed.

(** The outer [catch] of [downloadFile] posts nothing. *)
Lemma downloadFile_outbox env w url description :
  env_caches_open env = None ->
  env_cache_match env url = None ->
  cache_hit url w = false ->
  (cache_lookup url (cache w) <> None -> env_cache_delete env url = None) ->
  outbox (snd (downloadFile url description env w))
  = outbox (snd (download url description env (before_download url description w))).
Proof.
  intros Hopen Hmatch Hhit Hdelete.
  rewrite (downloadFile_downloads env w url description Hopen Hmatch Hhit Hdelete).
  destruct (download url description env (before_download url description w))
    as [[data|e] w']; reflexivity.
Qed.

(** X6: when the response advertises no usable length (no Content-Length
    header, one that [parseInt] cannot read, or a length of zero), the
    download posts its "Downloading" message and no percentage at all,
    however many chunks arrive. *)
Theorem no_total_no_percentage
        (env : Env) (w : World) (url description : string)
        (response : Response) (chunks : list Uint8Array) (failure : option js_error) :
  env_caches_open env = None ->
  env_cache_match env url = None ->
  cache_hit url w = false ->
  (cache_lookup url (cache w) <> None -> env_cache_delete env url = None) ->
  env_fetch env url = inr response ->
  ok response = true ->
  body response = Some (chunks, failure) ->
  advertised_total response = None \/ advertised_total response = Some 0%Z ->
  outbox (snd (downloadFile url description env w))
    = outbox (before_download url description w) ++ [loading_progress (downloading description)] /\
  (content_length response = None -> advertised_total response = None).
Proof.
  intros Hopen Hmatch Hhit Hdelete Hfetch Hok Hbody Htotal.
  split.
  - rewrite (downloadFile_outbox env w url description Hopen Hmatch Hhit Hdelete).
    rewrite (download_outbox env _ url description response chunks failure Hfetch Hok Hbody).
    now rewrite (progress_messages_without_total description _ chunks 0 Htotal).
  - intro Hnone. unfold advertised_total. rewrite Hnone. reflexivity.
Qed.

Lemma no_total_no_percentage_witness :
  outbox (snd (downloadFile "https://x/t.bin" "Phi tokenizer" example_env (initial_world [])))
    = [loading_progress (downloading "Phi tokenizer")] /\
  (content_length (file_response None [[x0a]]) = None ->
   advertised_total (file_response None [[x0a]]) = None).
Proof.
  exact (no_total_no_percentage example_env (initial_world [])
           "https://x/t.bin" "Phi tokenizer" (file_response None [[x0a]]) [[x0a]] None
           eq_refl eq_refl eq_refl (fun _ => eq_refl) eq_refl eq_refl eq_refl
           (or_introl eq_refl)).
Defined.

(** White space before the digits is skipped, the no-break space (code
    unit 160) included; a length that only holds white space is not read. *)
Example parseInt_skips_white_space :
  parseInt (String (ascii_of_nat 160) (String (ascii_of_nat 9) " 42")) = Some 42%Z /\
  parseInt (String (ascii_of_nat 160) " ") = None.
Proof. split; reflexivity. Qed.

Lemma percent_nothing total : percent 0 total = 0%Z.
Proof.
  unfold percent, Double.mul, Double.div.
  assert (H0 : Double.of_Z 0 = 0%Q) by reflexivity.
  rewrite H0.
  rewrite (RN_zero (0 / Double.of_Z total)) by (unfold Qdiv; ring).
  rewrite (RN_zero (0 * Double.of_Z 100)) by ring.
  reflexivity.
Qed.

Lemma percent_range loaded total :
  (0 <= loaded <= total)%Z -> (0 < total)%Z -> (0 <= percent loaded total <= 100)%Z.
Proof.
  intros Hloaded Htotal.
  split.
  - rewrite <- (percent_nothing total). apply percent_mono; lia.
  - rewrite <- (percent_complete total Htotal). apply percent_mono; lia.
Qed.

Lemma percentages_in_range description total chunks : forall loaded,
  (0 < total)%Z ->
  (Z.of_nat (loaded + total_length chunks) <= total)%Z ->
  Forall (fun p => (0 <= p <= 100)%Z)
         (percentages (progress_messages description (Some total) chunks loaded)).
Proof.
  unfold progress_messages.
  induction chunks as [|value rest IH]; intros loaded Htotal Hall; simpl; [constructor|].
  change (total_length (value :: rest)) with (List.length value + total_length rest)%nat in Hall.
  rewrite percentages_app. apply Forall_app. split.
  - destruct (negb (total =? 0)%Z && (0 <? loaded + List.length value)%nat); simpl;
      constructor; [|constructor].
    apply percent_range; lia.
  - apply IH; [exact Htotal|lia].
Qed.

(** X7: when the response advertises a positive total and the body does
    not deliver more bytes than advertised, every percentage the download
    reports lies between 0 and 100. *)
Theorem percentages_stay_within_0_and_100
        (env : Env) (w : World) (url description : string)
        (response : Response) (chunks : list Uint8Array) (failure : option js_error)
        (total : Z) :
  env_caches_open env = None ->
  env_cache_match env url = None ->
  cache_hit url w = false ->
  (cache_lookup url (cache w) <> None -> env_cache_delete env url = None) ->
  env_fetch env url = inr response ->
  ok response = true ->
  body response = Some (chunks, failure) ->
  advertised_total response = Some total ->
  (0 < total)%Z ->
  (Z.of_nat (total_length chunks) <= total)%Z ->
  exists reports,
    outbox (snd (downloadFile url description env w))
      = outbox (before_download url description w)
          ++ loading_progress (downloading description) :: reports /\
    Forall (fun p => (0 <= p <= 100)%Z) (percentages reports).
Proof.
  intros Hopen Hmatch Hhit Hdelete Hfetch Hok Hbody Hadvertised Htotal Hall.
  exists (progress_messages description (Some total) chunks 0). split.
  - rewrite (downloadFile_outbox env w url description Hopen Hmatch Hhit Hdelete).
    rewrite (download_outbox env _ url description response chunks failure Hfetch Hok Hbody).
    now rewrite Hadvertised.
  - apply percentages_in_range; [exact Htotal|exact Hall].
Qed.

Lemma percentages_stay_within_0_and_100_witness :
  exists reports,
    outbox (snd (downloadFile "https://x/m.bin" "weights" example_env (initial_world [])))
      = outbox (before_download "https://x/m.bin" "weights" (initial_world []))
          ++ loading_progress (downloading "weights") :: reports /\
    Forall (fun p => (0 <= p <= 100)%Z) (percentages reports).
Proof.
  apply (percentages_stay_within_0_and_100 example_env (initial_world [])
           "https://x/m.bin" "weights"
           (file_response (Some "5") [[x01; x02]; [x03; x04; x05]])
           [[x01; x02]; [x03; x04; x05]] None 5%Z);
    reflexivity.
Defined.

(** ** generateResponse: every way through a session *)

Lemma numbered_tokens tokens : forall n, forallb is_token (numbered tokens n) = true.
Proof. induction tokens; intro n; simpl; auto. Qed.

Lemma apology_tokens words :
  forallb is_token (map (fun word => token (word ++ " ") None) words) = true.
Proof. induction words; simpl; auto. Qed.

(** X8: a generation request that arrives while no agent is loaded is
    answered by the single message [error 'No agent loaded']: no token, no
    [stream_complete], no call to the engine, no change of state.  This is
    what the router does with a [stream_tokens] command on a worker that
    has not loaded a model. *)
Theorem no_agent_no_session (env : Env) (w : World) (data event_data : jsval) :
  currentAgent (globals w) = None ->
  prop event_data "type" = JStr "stream_tokens" ->
  generateResponse data env w = (Normal tt, posted [error no_agent_loaded] w) /\
  fst (onmessage event_data env w) = Normal tt /\
  outbox (snd (onmessage event_data env w)) = outbox w ++ [error no_agent_loaded] /\
  calls (snd (onmessage event_data env w)) = calls w /\
  globals (snd (onmessage event_data env w)) = globals w /\
  cache (snd (onmessage event_data env w)) = cache w.
Proof.
  intros Hagent Htype.
  split; [exact (generateResponse_no_agent env w data Hagent)|].
  destruct event_data as [| |b|z| |s|props]; try discriminate Htype.
  unfold onmessage, bind, member. cbn [nullish ret].
  rewrite Htype. cbn [strict_equal String.eqb Ascii.eqb Bool.eqb].
  rewrite (generateResponse_no_agent env w _ Hagent).
  repeat split.
Qed.

Lemma no_agent_no_session_witness :
  generateResponse (JObj [("prompt", JStr "hello")]) example_env (initial_world [])
    = (Normal tt, posted [error no_agent_loaded] (initial_world [])) /\
  fst (onmessage (event "stream_tokens" (JObj [("prompt", JStr "hello")])) example_env
         (initial_world [])) = Normal tt /\
  outbox (snd (onmessage (event "stream_tokens" (JObj [("prompt", JStr "hello")])) example_env
                 (initial_world [])))
    = outbox (initial_world []) ++ [error no_agent_loaded] /\
  calls (snd (onmessage (event "stream_tokens" (JObj [("prompt", JStr "hello")])) example_env
                (initial_world []))) = calls (initial_world []) /\
  globals (snd (onmessage (event "stream_tokens" (JObj [("prompt", JStr "hello")])) example_env
                  (initial_world []))) = globals (initial_world []) /\
  cache (snd (onmessage (event "stream_tokens" (JObj [("prompt", JStr "hello")])) example_env
                (initial_world []))) = cache (initial_world []).
Proof.
  exact (no_agent_no_session example_env (initial_world [])
           (JObj [("prompt", JStr "hello")])
           (event "stream_tokens" (JObj [("prompt", JStr "hello")]))
           eq_refl eq_refl).
Defined.

(** X9: with an agent loaded, a payload that is null or undefined cannot
    be destructured (line 181): the session ends with one [error] message
    carrying a TypeError and one [console.error] line, and with neither a
    token, nor a [stream_complete], nor a call to the engine. *)
Theorem null_payload_ends_in_error
        (env : Env) (w : World) (agent : PhiAgentWrapper) (data : jsval) :
  currentAgent (globals w) = Some agent ->
  nullish data = true ->
  exists what,
    fst (generateResponse data env w) = Normal tt /\
    outbox (snd (generateResponse data env w))
      = outbox w ++ [error (error_toString (TypeError what))] /\
    console (snd (generateResponse data env w))
      = console w ++ [error_generation (TypeError what)] /\
    calls (snd (generateResponse data env w)) = calls w.
Proof.
  intros Hagent Hdata.
  destruct (generateResponse_nullish env w agent data Hagent Hdata) as [what Hrun].
  exists what. rewrite Hrun. repeat split. simpl. apply app_nil_r.
Qed.

Lemma null_payload_ends_in_error_witness :
  exists what,
    fst (generateResponse JUndefined example_env loaded_world) = Normal tt /\
    outbox (snd (generateResponse JUndefined example_env loaded_world))
      = outbox loaded_world ++ [error (error_toString (TypeError what))] /\
    console (snd (generateResponse JUndefined example_env loaded_world))
      = console loaded_world ++ [error_generation (TypeError what)] /\
    calls (snd (generateResponse JUndefined example_env loaded_world)) = calls loaded_world.
Proof.
  exact (null_payload_ends_in_error example_env loaded_world example_agent JUndefined
           eq_refl eq_refl).
Defined.

(** X10: whatever the payload, the state and the engine's answer, a
    generation session never throws, never changes the three variables or
    the cache, and makes at most one call to the outside: a
    [get_response_stream] on the agent that was current when it started. *)
Theorem session_is_read_only (env : Env) (w : World) (data : jsval) :
  fst (generateResponse data env w) = Normal tt /\
  globals (snd (generateResponse data env w)) = globals w /\
  cache (snd (generateResponse data env w)) = cache w /\
  (calls (snd (generateResponse data env w)) = calls w \/
   exists agent text,
     currentAgent (globals w) = Some agent /\
     calls (snd (generateResponse data env w)) = calls w ++ [get_response_stream agent text]).
Proof.
  destruct (currentAgent (globals w)) as [agent|] eqn:Hagent.
  2: { rewrite (generateResponse_no_agent env w data Hagent).
       repeat split. left. reflexivity. }
  destruct (nullish data) eqn:Hdata.
  { destruct (generateResponse_nullish env w agent data Hagent Hdata) as [what ->].
    repeat split. left. simpl. apply app_nil_r. }
  destruct (to_string (prop data "prompt")) as [line|] eqn:Hline.
  2: { destruct (generateResponse_unprintable env w agent data Hagent Hdata Hline) as [what ->].
       repeat split. left. simpl. apply app_nil_r. }
  assert (Hline' : to_string (prop data "prompt") <> None) by congruence.
  destruct (image_supplied data) eqn:Himage.
  { rewrite (generateResponse_image env w agent data Hagent Hline' Himage).
    repeat split. left. reflexivity. }
  rewrite (generateResponse_text env w agent data Hagent Hdata Hline' Himage). cbv zeta.
  destruct (breaks_the_log _);
    (split; [reflexivity|split; [reflexivity|split; [reflexivity|]]]);
    (destruct (prop data "prompt") as [| |b|z| |text|props];
     try (left; simpl; apply app_nil_r);
     right; exists agent; exists text; split; reflexivity).
Qed.

(** X11: every generation session ends with exactly one terminal message,
    [stream_complete] or [error], posted last; everything it posts before
    is a [token]. *)
Theorem session_ends_with_one_terminal_message (env : Env) (w : World) (data : jsval) :
  exists tokens terminal,
    outbox (snd (generateResponse data env w)) = outbox w ++ tokens ++ [terminal] /\
    forallb is_token tokens = true /\
    is_terminal terminal = true.
Proof.
  destruct (currentAgent (globals w)) as [agent|] eqn:Hagent.
  2: { rewrite (generateResponse_no_agent env w data Hagent).
       exists [], (error no_agent_loaded). repeat split. }
  destruct (nullish data) eqn:Hdata.
  { destruct (generateResponse_nullish env w agent data Hagent Hdata) as [what ->].
    exists [], (error (error_toString (TypeError what))). repeat split. }
  destruct (to_string (prop data "prompt")) as [line|] eqn:Hline.
  2: { destruct (generateResponse_unprintable env w agent data Hagent Hdata Hline) as [what ->].
       exists [], (error (error_toString (TypeError what))). repeat split. }
  assert (Hline' : to_string (prop data "prompt") <> None) by congruence.
  destruct (image_supplied data) eqn:Himage.
  { rewrite (generateResponse_image env w agent data Hagent Hline' Himage).
    exists (map (fun word => token (word ++ " ") None) (split " " apology)), stream_complete.
    split; [reflexivity|]. split; [|reflexivity].
    apply apology_tokens. }
  rewrite (generateResponse_text env w agent data Hagent Hdata Hline' Himage). cbv zeta.
  exists (numbered (fst (stream_outcome env agent (prop data "prompt"))) 0).
  destruct (breaks_the_log _).
  - exists (error (error_toString (TypeError "error.toString is not a function"))).
    split; [reflexivity|]. split; [apply numbered_tokens|reflexivity].
  - exists stream_complete.
    split; [reflexivity|]. split; [apply numbered_tokens|reflexivity].
Qed.

(** ** initializeWASM *)

Lemma initializeWASM_run env w :
  initializeWASM env w
  = match env_init env with
    | None =>
        (Normal true,
         set_globals {| wasmInitialized := true;
                        currentModel := currentModel (globals w);
                        currentAgent := currentAgent (globals w) |}
                     (called [init] w))
    | Some e => (Normal false, logged [error_init_failed e] (called [init] w))
    end.
Proof.
  unfold initializeWASM, try_catch, outside, bind, record_call.
  destruct (env_init env); reflexivity.
Qed.

(** X12: an [init_wasm] command is always answered by exactly one
    [wasm_initialized] message whose flag tells whether [init] succeeded.
    Success sets [wasmInitialized]; a failure is logged and leaves the flag
    as it was, so a failed second initialization does not undo the first.
    The handles and the cache are never touched. *)
Theorem init_wasm_is_answered (env : Env) (w : World) (event_data : jsval) :
  prop event_data "type" = JStr "init_wasm" ->
  fst (onmessage event_data env w) = Normal tt /\
  outbox (snd (onmessage event_data env w))
    = outbox w ++ [wasm_initialized (match env_init env with None => true | Some _ => false end)] /\
  wasmInitialized (globals (snd (onmessage event_data env w)))
    = wasmInitialized (globals w) || match env_init env with None => true | Some _ => false end /\
  currentModel (globals (snd (onmessage event_data env w))) = currentModel (globals w) /\
  currentAgent (globals (snd (onmessage event_data env w))) = currentAgent (globals w) /\
  cache (snd (onmessage event_data env w)) = cache w /\
  calls (snd (onmessage event_data env w)) = calls w ++ [init].
Proof.
  intro Htype.
  destruct event_data as [| |b|z| |s|props]; try discriminate Htype.
  unfold onmessage, bind, member. cbn [nullish ret].
  rewrite Htype. cbn [strict_equal String.eqb Ascii.eqb Bool.eqb].
  rewrite initializeWASM_run.
  destruct (env_init env); simpl; rewrite ?orb_true_r, ?orb_false_r; repeat split.
Qed.

Lemma init_wasm_is_answered_witness :
  fst (onmessage (event "init_wasm" JUndefined)
         (with_init (Some (Thrown "CompileError")) example_env) loaded_world) = Normal tt /\
  outbox (snd (onmessage (event "init_wasm" JUndefined)
                 (with_init (Some (Thrown "CompileError")) example_env) loaded_world))
    = outbox loaded_world ++ [wasm_initialized false] /\
  wasmInitialized (globals (snd (onmessage (event "init_wasm" JUndefined)
                     (with_init (Some (Thrown "CompileError")) example_env) loaded_world)))
    = wasmInitialized (globals loaded_world) || false /\
  currentModel (globals (snd (onmessage (event "init_wasm" JUndefined)
                  (with_init (Some (Thrown "CompileError")) example_env) loaded_world)))
    = currentModel (globals loaded_world) /\
  currentAgent (globals (snd (onmessage (event "init_wasm" JUndefined)
                  (with_init (Some (Thrown "CompileError")) example_env) loaded_world)))
    = currentAgent (globals loaded_world) /\
  cache (snd (onmessage (event "init_wasm" JUndefined)
                (with_init (Some (Thrown "CompileError")) example_env) loaded_world))
    = cache loaded_world /\
  calls (snd (onmessage (event "init_wasm" JUndefined)
                (with_init (Some (Thrown "CompileError")) example_env) loaded_world))
    = calls loaded_world ++ [init].
Proof.
  exact (init_wasm_is_answered (with_init (Some (Thrown "CompileError")) example_env)
           loaded_world (event "init_wasm" JUndefined) eq_refl).
Defined.

(** ** checkCacheStatus *)

Lemma collect_all_normal {A B} (f : A -> B) (l : list A) :
  collect (map (fun a => Normal (f a)) l) = Normal (map f l).
Proof. induction l as [|a rest IH]; simpl; [reflexivity|now rewrite IH]. Qed.

Lemma split_acc_last sep s : forall cur,
  exists front, split_acc sep s cur = front ++ [last (split_acc sep s cur) ""].
Proof.
  induction s as [|c rest IH]; intro cur; simpl.
  - exists []. reflexivity.
  - destruct (Ascii.eqb c sep).
    + destruct (IH "") as [front Hfront].
      exists (cur :: front). rewrite Hfront at 1. simpl.
      destruct (split_acc sep rest "") eqn:Hsplit; [destruct front; discriminate Hfront|].
      reflexivity.
    + apply IH.
Qed.

(** [request.url.split('/').pop()] is the last segment, always a string. *)
Lemma pop_split url env w :
  template (pop (split "/" url)) env w = (Normal (last (split "/" url) ""), w).
Proof.
  unfold split. destruct (split_acc_last "/" url "") as [front Hfront].
  unfold pop. rewrite Hfront at 1. rewrite rev_app_distr. reflexivity.
Qed.

(** Looking the keys up one after the other only adds [cache.match] calls. *)
Lemma cache_info_run env keys : forall w,
  settle_all (map cache_entry_info keys) env w
  = (Normal (map (fun url =>
                    match env_cache_match env url with
                    | None => Normal (cache_info (cache w) url)
                    | Some e => Throw e
                    end) keys),
     called (map cache_match keys) w).
Proof.
  induction keys as [|url rest IH]; intro w; simpl.
  - unfold ret, called. simpl. rewrite app_nil_r. destruct w; reflexivity.
  - unfold bind at 1, settle at 1, cache_entry_info at 1.
    unfold bind at 1, outside, bind, record_call, get_cache.
    destruct (env_cache_match env url) as [e|]; cbn [cache];
      rewrite ?pop_split; unfold ret; rewrite IH; unfold ret, called; simpl;
      rewrite <- app_assoc; reflexivity.
Qed.

(** What [checkCacheStatus] does, case by case. *)
Lemma checkCacheStatus_run env w :
  checkCacheStatus env w
  = match env_caches_open env with
    | Some _ => (Normal tt, posted [cache_status cache_check_failed] (called [caches_open] w))
    | None =>
        match env_cache_keys env with
        | Some _ =>
            (Normal tt,
             posted [cache_status cache_check_failed] (called [caches_open; cache_keys] w))
        | None =>
            match cache w with
            | [] =>
                (Normal tt,
                 posted [cache_status cache_empty] (called [caches_open; cache_keys] w))
            | _ =>
                (Normal tt,
                 posted
                   [cache_status
                      match collect (map (fun url =>
                                            match env_cache_match env url with
                                            | None => Normal (cache_info (cache w) url)
                                            | Some e => Throw e
                                            end) (map fst (cache w))) with
                      | Normal cacheInfo => cached_files cacheInfo
                      | Throw _ => cache_check_failed
                      end]
                   (called (caches_open :: cache_keys :: map cache_match (map fst (cache w))) w))
            end
        end
    end.
Proof.
  unfold checkCacheStatus, try_catch, keys_of_cache.
  unfold bind at 1, outside at 1, bind at 1, record_call at 1.
  destruct (env_caches_open env) as [e|]; [reflexivity|].
  unfold bind at 1 2, outside, bind, record_call.
  destruct (env_cache_keys env) as [e|].
  { unfold posted, called, postMessage. simpl. rewrite <- app_assoc. reflexivity. }
  unfold get_cache, ret. cbn [cache].
  destruct (cache w) as [|entry rest] eqn:Hcache.
  { unfold posted, called, postMessage. simpl. rewrite <- app_assoc, Hcache. reflexivity. }
  rewrite <- Hcache. cbn [map].
  destruct (map fst (cache w)) as [|key keys] eqn:Hkeys; [rewrite Hcache in Hkeys; discriminate|].
  rewrite <- Hkeys.
  unfold Promise_all. unfold bind. rewrite cache_info_run. cbn [cache called].
  destruct (collect _) as [cacheInfo|e];
    unfold posted, called, postMessage, throw; simpl; rewrite <- !app_assoc; reflexivity.
Qed.

(** X13: [checkCacheStatus] never throws, always posts exactly one
    [cache_status] message, and only reads: the variables and the cache are
    as before. *)
Theorem cache_check_is_read_only (env : Env) (w : World) :
  exists status,
    fst (checkCacheStatus env w) = Normal tt /\
    outbox (snd (checkCacheStatus env w)) = outbox w ++ [cache_status status] /\
    cache (snd (checkCacheStatus env w)) = cache w /\
    globals (snd (checkCacheStatus env w)) = globals w.
Proof.
  assert (Hshape : exists status cs,
             checkCacheStatus env w
             = (Normal tt, posted [cache_status status] (called cs w))).
  { rewrite checkCacheStatus_run.
    destruct (env_caches_open env); [eexists; eexists; reflexivity|].
    destruct (env_cache_keys env); [eexists; eexists; reflexivity|].
    destruct (cache w); eexists; eexists; reflexivity. }
  destruct Hshape as [status [cs Hshape]]. rewrite Hshape.
  exists status. repeat split.
Qed.

Lemma cache_lookup_In url c response :
  cache_lookup url c = Some response -> exists key, In (key, response) c.
Proof.
  induction c as [|[k r] rest IH]; simpl; [discriminate|].
  destruct (String.eqb k url).
  - intro H. injection H as ->. exists k. left. reflexivity.
  - intro H. destruct (IH H) as [key Hin]. exists key. right. exact Hin.
Qed.

(** For sizes an ArrayBuffer can have, the worker's line is the size
    rounded to the nearest tenth of a megabyte. *)
Lemma cache_info_line c url : sizes_are_safe c -> cache_info c url = cache_line c url.
Proof.
  intro Hsafe. unfold cache_info, cache_line. f_equal.
  apply megabytes_tenths.
  destruct (cache_lookup url c) as [response|] eqn:Hlookup; [|reflexivity].
  destruct (cache_lookup_In url c response Hlookup) as [key Hin].
  unfold sizes_are_safe in Hsafe. rewrite Forall_forall in Hsafe.
  exact (Hsafe (key, response) Hin).
Qed.

(** X14: when the cache calls succeed, [checkCacheStatus] reports "Cache is
    empty" for an empty cache, and otherwise one line per entry, in the
    order of the cache keys, giving the last segment of its URL and its size
    in megabytes with one decimal: the number of tenths of 2^20 bytes
    nearest to the size, the larger of two.  A file below 52429 bytes is
    listed with 0.0 MB. *)
Theorem cache_check_lists_every_entry (env : Env) (w : World) :
  env_caches_open env = None ->
  env_cache_keys env = None ->
  (forall url, In url (map fst (cache w)) -> env_cache_match env url = None) ->
  sizes_are_safe (cache w) ->
  outbox (snd (checkCacheStatus env w))
  = outbox w
      ++ [cache_status
            match cache w with
            | [] => cache_empty
            | _ => cached_files (map (cache_line (cache w)) (map fst (cache w)))
            end].
Proof.
  intros Hopen Hkeys Hmatch Hsafe.
  rewrite checkCacheStatus_run, Hopen, Hkeys.
  destruct (cache w) as [|entry rest] eqn:Hcache; [reflexivity|].
  rewrite <- Hcache in *.
  replace (map (fun url => match env_cache_match env url with
                           | None => Normal (cache_info (cache w) url)
                           | Some e => Throw e
                           end) (map fst (cache w)))
    with (map (fun url => Normal (cache_line (cache w) url)) (map fst (cache w))).
  2: { apply map_ext_in. intros url Hin.
       now rewrite (Hmatch url Hin), (cache_info_line _ url Hsafe). }
  rewrite collect_all_normal. reflexivity.
Qed.

Lemma cache_check_lists_every_entry_witness :
  outbox (snd (checkCacheStatus example_env (initial_world small_cache)))
  = outbox (initial_world small_cache)
      ++ [cache_status (cached_files [("t.bin", "0.0"); ("c.json", "0.0"); ("m.bin", "0.1")])].
Proof.
  refine (cache_check_lists_every_entry example_env (initial_world small_cache)
            eq_refl eq_refl (fun _ _ => eq_refl) _
          <: outbox (snd (checkCacheStatus example_env (initial_world small_cache)))
             = outbox (initial_world small_cache)
                 ++ [cache_status
                       (cached_files [("t.bin", "0.0"); ("c.json", "0.0"); ("m.bin", "0.1")])]).
  unfold sizes_are_safe. repeat constructor; vm_compute; reflexivity.
Defined.

(** ** clearCache *)

Lemma delete_all_run env keys : forall w,
  settle_all (map delete_entry keys) env w
  = (Normal (map (fun key =>
                    match env_cache_delete env key with
                    | None => Normal tt
                    | Some e => Throw e
                    end) keys),
     set_cache (remove_deletable env keys (cache w)) (called (map cache_delete keys) w)).
Proof.
  induction keys as [|key rest IH]; intro w; simpl.
  - unfold ret, called, set_cache. simpl. rewrite app_nil_r. destruct w; reflexivity.
  - unfold bind at 1, settle at 1, delete_entry at 1, outside, bind, record_call,
      get_cache, put_cache.
    destruct (env_cache_delete env key) as [e|]; simpl; rewrite IH;
      unfold ret, called, set_cache; simpl; rewrite <- app_assoc; reflexivity.
Qed.

Lemma filter_all {A} (l : list A) : filter (fun _ => true) l = l.
Proof. induction l; simpl; congruence. Qed.

Lemma filter_twice {A} (p q : A -> bool) (l : list A) :
  filter p (filter q l) = filter (fun a => q a && p a) l.
Proof.
  induction l as [|a rest IH]; simpl; [reflexivity|].
  destruct (q a); simpl; [destruct (p a)|]; now rewrite IH.
Qed.

(** Deleting keys one after the other keeps the entries none of whose
    deletes succeeded. *)
Lemma remove_deletable_filter env keys : forall c,
  remove_deletable env keys c
  = filter (fun entry =>
              negb (existsb (fun key =>
                               String.eqb (fst entry) key
                               && match env_cache_delete env key with
                                  | None => true
                                  | Some _ => false
                                  end) keys)) c.
Proof.
  unfold remove_deletable.
  induction keys as [|key rest IH]; intro c; simpl.
  - symmetry. apply filter_all.
  - rewrite IH. destruct (env_cache_delete env key) as [e|].
    + apply filter_ext. intro entry. now rewrite andb_false_r.
    + unfold cache_remove. rewrite filter_twice.
      apply filter_ext. intro entry. rewrite andb_true_r, negb_orb. reflexivity.
Qed.

Lemma clearing_the_keys env c : remove_deletable env (map fst c) c = filter (undeletable env) c.
Proof.
  rewrite remove_deletable_filter. apply filter_ext_in. intros entry Hin.
  unfold undeletable.
  destruct (env_cache_delete env (fst entry)) as [e|] eqn:Hdelete.
  - apply negb_true_iff. apply not_true_iff_false. intro Hex.
    apply existsb_exists in Hex. destruct Hex as [key [_ Hkey]].
    apply andb_true_iff in Hkey. destruct Hkey as [Heq Hok].
    apply String.eqb_eq in Heq. subst key. rewrite Hdelete in Hok. discriminate.
  - apply negb_false_iff. apply existsb_exists.
    exists (fst entry). split; [apply in_map; exact Hin|].
    now rewrite String.eqb_refl, Hdelete.
Qed.

Lemma collect_deletes env keys :
  match collect (map (fun key =>
                        match env_cache_delete env key with
                        | None => Normal tt
                        | Some e => Throw e
                        end) keys) with
  | Normal _ => forallb (fun key => match env_cache_delete env key with
                                    | None => true
                                    | Some _ => false
                                    end) keys = true
  | Throw _ => forallb (fun key => match env_cache_delete env key with
                                   | None => true
                                   | Some _ => false
                                   end) keys = false
  end.
Proof.
  induction keys as [|key rest IH]; simpl; [reflexivity|].
  destruct (env_cache_delete env key); simpl; [reflexivity|].
  destruct (collect _); exact IH.
Qed.

Lemma forallb_keys env c :
  forallb (fun key => match env_cache_delete env key with
                      | None => true
                      | Some _ => false
                      end) (map fst c)
  = negb (existsb (undeletable env) c).
Proof.
  unfold undeletable.
  induction c as [|entry rest IH]; simpl; [reflexivity|].
  rewrite IH. destruct (env_cache_delete env (fst entry)); reflexivity.
Qed.

(** What [clearCache] does once the cache is open and its keys are read. *)
Lemma clearCache_run env w :
  env_caches_open env = None ->
  env_cache_keys env = None ->
  clearCache env w
  = (Normal tt,
     let w1 :=
       set_cache (filter (undeletable env) (cache w))
         (called (caches_open :: cache_keys :: map cache_delete (map fst (cache w))) w) in
     match collect (map (fun key =>
                           match env_cache_delete env key with
                           | None => Normal tt
                           | Some e => Throw e
                           end) (map fst (cache w))) with
     | Normal _ => posted [cache_status cache_cleared] w1
     | Throw e => logged [error_clear_cache e] (posted [cache_status cache_clear_failed] w1)
     end).
Proof.
  intros Hopen Hkeys.
  unfold clearCache, try_catch, keys_of_cache.
  unfold bind at 1, outside at 1, bind at 1, record_call at 1. rewrite Hopen.
  unfold bind at 1 2, outside, bind, record_call. rewrite Hkeys.
  unfold get_cache, ret. cbn [cache].
  unfold Promise_all. unfold bind. rewrite delete_all_run. cbn [cache].
  rewrite clearing_the_keys.
  destruct (collect _) as [done|e];
    unfold posted, called, logged, set_cache, postMessage, console_write, throw; simpl;
    rewrite <- !app_assoc; reflexivity.
Qed.

(** X15: when the cache opens and its keys are read, [clearCache] asks for
    the deletion of every key and is left with exactly the entries whose
    deletion failed; it answers "Cache cleared" when there is none and
    "Failed to clear cache" otherwise, although the other entries are
    deleted all the same.  It never throws and never touches the
    variables. *)
Theorem clear_cache_keeps_what_it_cannot_delete (env : Env) (w : World) :
  env_caches_open env = None ->
  env_cache_keys env = None ->
  fst (clearCache env w) = Normal tt /\
  cache (snd (clearCache env w)) = filter (undeletable env) (cache w) /\
  outbox (snd (clearCache env w))
    = outbox w
        ++ [cache_status (if existsb (undeletable env) (cache w)
                          then cache_clear_failed else cache_cleared)] /\
  calls (snd (clearCache env w))
    = calls w ++ caches_open :: cache_keys :: map cache_delete (map fst (cache w)) /\
  globals (snd (clearCache env w)) = globals w.
Proof.
  intros Hopen Hkeys.
  rewrite (clearCache_run env w Hopen Hkeys). cbv zeta.
  pose proof (collect_deletes env (map fst (cache w))) as Hcollect.
  rewrite forallb_keys in Hcollect.
  destruct (collect _) as [done|e].
  - apply negb_true_iff in Hcollect. rewrite Hcollect. repeat split.
  - apply negb_false_iff in Hcollect. rewrite Hcollect. repeat split.
Qed.

Lemma clear_cache_keeps_what_it_cannot_delete_witness :
  fst (clearCache (with_cache_delete
                     (fun url => if String.eqb url "https://x/t.bin"
                                 then Some (Thrown "InvalidStateError") else None)
                     example_env) loaded_world) = Normal tt /\
  cache (snd (clearCache (with_cache_delete
                            (fun url => if String.eqb url "https://x/t.bin"
                                        then Some (Thrown "InvalidStateError") else None)
                            example_env) loaded_world))
    = [("https://x/t.bin", {| cached_ok := true; cached_data := [x0a] |})] /\
  outbox (snd (clearCache (with_cache_delete
                             (fun url => if String.eqb url "https://x/t.bin"
                                         then Some (Thrown "InvalidStateError") else None)
                             example_env) loaded_world))
    = outbox loaded_world ++ [cache_status cache_clear_failed] /\
  calls (snd (clearCache (with_cache_delete
                            (fun url => if String.eqb url "https://x/t.bin"
                                        then Some (Thrown "InvalidStateError") else None)
                            example_env) loaded_world))
    = calls loaded_world
        ++ [caches_open; cache_keys; cache_delete "https://x/m.bin";
            cache_delete "https://x/t.bin"; cache_delete "https://x/c.json"] /\
  globals (snd (clearCache (with_cache_delete
                              (fun url => if String.eqb url "https://x/t.bin"
                                          then Some (Thrown "InvalidStateError") else None)
                              example_env) loaded_world))
    = globals loaded_world.
Proof.
  exact (clear_cache_keeps_what_it_cannot_delete
           (with_cache_delete
              (fun url => if String.eqb url "https://x/t.bin"
                          then Some (Thrown "InvalidStateError") else None)
              example_env) loaded_world eq_refl eq_refl).
Defined.

(** ** After the cache was cleared *)

(** Whatever happens next, a download starts with its [fetch]. *)
Lemma download_fetches env w url description :
  exists rest, calls (snd (download url description env w)) = calls w ++ fetch url :: rest.
Proof.
  destruct (fst (download url description env w)) as [data|e] eqn:Hfst.
  - rewrite download_completion in Hfst. unfold download_outcome in Hfst.
    destruct (env_fetch env url) as [e|response] eqn:Hfetch; [discriminate|].
    destruct (ok response) eqn:Hok; [|discriminate]. cbn [negb] in Hfst.
    destruct (body response) as [[chunks [e|]]|] eqn:Hbody; try discriminate.
    rewrite (download_run env w url description response chunks Hfetch Hok Hbody).
    destruct (env_cache_put env url); eexists; reflexivity.
  - destruct (download_throws env w url description e Hfst) as [ms Hw'].
    rewrite Hw'. exists []. reflexivity.
Qed.

(** X16: after a [clearCache] in which every deletion succeeded the cache
    is empty: [checkCacheStatus] then answers "Cache is empty", and a
    [downloadFile] for any URL, also one that was cached before, goes to
    the network. *)
Theorem after_a_full_clear (env : Env) (w : World) :
  env_caches_open env = None ->
  env_cache_keys env = None ->
  (forall entry, In entry (cache w) -> env_cache_delete env (fst entry) = None) ->
  cache (snd (clearCache env w)) = [] /\
  outbox (snd (checkCacheStatus env (snd (clearCache env w))))
    = outbox w ++ [cache_status cache_cleared; cache_status cache_empty] /\
  (forall url description,
     env_cache_match env url = None ->
     exists rest,
       calls (snd (downloadFile url description env (snd (clearCache env w))))
       = calls (snd (clearCache env w)) ++ caches_open :: cache_match url :: fetch url :: rest).
Proof.
  intros Hopen Hkeys Hdelete.
  assert (Hnone : filter (undeletable env) (cache w) = []).
  { induction (cache w) as [|entry rest IH]; [reflexivity|]. simpl.
    unfold undeletable at 1. rewrite (Hdelete entry) by (left; reflexivity).
    apply IH. intros entry' Hin. apply Hdelete. right. exact Hin. }
  assert (Hall : collect (map (fun key =>
                                 match env_cache_delete env key with
                                 | None => Normal tt
                                 | Some e => Throw e
                                 end) (map fst (cache w)))
                 = Normal (map (fun _ => tt) (map fst (cache w)))).
  { rewrite <- collect_all_normal. f_equal. apply map_ext_in. intros key Hin.
    apply in_map_iff in Hin. destruct Hin as [entry [<- Hin]].
    now rewrite (Hdelete entry Hin). }
  rewrite (clearCache_run env w Hopen Hkeys), Hall, Hnone. cbv zeta.
  split; [reflexivity|]. split.
  - rewrite checkCacheStatus_run, Hopen, Hkeys. simpl. now rewrite <- app_assoc.
  - intros url description Hmatch.
    match goal with
    | |- context [downloadFile url description env ?w1] =>
        rewrite (downloadFile_downloads env w1 url description Hopen Hmatch eq_refl)
          by (intro H; exfalso; apply H; reflexivity)
    end.
    match goal with
    | |- context [download url description env ?w1] =>
        destruct (download_fetches env w1 url description) as [rest Hrest];
        destruct (download url description env w1) as [[data|e] w'] eqn:Hdownload
    end; simpl in Hrest; exists rest; simpl; rewrite Hrest;
      unfold before_download; simpl; rewrite <- !app_assoc; reflexivity.
Qed.

Lemma after_a_full_clear_witness :
  cache (snd (clearCache example_env loaded_world)) = [] /\
  outbox (snd (checkCacheStatus example_env (snd (clearCache example_env loaded_world))))
    = outbox loaded_world ++ [cache_status cache_cleared; cache_status cache_empty] /\
  (forall url description,
     env_cache_match example_env url = None ->
     exists rest,
       calls (snd (downloadFile url description example_env
                     (snd (clearCache example_env loaded_world))))
       = calls (snd (clearCache example_env loaded_world))
           ++ caches_open :: cache_match url :: fetch url :: rest).
Proof.
  exact (after_a_full_clear example_env loaded_world eq_refl eq_refl (fun _ _ => eq_refl)).
Defined.

(** ** What a computation may post and call *)

Section WentOn.

Variable pm : message -> bool.
Variable pc : call -> bool.

Lemma went_on_refl w : went_on pm pc w w.
Proof.
  split; [reflexivity|]. split; [reflexivity|].
  split; [|split]; exists []; rewrite app_nil_r; try split; reflexivity.
Qed.

Lemma went_on_trans a b c : went_on pm pc a b -> went_on pm pc b c -> went_on pm pc a c.
Proof.
  intros [Hg [Hn [[ms [Hms Hpm]] [[cs [Hcs Hpc]] [ls Hls]]]]]
         [Hg' [Hn' [[ms' [Hms' Hpm']] [[cs' [Hcs' Hpc']] [ls' Hls']]]]].
  split; [congruence|]. split; [congruence|]. split; [|split].
  - exists (ms ++ ms'). rewrite Hms', Hms, app_assoc, forallb_app, Hpm, Hpm'. split; reflexivity.
  - exists (cs ++ cs'). rewrite Hcs', Hcs, app_assoc, forallb_app, Hpc, Hpc'. split; reflexivity.
  - exists (ls ++ ls'). now rewrite Hls', Hls, app_assoc.
Qed.

Lemma respects_ret {A} (a : A) : respects (went_on pm pc) (ret a).
Proof. intros env w. apply went_on_refl. Qed.

Lemma respects_throw {A} e : respects (went_on pm pc) (@throw A e).
Proof. intros env w. apply went_on_refl. Qed.

Lemma respects_bind {A B} (m : M A) (k : A -> M B) :
  respects (went_on pm pc) m ->
  (forall a, respects (went_on pm pc) (k a)) ->
  respects (went_on pm pc) (bind m k).
Proof.
  intros Hm Hk env w. unfold bind. specialize (Hm env w).
  destruct (m env w) as [[a|e] w']; simpl in Hm; [|exact Hm].
  eapply went_on_trans; [exact Hm|apply Hk].
Qed.

Lemma respects_try_catch {A} (m : M A) (h : js_error -> M A) :
  respects (went_on pm pc) m ->
  (forall e, respects (went_on pm pc) (h e)) ->
  respects (went_on pm pc) (try_catch m h).
Proof.
  intros Hm Hh env w. unfold try_catch. specialize (Hm env w).
  destruct (m env w) as [[a|e] w']; simpl in Hm; [exact Hm|].
  eapply went_on_trans; [exact Hm|apply Hh].
Qed.

Lemma respects_settle {A} (m : M A) :
  respects (went_on pm pc) m -> respects (went_on pm pc) (settle m).
Proof.
  intros Hm env w. unfold settle. specialize (Hm env w).
  destruct (m env w) as [r w']. exact Hm.
Qed.

Lemma respects_settle_all {A} (ms : list (M A)) :
  Forall (respects (went_on pm pc)) ms -> respects (went_on pm pc) (settle_all ms).
Proof.
  induction 1 as [|m rest Hm _ IH]; simpl; [apply respects_ret|].
  apply respects_bind; [apply respects_settle, Hm|intro].
  apply respects_bind; [exact IH|intro]. apply respects_ret.
Qed.

Lemma respects_Promise_all {A} (ms : list (M A)) :
  Forall (respects (went_on pm pc)) ms -> respects (went_on pm pc) (Promise_all ms).
Proof.
  intro H. unfold Promise_all.
  apply respects_bind; [apply respects_settle_all, H|intro rs].
  destruct (collect rs); [apply respects_ret|apply respects_throw].
Qed.

Lemma respects_postMessage m : pm m = true -> respects (went_on pm pc) (postMessage m).
Proof.
  intros Hm env w. simpl. split; [reflexivity|]. split; [reflexivity|]. split; [|split].
  - exists [m]. simpl. now rewrite Hm.
  - exists []. now rewrite app_nil_r.
  - exists []. now rewrite app_nil_r.
Qed.

Lemma respects_record_call c : pc c = true -> respects (went_on pm pc) (record_call c).
Proof.
  intros Hc env w. simpl. split; [reflexivity|]. split; [reflexivity|]. split; [|split].
  - exists []. now rewrite app_nil_r.
  - exists [c]. simpl. now rewrite Hc.
  - exists []. now rewrite app_nil_r.
Qed.

Lemma respects_console_write l : respects (went_on pm pc) (console_write l).
Proof.
  intros env w. simpl. split; [reflexivity|]. split; [reflexivity|]. split; [|split].
  - exists []. now rewrite app_nil_r.
  - exists []. now rewrite app_nil_r.
  - exists [l]. reflexivity.
Qed.

Lemma respects_get_cache : respects (went_on pm pc) get_cache.
Proof. intros env w. apply went_on_refl. Qed.

Lemma respects_put_cache c : respects (went_on pm pc) (put_cache c).
Proof.
  intros env w. simpl. split; [reflexivity|]. split; [reflexivity|].
  split; [|split]; exists []; now rewrite app_nil_r.
Qed.

Lemma respects_outside c answer : pc c = true -> respects (went_on pm pc) (outside c answer).
Proof.
  intro Hc. unfold outside. apply respects_bind; [apply respects_record_call, Hc|intros _].
  intros env w. destruct (answer env); apply went_on_refl.
Qed.

End WentOn.

(** ** downloadFile and the engine *)

Lemma respects_report_progress pc description total loaded :
  respects (went_on is_loading_progress pc) (report_progress description total loaded).
Proof.
  unfold report_progress. destruct total as [t|]; [|apply respects_ret].
  destruct (negb (t =? 0)%Z && (0 <? loaded)%nat);
    [apply respects_postMessage; reflexivity|apply respects_ret].
Qed.

Lemma respects_read_chunks pc description total incoming failure : forall chunks loaded,
  respects (went_on is_loading_progress pc)
           (read_chunks description total incoming failure chunks loaded).
Proof.
  induction incoming as [|value rest IH]; intros chunks loaded; simpl.
  - destruct failure; [apply respects_throw|apply respects_ret].
  - apply respects_bind; [apply respects_report_progress|intro; apply IH].
Qed.

Lemma respects_download url description :
  respects (went_on is_loading_progress is_storage_call) (download url description).
Proof.
  unfold download.
  apply respects_bind; [apply respects_postMessage; reflexivity|intros _].
  apply respects_bind.
  { unfold do_fetch. apply respects_bind; [apply respects_record_call; reflexivity|intros _].
    intros env w. destruct (env_fetch env url); apply went_on_refl. }
  intro response.
  destruct (negb (ok response)); [apply respects_throw|].
  apply respects_bind;
    [destruct (body response); [apply respects_ret|apply respects_throw]|intro stream].
  apply respects_bind; [apply respects_read_chunks|intro chunks].
  apply respects_bind;
    [destruct (concatenate chunks); [apply respects_ret|apply respects_throw]|intro result].
  apply respects_bind; [|intros _; apply respects_ret].
  apply respects_try_catch; [|intro; apply respects_console_write].
  apply respects_bind; [apply respects_outside; reflexivity|intros _].
  apply respects_bind; [apply respects_get_cache|intro; apply respects_put_cache].
Qed.

Lemma respects_downloadFile url description :
  respects (went_on is_loading_progress is_storage_call) (downloadFile url description).
Proof.
  unfold downloadFile.
  apply respects_try_catch.
  2: { intro e. apply respects_bind; [apply respects_console_write|intros _; apply respects_throw]. }
  apply respects_bind; [apply respects_outside; reflexivity|intros _].
  apply respects_bind; [apply respects_outside; reflexivity|intros _].
  apply respects_bind; [apply respects_get_cache|intro c].
  apply respects_bind.
  - destruct (cache_lookup url c) as [cachedResponse|]; [|apply respects_ret].
    apply respects_bind; [apply respects_postMessage; reflexivity|intros _].
    destruct (cached_ok cachedResponse); [apply respects_ret|].
    apply respects_bind; [apply respects_console_write|intros _].
    apply respects_bind; [apply respects_outside; reflexivity|intros _].
    apply respects_bind; [apply respects_get_cache|intro c'].
    apply respects_bind; [apply respects_put_cache|intros _; apply respects_ret].
  - intros [data|]; [apply respects_ret|apply respects_download].
Qed.

(** X17: whatever the cache and the network answer, [downloadFile] posts
    nothing but [loading_progress] messages, calls nothing but the cache and
    the network (never the engine), and leaves the three variables alone. *)
Theorem download_stays_away_from_the_engine
        (env : Env) (w : World) (url description : string) :
  globals (snd (downloadFile url description env w)) = globals w /\
  (exists ms,
     outbox (snd (downloadFile url description env w)) = outbox w ++ ms /\
     forallb is_loading_progress ms = true) /\
  (exists cs,
     calls (snd (downloadFile url description env w)) = calls w ++ cs /\
     forallb is_storage_call cs = true).
Proof.
  destruct (respects_downloadFile url description env w)
    as [Hg [_ [Hms [Hcs _]]]].
  split; [exact Hg|]. split; assumption.
Qed.

(** ** loadModel from its first message to its verdict *)

Lemma respects_downloads urls :
  Forall (respects (went_on is_loading_progress is_storage_call))
         (map (fun p => downloadFile (fst p) (snd p)) urls).
Proof.
  induction urls; simpl; constructor; [apply respects_downloadFile|assumption].
Qed.

Lemma forallb_snoc {A} (p : A -> bool) l a :
  forallb p l = true -> p a = true -> forallb p (l ++ [a]) = true.
Proof. intros Hl Ha. rewrite forallb_app, Hl. simpl. now rewrite Ha. Qed.

(** The messages, the calls and the verdict of a [loadModel]. *)
Lemma loadModel_trace env w modelConfig :
  exists ps cs engine,
    forallb is_loading_progress ps = true /\
    forallb is_storage_call cs = true /\
    calls (snd (loadModel modelConfig env w)) = calls w ++ cs ++ engine /\
    (fst (loadModel modelConfig env w) = Normal true /\
     outbox (snd (loadModel modelConfig env w))
       = outbox w ++ loading_progress starting_load :: ps ++ [model_loaded] /\
     (exists m,
        engine = [new_PhiModel (model_weights m) (model_tokenizer m) (model_config m)
                               (model_quantized m);
                  from_phi_model m])
     \/
     exists e earlier,
       console (snd (loadModel modelConfig env w))
         = console w ++ earlier ++ [error_load_failed e] /\
       (engine = [] \/
        (exists weights tokenizer config quantized,
           engine = [new_PhiModel weights tokenizer config quantized]) \/
        (exists m,
           engine = [new_PhiModel (model_weights m) (model_tokenizer m) (model_config m)
                                  (model_quantized m);
                     from_phi_model m])) /\
       (lacks_toString e = false ->
        fst (loadModel modelConfig env w) = Normal false /\
        outbox (snd (loadModel modelConfig env w))
          = outbox w ++ loading_progress starting_load :: ps ++ [error (error_toString e)]) /\
       (lacks_toString e = true ->
        (exists what, fst (loadModel modelConfig env w) = Throw (TypeError what)) /\
        outbox (snd (loadModel modelConfig env w))
          = outbox w ++ loading_progress starting_load :: ps)).
Proof.
  destruct (urls_of modelConfig) as [[[u1 u2] u3]|] eqn:Hurls.
  2: { destruct (loadModel_unreadable env w modelConfig Hurls) as [what ->].
       exists [], [], []. split; [reflexivity|]. split; [reflexivity|].
       split; [simpl; now rewrite app_nil_r|].
       right. exists (TypeError what), []. split; [reflexivity|]. split; [left; reflexivity|].
       split; [intros _; split; [reflexivity|simpl; now rewrite <- app_assoc]|discriminate]. }
  rewrite (loadModel_run env w modelConfig u1 u2 u3 Hurls).
  match goal with
  | |- context [Promise_all ?ms env ?w0] =>
      pose proof (respects_Promise_all is_loading_progress is_storage_call ms
                    (respects_downloads [(_, _); (_, _); (_, _)]) env w0) as Hwent;
      destruct (Promise_all ms env w0) as [[buffers|e] w1]
  end;
    destruct Hwent as [_ [_ [[ms [Hout Hms]] [[cs [Hcalls Hcs]] [ls Hconsole]]]]];
    simpl in Hout, Hcalls, Hconsole.
  2: { exists ms, cs, []. split; [exact Hms|]. split; [exact Hcs|].
       unfold load_failed.
       split; [destruct (lacks_toString e); simpl; rewrite Hcalls, app_nil_r; reflexivity|].
       right. exists e, ls.
       split; [destruct (lacks_toString e); simpl; rewrite Hconsole, <- app_assoc; reflexivity|].
       split; [left; reflexivity|].
       split; intros ->; simpl; rewrite Hout, <- ?app_assoc;
         (split; [try reflexivity; eexists; reflexivity|reflexivity]). }
  cbv zeta.
  destruct (env_new_PhiModel env _ _ _ _) as [e|].
  { exists (ms ++ [loading_progress initializing_model]), cs. eexists.
    split; [apply forallb_snoc; [exact Hms|reflexivity]|]. split; [exact Hcs|].
    unfold load_failed.
    split; [destruct (lacks_toString e); simpl; rewrite Hcalls, <- app_assoc; reflexivity|].
    right. exists e, ls.
    split; [destruct (lacks_toString e); simpl; rewrite Hconsole, <- app_assoc; reflexivity|].
    split; [right; left; do 4 eexists; reflexivity|].
    split; intros ->; simpl; rewrite Hout, <- ?app_assoc;
      (split; [try reflexivity; eexists; reflexivity|reflexivity]). }
  match goal with
  | |- context [env_from_phi_model env ?m] =>
      destruct (env_from_phi_model env m) as [e|] eqn:Hwrap;
      exists (ms ++ [loading_progress initializing_model; loading_progress creating_agent]), cs,
             [new_PhiModel (model_weights m) (model_tokenizer m) (model_config m)
                           (model_quantized m);
              from_phi_model m]
  end.
  - split; [rewrite forallb_app, Hms; reflexivity|]. split; [exact Hcs|].
    unfold load_failed.
    split; [destruct (lacks_toString e); simpl; rewrite Hcalls, <- !app_assoc; reflexivity|].
    right. exists e, (ls ++ [error_agent_wrapper e]).
    split; [destruct (lacks_toString e); simpl; rewrite Hconsole, <- !app_assoc; reflexivity|].
    split; [right; right; eexists; reflexivity|].
    split; intros ->; simpl; rewrite Hout, <- ?app_assoc;
      (split; [try reflexivity; eexists; reflexivity|reflexivity]).
  - split; [rewrite forallb_app, Hms; reflexivity|]. split; [exact Hcs|].
    split; [simpl; rewrite Hcalls, <- !app_assoc; reflexivity|].
    left. split; [reflexivity|].
    split; [simpl; rewrite Hout, <- !app_assoc; reflexivity|].
    eexists. reflexivity.
Qed.

Lemma no_verdict ps : forallb is_loading_progress ps = true ->
  filter (fun m => negb (is_loading_progress m)) ps = [].
Proof.
  induction ps as [|m rest IH]; [reflexivity|]. simpl. intro Hps.
  apply andb_true_iff in Hps. destruct Hps as [Hm Hrest]. rewrite Hm. simpl.
  apply IH, Hrest.
Qed.

(** X18: [loadModel] gives at most one verdict.  After 'Starting Phi model
    load...' it posts [loading_progress] messages and, when it returns
    true, [model_loaded] as its last message.  Otherwise a failure was
    caught and logged by line 167; if [toString] can be called on the
    failure, [loadModel] returns false and exactly one of its messages is
    not a [loading_progress]: the [error] carrying the text of the failure.
    If not (the failure is undefined, null, or an object with a property
    named toString), line 168 throws inside the [catch]: [loadModel]
    rejects with a TypeError and has posted no verdict at all. *)
Theorem load_model_gives_one_verdict (env : Env) (w : World) (modelConfig : jsval) :
  exists news,
    outbox (snd (loadModel modelConfig env w))
      = outbox w ++ loading_progress starting_load :: news /\
    (fst (loadModel modelConfig env w) = Normal true /\
     (exists ps, news = ps ++ [model_loaded] /\ forallb is_loading_progress ps = true)
     \/
     exists e new_lines,
       console (snd (loadModel modelConfig env w)) = console w ++ new_lines /\
       In (error_load_failed e) new_lines /\
       (lacks_toString e = false ->
        fst (loadModel modelConfig env w) = Normal false /\
        filter (fun m => negb (is_loading_progress m)) news = [error (error_toString e)]) /\
       (lacks_toString e = true ->
        (exists what, fst (loadModel modelConfig env w) = Throw (TypeError what)) /\
        forallb is_loading_progress news = true)).
Proof.
  destruct (loadModel_trace env w modelConfig)
    as [ps [cs [engine [Hps [_ [_ [[Htrue [Hout _]]|[e [earlier [Hconsole [_ [Hgood Hbad]]]]]]]]]]]].
  - exists (ps ++ [model_loaded]). split; [exact Hout|].
    left. split; [exact Htrue|]. exists ps. split; [reflexivity|exact Hps].
  - destruct (lacks_toString e) eqn:Hlacks.
    + destruct (Hbad eq_refl) as [Hthrow Hout].
      exists ps. split; [exact Hout|].
      right. exists e, (earlier ++ [error_load_failed e]).
      split; [exact Hconsole|]. split; [apply in_or_app; right; left; reflexivity|].
      split; [congruence|]. intros _. split; [exact Hthrow|exact Hps].
    + destruct (Hgood eq_refl) as [Hfalse Hout].
      exists (ps ++ [error (error_toString e)]). split; [exact Hout|].
      right. exists e, (earlier ++ [error_load_failed e]).
      split; [exact Hconsole|]. split; [apply in_or_app; right; left; reflexivity|].
      split; [|congruence]. intros _. split; [exact Hfalse|].
      rewrite filter_app, (no_verdict ps Hps). reflexivity.
Qed.

(** A network that rejects with undefined: the [catch] of [loadModel]
    cannot turn the failure into text, and [loadModel] itself rejects
    without a verdict. *)
Example load_model_rejects :
  exists what,
    fst (loadModel example_config (with_fetch (fun _ => inl (Value JUndefined)) example_env)
                   (initial_world []))
      = Throw (TypeError what) /\
    forallb is_loading_progress
      (outbox (snd (loadModel example_config
                              (with_fetch (fun _ => inl (Value JUndefined)) example_env)
                              (initial_world []))))
      = true /\
    In (error_load_failed (Value JUndefined))
       (console (snd (loadModel example_config
                                (with_fetch (fun _ => inl (Value JUndefined)) example_env)
                                (initial_world [])))).
Proof.
  eexists. split; [vm_compute; reflexivity|]. split; [vm_compute; reflexivity|].
  vm_compute. tauto.
Qed.

(** X19: [loadModel] calls the engine only once the three downloads are
    over: its calls are cache and network calls, followed by nothing (a
    download failed), by the constructor alone (which then failed), or by
    the constructor and then [from_phi_model] on the model just built.  It
    returns true only in the last case. *)
Theorem engine_is_called_after_the_downloads (env : Env) (w : World) (modelConfig : jsval) :
  exists cs engine,
    calls (snd (loadModel modelConfig env w)) = calls w ++ cs ++ engine /\
    forallb is_storage_call cs = true /\
    (engine = [] \/
     (exists weights tokenizer config quantized,
        engine = [new_PhiModel weights tokenizer config quantized]) \/
     (exists m,
        engine = [new_PhiModel (model_weights m) (model_tokenizer m) (model_config m)
                               (model_quantized m);
                  from_phi_model m])) /\
    (fst (loadModel modelConfig env w) = Normal true ->
     exists m,
       engine = [new_PhiModel (model_weights m) (model_tokenizer m) (model_config m)
                              (model_quantized m);
                 from_phi_model m]).
Proof.
  destruct (loadModel_trace env w modelConfig)
    as [ps [cs [engine [_ [Hcs [Hcalls [[Htrue [_ Hengine]]|[e [earlier [_ [Hengine [Hgood Hbad]]]]]]]]]]]].
  - exists cs, engine. split; [exact Hcalls|]. split; [exact Hcs|].
    split; [right; right; exact Hengine|]. intros _. exact Hengine.
  - exists cs, engine. split; [exact Hcalls|]. split; [exact Hcs|].
    split; [exact Hengine|]. intro Htrue.
    destruct (lacks_toString e).
    + destruct (Hbad eq_refl) as [[what Hthrow] _]. congruence.
    + destruct (Hgood eq_refl) as [Hfalse _]. congruence.
Qed.

Lemma engine_is_called_after_the_downloads_witness :
  exists cs engine,
    calls (snd (loadModel example_config example_env loaded_world))
      = calls loaded_world ++ cs ++ engine /\
    forallb is_storage_call cs = true /\
    (engine = [] \/
     (exists weights tokenizer config quantized,
        engine = [new_PhiModel weights tokenizer config quantized]) \/
     (exists m,
        engine = [new_PhiModel (model_weights m) (model_tokenizer m) (model_config m)
                               (model_quantized m);
                  from_phi_model m])) /\
    (fst (loadModel example_config example_env loaded_world) = Normal true ->
     exists m,
       engine = [new_PhiModel (model_weights m) (model_tokenizer m) (model_config m)
                              (model_quantized m);
                 from_phi_model m]).
Proof.
  exact (engine_is_called_after_the_downloads example_env loaded_world example_config).
Defined.

(** X20: a [loadModel] whose configuration is null or undefined posts the
    starting message, then fails on the first property read: it returns
    false after one [error] message carrying a TypeError, without any call
    to the cache, the network or the engine, and without any change to the
    variables. *)
Theorem load_model_without_config (env : Env) (w : World) (modelConfig : jsval) :
  nullish modelConfig = true ->
  exists what,
    fst (loadModel modelConfig env w) = Normal false /\
    outbox (snd (loadModel modelConfig env w))
      = outbox w ++ [loading_progress starting_load; error (error_toString (TypeError what))] /\
    calls (snd (loadModel modelConfig env w)) = calls w /\
    globals (snd (loadModel modelConfig env w)) = globals w /\
    cache (snd (loadModel modelConfig env w)) = cache w.
Proof.
  intro Hnull.
  assert (Hurls : urls_of modelConfig = None) by (unfold urls_of; now rewrite Hnull).
  destruct (loadModel_unreadable env w modelConfig Hurls) as [what ->].
  exists what. simpl.
  split; [reflexivity|]. split; [rewrite <- app_assoc; reflexivity|].
  repeat split.
Qed.

Lemma load_model_without_config_witness :
  exists what,
    fst (loadModel JUndefined example_env loaded_world) = Normal false /\
    outbox (snd (loadModel JUndefined example_env loaded_world))
      = outbox loaded_world
          ++ [loading_progress starting_load; error (error_toString (TypeError what))] /\
    calls (snd (loadModel JUndefined example_env loaded_world)) = calls loaded_world /\
    globals (snd (loadModel JUndefined example_env loaded_world)) = globals loaded_world /\
    cache (snd (loadModel JUndefined example_env loaded_world)) = cache loaded_world.
Proof.
  exact (load_model_without_config example_env loaded_world JUndefined eq_refl).
Defined.

(** Three files that are all in the cache. *)
Lemma three_hits env w url1 name1 r1 url2 name2 r2 url3 name3 r3 :
  env_caches_open env = None ->
  env_cache_match env url1 = None ->
  env_cache_match env url2 = None ->
  env_cache_match env url3 = None ->
  cache_lookup url1 (cache w) = Some r1 -> cached_ok r1 = true ->
  cache_lookup url2 (cache w) = Some r2 -> cached_ok r2 = true ->
  cache_lookup url3 (cache w) = Some r3 -> cached_ok r3 = true ->
  Promise_all [downloadFile url1 name1; downloadFile url2 name2; downloadFile url3 name3] env w
  = (Normal [cached_data r1; cached_data r2; cached_data r3],
     posted [loading_progress (loading_from_cache name1);
             loading_progress (loading_from_cache name2);
             loading_progress (loading_from_cache name3)]
       (called [caches_open; cache_match url1; caches_open; cache_match url2;
                caches_open; cache_match url3] w)).
Proof.
  intros Hopen Hm1 Hm2 Hm3 H1 Hok1 H2 Hok2 H3 Hok3.
  unfold Promise_all, settle_all, bind, settle.
  rewrite (downloadFile_hit env w url1 name1 r1 Hopen Hm1 H1 Hok1).
  match goal with
  | |- context [downloadFile url2 name2 env ?w1] =>
      rewrite (downloadFile_hit env w1 url2 name2 r2 Hopen Hm2 H2 Hok2)
  end.
  match goal with
  | |- context [downloadFile url3 name3 env ?w2] =>
      rewrite (downloadFile_hit env w2 url3 name3 r3 Hopen Hm3 H3 Hok3)
  end.
  unfold ret, posted, called. simpl. rewrite <- !app_assoc. reflexivity.
Qed.

(** X21: when the fields of a configuration are strings and the three
    files they name are in the cache, [loadModel] makes no network request:
    it reads them from the cache, hands exactly the cached bytes of the
    weights, the tokenizer and the config to the constructor, and leaves
    the cache as it was. *)
Theorem model_loads_from_the_cache
        (env : Env) (w : World) (modelConfig : jsval) (base model tokenizer config : string)
        (r1 r2 r3 : CachedResponse) :
  prop modelConfig "base_url" = JStr base ->
  prop modelConfig "model" = JStr model ->
  prop modelConfig "tokenizer" = JStr tokenizer ->
  prop modelConfig "config" = JStr config ->
  env_caches_open env = None ->
  env_cache_match env (base ++ model) = None ->
  env_cache_match env (base ++ tokenizer) = None ->
  env_cache_match env (base ++ config) = None ->
  cache_lookup (base ++ model) (cache w) = Some r1 -> cached_ok r1 = true ->
  cache_lookup (base ++ tokenizer) (cache w) = Some r2 -> cached_ok r2 = true ->
  cache_lookup (base ++ config) (cache w) = Some r3 -> cached_ok r3 = true ->
  exists cs rest,
    calls (snd (loadModel modelConfig env w))
      = calls w
          ++ cs
          ++ new_PhiModel (cached_data r1) (cached_data r2) (cached_data r3)
                          (or_else (prop modelConfig "quantized") (JBool false))
             :: rest /\
    forallb is_storage_call cs = true /\
    forallb (fun c => negb (is_fetch c)) (cs ++ rest) = true /\
    cache (snd (loadModel modelConfig env w)) = cache w.
Proof.
  intros Hbase Hmodel Htokenizer Hconfig Hopen Hm1 Hm2 Hm3 H1 Hok1 H2 Hok2 H3 Hok3.
  assert (Hurls : urls_of modelConfig
                  = Some (base ++ model, base ++ tokenizer, base ++ config)%string).
  { unfold urls_of. rewrite Hbase, Hmodel, Htokenizer, Hconfig.
    destruct modelConfig; try discriminate Hbase. reflexivity. }
  exists [caches_open; cache_match (base ++ model);
          caches_open; cache_match (base ++ tokenizer);
          caches_open; cache_match (base ++ config)].
  rewrite (loadModel_run env w modelConfig _ _ _ Hurls).
  match goal with
  | |- context [Promise_all _ env ?w0] =>
      rewrite (three_hits env w0 _ _ r1 _ _ r2 _ _ r3
                 Hopen Hm1 Hm2 Hm3 H1 Hok1 H2 Hok2 H3 Hok3)
  end.
  cbv zeta. cbn [nth].
  destruct (env_new_PhiModel env _ _ _ _) as [e|].
  { exists []. unfold load_failed.
    destruct (lacks_toString e); simpl; rewrite <- !app_assoc; repeat split. }
  match goal with
  | |- context [env_from_phi_model env ?m] =>
      destruct (env_from_phi_model env m) as [e|]; exists [from_phi_model m]
  end.
  - unfold load_failed.
    destruct (lacks_toString e); simpl; rewrite <- !app_assoc; repeat split.
  - simpl; rewrite <- !app_assoc; repeat split.
Qed.

Lemma model_loads_from_the_cache_witness :
  exists cs rest,
    calls (snd (loadModel example_config example_env loaded_world))
      = calls loaded_world
          ++ cs
          ++ new_PhiModel [x01; x02; x03; x04; x05] [x0a] [x0b]
                          (or_else (prop example_config "quantized") (JBool false))
             :: rest /\
    forallb is_storage_call cs = true /\
    forallb (fun c => negb (is_fetch c)) (cs ++ rest) = true /\
    cache (snd (loadModel example_config example_env loaded_world)) = cache loaded_world.
Proof.
  exact (model_loads_from_the_cache example_env loaded_world example_config
           "https://x/" "m.bin" "t.bin" "c.json"
           {| cached_ok := true; cached_data := [x01; x02; x03; x04; x05] |}
           {| cached_ok := true; cached_data := [x0a] |}
           {| cached_ok := true; cached_data := [x0b] |}
           eq_refl eq_refl eq_refl eq_refl eq_refl eq_refl eq_refl eq_refl
           (@eq_refl _ (Some {| cached_ok := true; cached_data := [x01; x02; x03; x04; x05] |})
            <: cache_lookup ("https://x/" ++ "m.bin") (cache loaded_world)
               = Some {| cached_ok := true; cached_data := [x01; x02; x03; x04; x05] |})
           eq_refl
           (@eq_refl _ (Some {| cached_ok := true; cached_data := [x0a] |})
            <: cache_lookup ("https://x/" ++ "t.bin") (cache loaded_world)
               = Some {| cached_ok := true; cached_data := [x0a] |})
           eq_refl
           (@eq_refl _ (Some {| cached_ok := true; cached_data := [x0b] |})
            <: cache_lookup ("https://x/" ++ "c.json") (cache loaded_world)
               = Some {| cached_ok := true; cached_data := [x0b] |})
           eq_refl).
Defined.

(** ** The router and the life cycle *)

Lemma generateResponse_quiet env w data :
  fst (generateResponse data env w) = Normal tt /\
  globals (snd (generateResponse data env w)) = globals w.
Proof.
  destruct (currentAgent (globals w)) as [agent|] eqn:Hagent.
  2: { rewrite (generateResponse_no_agent env w data Hagent). split; reflexivity. }
  destruct (nullish data) eqn:Hdata.
  { destruct (generateResponse_nullish env w agent data Hagent Hdata) as [what ->].
    split; reflexivity. }
  destruct (to_string (prop data "prompt")) as [line|] eqn:Hline.
  2: { destruct (generateResponse_unprintable env w agent data Hagent Hdata Hline) as [what ->].
       split; reflexivity. }
  assert (Hline' : to_string (prop data "prompt") <> None) by congruence.
  destruct (image_supplied data) eqn:Himage.
  { rewrite (generateResponse_image env w agent data Hagent Hline' Himage). split; reflexivity. }
  rewrite (generateResponse_text env w agent data Hagent Hdata Hline' Himage). cbv zeta.
  destruct (breaks_the_log _); split; reflexivity.
Qed.

Lemma checkCacheStatus_quiet env w :
  fst (checkCacheStatus env w) = Normal tt /\
  globals (snd (checkCacheStatus env w)) = globals w.
Proof.
  rewrite checkCacheStatus_run.
  destruct (env_caches_open env); [split; reflexivity|].
  destruct (env_cache_keys env); [split; reflexivity|].
  destruct (cache w); split; reflexivity.
Qed.

Lemma keeps_delete_entries keys : Forall keeps_handles (map delete_entry keys).
Proof.
  induction keys as [|key rest IH]; simpl; constructor; [|exact IH].
  unfold delete_entry.
  apply keeps_bind; [apply keeps_outside|intros _].
  apply keeps_bind; [apply keeps_get_cache|intro; apply keeps_put_cache].
Qed.

Lemma clearCache_quiet env w :
  fst (clearCache env w) = Normal tt /\
  globals (snd (clearCache env w)) = globals w.
Proof.
  split.
  - unfold clearCache, try_catch.
    destruct ((_ ;; _) env w) as [[[]|e] w']; reflexivity.
  - assert (Hkeeps : keeps_handles clearCache).
    { unfold clearCache. apply keeps_try_catch.
      2: { intro e. apply keeps_bind; [apply keeps_postMessage|intros _].
           apply keeps_console_write. }
      apply keeps_bind; [apply keeps_outside|intros _].
      apply keeps_bind.
      { unfold keys_of_cache. apply keeps_bind; [apply keeps_outside|intros _].
        apply keeps_bind; [apply keeps_get_cache|intro; apply keeps_ret]. }
      intro keys.
      apply keeps_bind; [apply keeps_Promise_all, keeps_delete_entries|intros _].
      apply keeps_postMessage. }
    specialize (Hkeeps env w). unfold handles_of in Hkeeps. congruence.
Qed.

Lemma strict_equal_true type tag : strict_equal type tag = true -> type = JStr tag.
Proof.
  destruct type; simpl; try discriminate.
  intro H. apply String.eqb_eq in H. now subst.
Qed.

(** The variables after one message. *)
Lemma onmessage_globals env w event_data :
  (wasmInitialized (globals w) = true ->
   wasmInitialized (globals (snd (onmessage event_data env w))) = true) /\
  (currentModel (globals w) <> None ->
   currentModel (globals (snd (onmessage event_data env w))) <> None) /\
  (currentAgent (globals w) <> None ->
   currentAgent (globals (snd (onmessage event_data env w))) <> None) /\
  (lifecycle_ok (globals w) -> lifecycle_ok (globals (snd (onmessage event_data env w)))).
Proof.
  remember (onmessage event_data env w) as r eqn:Hr.
  unfold onmessage in Hr. cbv [bind member ret throw get_globals postMessage] in Hr.
  destruct (nullish event_data) eqn:Hnull.
  { subst r. simpl. tauto. }
  destruct (strict_equal (prop event_data "type") "init_wasm").
  { rewrite initializeWASM_run in Hr. subst r.
    unfold lifecycle_ok. destruct (env_init env); simpl; repeat split; auto; tauto. }
  destruct (strict_equal (prop event_data "type") "load_model").
  { destruct (wasmInitialized (globals w)) eqn:Hinit; cbn [negb] in Hr.
    2: { subst r. unfold lifecycle_ok. simpl. rewrite Hinit. repeat split; auto; tauto. }
    destruct (loadModel_handles env w (prop event_data "data")) as [Hflag Hhandles].
    assert (Hsnd : snd r = snd (loadModel (prop event_data "data") env w)).
    { subst r. destruct (loadModel (prop event_data "data") env w) as [[b|e] w']; reflexivity. }
    rewrite Hsnd. clear Hr Hsnd r.
    unfold lifecycle_ok. rewrite Hflag, Hinit.
    destruct Hhandles as [[_ [m [a [Hm [Ha _]]]]]|[_ [Ha [Hm|[m [e [Hm _]]]]]]];
      rewrite ?Hm, ?Ha; repeat split; intros; try discriminate; try reflexivity; tauto. }
  destruct (strict_equal (prop event_data "type") "stream_tokens").
  { subst r. destruct (generateResponse_quiet env w (prop event_data "data")) as [_ ->]. tauto. }
  destruct (strict_equal (prop event_data "type") "check_cache").
  { subst r. destruct (checkCacheStatus_quiet env w) as [_ ->]. tauto. }
  destruct (strict_equal (prop event_data "type") "clear_cache").
  { subst r. destruct (clearCache_quiet env w) as [_ ->]. tauto. }
  subst r. simpl. tauto.
Qed.

(** X22: the router lets an error escape in one case only.  For a message
    that is not null or undefined, whatever its type and payload, the
    handler returns normally, unless the message is a load_model on an
    initialized worker whose [loadModel] caught and logged a failure on
    which [toString] cannot be called (undefined, null, or an object with a
    property named toString): then line 168 throws in the [catch] and the
    handler rejects with that TypeError. *)
Theorem router_throws_only_from_loadModel (env : Env) (w : World) (event_data : jsval) :
  nullish event_data = false ->
  fst (onmessage event_data env w) = Normal tt \/
  (prop event_data "type" = JStr "load_model" /\
   wasmInitialized (globals w) = true /\
   exists e new_lines what,
     console (snd (onmessage event_data env w)) = console w ++ new_lines /\
     In (error_load_failed e) new_lines /\
     lacks_toString e = true /\
     fst (onmessage event_data env w) = Throw (TypeError what)).
Proof.
  intro Hnull.
  remember (onmessage event_data env w) as r eqn:Hr.
  unfold onmessage in Hr. cbv [bind member ret throw get_globals postMessage] in Hr.
  rewrite Hnull in Hr.
  destruct (strict_equal (prop event_data "type") "init_wasm").
  { rewrite initializeWASM_run in Hr. subst r. left. destruct (env_init env); reflexivity. }
  destruct (strict_equal (prop event_data "type") "load_model") eqn:Htype.
  { destruct (wasmInitialized (globals w)) eqn:Hinit; cbn [negb] in Hr.
    2: { subst r. left. reflexivity. }
    destruct (loadModel_trace env w (prop event_data "data"))
      as [ps [cs [engine [_ [_ [_ [[Htrue _]|[e [earlier [Hconsole [_ [Hgood Hbad]]]]]]]]]]]].
    - subst r. left.
      destruct (loadModel (prop event_data "data") env w) as [[b|e] w'];
        [reflexivity|discriminate Htrue].
    - destruct (lacks_toString e) eqn:Hlacks.
      + destruct (Hbad eq_refl) as [[what Hthrow] _].
        right. split; [apply strict_equal_true, Htype|]. split; [reflexivity|].
        exists e, (earlier ++ [error_load_failed e]), what.
        subst r.
        destruct (loadModel (prop event_data "data") env w) as [[b|e'] w'];
          simpl in Hthrow, Hconsole; [discriminate Hthrow|].
        simpl. split; [exact Hconsole|].
        split; [apply in_or_app; right; left; reflexivity|].
        split; [exact Hlacks|]. injection Hthrow as ->. reflexivity.
      + destruct (Hgood eq_refl) as [Hfalse _].
        subst r. left.
        destruct (loadModel (prop event_data "data") env w) as [[b|e'] w'];
          [reflexivity|discriminate Hfalse]. }
  destruct (strict_equal (prop event_data "type") "stream_tokens").
  { subst r. left. apply generateResponse_quiet. }
  destruct (strict_equal (prop event_data "type") "check_cache").
  { subst r. left. apply checkCacheStatus_quiet. }
  destruct (strict_equal (prop event_data "type") "clear_cache").
  { subst r. left. apply clearCache_quiet. }
  subst r. left. reflexivity.
Qed.

Lemma router_throws_only_from_loadModel_witness :
  fst (onmessage (event "load_model" example_config)
                 (with_fetch (fun _ => inl (Value JUndefined)) example_env)
                 (run example_env [event "init_wasm" JUndefined] (initial_world [])))
    = Normal tt \/
  (prop (event "load_model" example_config) "type" = JStr "load_model" /\
   wasmInitialized (globals (run example_env [event "init_wasm" JUndefined] (initial_world [])))
     = true /\
   exists e new_lines what,
     console (snd (onmessage (event "load_model" example_config)
                             (with_fetch (fun _ => inl (Value JUndefined)) example_env)
                             (run example_env [event "init_wasm" JUndefined] (initial_world []))))
       = console (run example_env [event "init_wasm" JUndefined] (initial_world []))
           ++ new_lines /\
     In (error_load_failed e) new_lines /\
     lacks_toString e = true /\
     fst (onmessage (event "load_model" example_config)
                    (with_fetch (fun _ => inl (Value JUndefined)) example_env)
                    (run example_env [event "init_wasm" JUndefined] (initial_world [])))
       = Throw (TypeError what)).
Proof.
  exact (router_throws_only_from_loadModel
           (with_fetch (fun _ => inl (Value JUndefined)) example_env)
           (run example_env [event "init_wasm" JUndefined] (initial_world []))
           (event "load_model" example_config) eq_refl).
Defined.

(** A load_model whose downloads are rejected with undefined: the handler
    rejects, and the page receives no verdict. *)
Example router_lets_a_rejection_escape :
  exists what,
    fst (onmessage (event "load_model" example_config)
                   (with_fetch (fun _ => inl (Value JUndefined)) example_env)
                   (run example_env [event "init_wasm" JUndefined] (initial_world [])))
      = Throw (TypeError what) /\
    forallb is_loading_progress
      (skipn 1 (outbox (snd (onmessage (event "load_model" example_config)
                                       (with_fetch (fun _ => inl (Value JUndefined)) example_env)
                                       (run example_env [event "init_wasm" JUndefined]
                                            (initial_world []))))))
      = true.
Proof. eexists. split; vm_compute; reflexivity. Qed.

(** X23: nothing is ever unloaded.  Over any sequence of messages, once
    [wasmInitialized] is true it stays true, and once a model or an agent is
    held one is held ever after. *)
Theorem nothing_is_ever_unloaded (env : Env) (events : list jsval) (w : World) :
  (wasmInitialized (globals w) = true ->
   wasmInitialized (globals (run env events w)) = true) /\
  (currentModel (globals w) <> None -> currentModel (globals (run env events w)) <> None) /\
  (currentAgent (globals w) <> None -> currentAgent (globals (run env events w)) <> None).
Proof.
  revert w. induction events as [|event_data rest IH]; intro w; simpl; [tauto|].
  destruct (onmessage_globals env w event_data) as [Hinit [Hmodel [Hagent _]]].
  destruct (IH (snd (onmessage event_data env w))) as [IHinit [IHmodel IHagent]].
  repeat split; auto.
Qed.

(** X24: the life cycle follows its order.  In every state the worker
    reaches from its start, over any cache and any sequence of messages, an
    agent is held only if a model is held, and a model only if the engine
    was initialized. *)
Theorem lifecycle_order (env : Env) (events : list jsval) (c : list (string * CachedResponse)) :
  (currentAgent (globals (run env events (initial_world c))) <> None ->
   currentModel (globals (run env events (initial_world c))) <> None) /\
  (currentModel (globals (run env events (initial_world c))) <> None ->
   wasmInitialized (globals (run env events (initial_world c))) = true).
Proof.
  assert (Hstep : forall w, lifecycle_ok (globals w) -> lifecycle_ok (globals (run env events w))).
  { induction events as [|event_data rest IH]; intros w Hw; simpl; [exact Hw|].
    apply IH. destruct (onmessage_globals env w event_data) as [_ [_ [_ Hok]]].
    exact (Hok Hw). }
  apply Hstep. split; simpl; intro H; exfalso; apply H; reflexivity.
Qed.

Lemma nothing_is_ever_unloaded_witness :
  wasmInitialized
    (globals (run (with_init (Some (Thrown "CompileError")) example_env)
                  [event "init_wasm" JNull; event "clear_cache" JNull; event "load_model" JNull]
                  loaded_world)) = true /\
  currentModel
    (globals (run (with_init (Some (Thrown "CompileError")) example_env)
                  [event "init_wasm" JNull; event "clear_cache" JNull; event "load_model" JNull]
                  loaded_world)) <> None /\
  currentAgent
    (globals (run (with_init (Some (Thrown "CompileError")) example_env)
                  [event "init_wasm" JNull; event "clear_cache" JNull; event "load_model" JNull]
                  loaded_world)) <> None.
Proof.
  destruct (nothing_is_ever_unloaded
              (with_init (Some (Thrown "CompileError")) example_env)
              [event "init_wasm" JNull; event "clear_cache" JNull; event "load_model" JNull]
              loaded_world) as [Hinit [Hmodel Hagent]].
  split; [apply Hinit; vm_compute; reflexivity|].
  split; [apply Hmodel|apply Hagent]; intro H; vm_compute in H; discriminate H.
Defined.

Lemma lifecycle_order_witness :
  (currentAgent (globals (run example_env
                              [event "load_model" example_config; event "init_wasm" JNull;
                               event "load_model" example_config]
                              (initial_world []))) <> None ->
   currentModel (globals (run example_env
                              [event "load_model" example_config; event "init_wasm" JNull;
                               event "load_model" example_config]
                              (initial_world []))) <> None) /\
  (currentModel (globals (run example_env
                              [event "load_model" example_config; event "init_wasm" JNull;
                               event "load_model" example_config]
                              (initial_world []))) <> None ->
   wasmInitialized (globals (run example_env
                                 [event "load_model" example_config; event "init_wasm" JNull;
                                  event "load_model" example_config]
                                 (initial_world []))) = true).
Proof.
  exact (lifecycle_order example_env
           [event "load_model" example_config; event "init_wasm" JNull;
            event "load_model" example_config] []).
Defined.
